(** * buildctl build: option parsing, exporter output and status fan-out

    A shallow embedding of [cmd/buildctl/build.go].  Go strings are byte
    strings ([string]), Go maps of strings are [gmap string string], a Go
    function that may return an error or panic returns a [result]. *)

From Stdlib Require Import Ascii String.
From stdpp Require Import base option list strings gmap.

Local Open Scope string_scope.
Local Open Scope list_scope.
Local Open Scope stdpp_scope.

(** ** Errors, panics and results *)

(** The two errors a [csv.ParseError] of the reader's default configuration
    can wrap. *)
Inductive csv_error : Type :=
| ErrBareQuote   (* bare quote in an unquoted field *)
| ErrQuote.      (* extraneous or missing quote in a quoted field *)

(** Go [error] values.  [errors.New] and [errors.Errorf] keep their message,
    respectively their format and arguments; [errors.Wrap] keeps the wrapped
    error.  [External] stands for an error made by a package outside this
    file (the operating system, the client, the session providers). *)
Inductive error : Type :=
| io_EOF
| csv_ParseError (e : csv_error)
| New (msg : string)
| Errorf (format : string) (args : list string)
| Wrap (e : error) (msg : string)
| Wrapf (e : error) (format : string) (args : list string)
| External (what : string).

(** Run-time panics of the Go code. *)
Inductive panic : Type :=
| IndexOutOfRange (index len : nat)
| NilDereference.

Inductive result (A : Type) : Type :=
| Ok (a : A)
| Err (e : error)
| Panic (p : panic).
Arguments Ok {A} a.
Arguments Err {A} e.
Arguments Panic {A} p.

Global Instance result_ret : MRet result := fun A a => Ok a.
Global Instance result_bind : MBind result := fun A B k r =>
  match r with
  | Ok a => k a
  | Err e => Err e
  | Panic p => Panic p
  end.

(** [xs[i]] on a Go slice: a panic when [i] is out of range. *)
Definition index {A} (xs : list A) (i : nat) : result A :=
  match xs !! i with
  | Some x => Ok x
  | None => Panic (IndexOutOfRange i (length xs))
  end.

(** ** Package [strings] *)

Definition LF : ascii := "010"%char.
Definition CR : ascii := "013"%char.
Definition quote : ascii := "034"%char.
Definition comma : ascii := ","%char.
Definition equals : ascii := "="%char.

(** Splits at the first occurrence of the byte [sep]. *)
Fixpoint cut (sep : ascii) (s : string) : option (string * string) :=
  match s with
  | EmptyString => None
  | String c r =>
      if Ascii.eqb c sep then Some (EmptyString, r)
      else match cut sep r with
           | Some (a, b) => Some (String c a, b)
           | None => None
           end
  end.

(** [strings.SplitN(s, "=", 2)]: the whole string when it has no ['='],
    else what is before and what is after the first one. *)
Definition SplitN_eq_2 (s : string) : list string :=
  match cut equals s with
  | Some (a, b) => [a; b]
  | None => [s]
  end.

(** [strings.Split(s, ",")]. *)
Fixpoint Split_comma (s : string) : list string :=
  match s with
  | EmptyString => [EmptyString]
  | String c r =>
      if Ascii.eqb c comma then EmptyString :: Split_comma r
      else match Split_comma r with
           | f :: fs => String c f :: fs
           | [] => [String c EmptyString]
           end
  end.

(** The case tables of package [unicode], which [strings.ToLower] uses on
    text that is not all ASCII: [unicode_ToLower s] is
    [strings.Map(unicode.ToLower, s)] for a string [s] with a byte above
    127.  The tables are not in the source tree; everything below holds
    for every value of them. *)
Class Unicode : Type := {
  unicode_ToLower : string -> string
}.

(** [c < utf8.RuneSelf] for every byte of the string. *)
Fixpoint isASCII (s : string) : bool :=
  match s with
  | EmptyString => true
  | String c r => (nat_of_ascii c <? 128)%nat && isASCII r
  end.

(** The ASCII case of [strings.ToLower], on one byte: ['A'..'Z'] go to
    ['a'..'z'], every other byte is kept. *)
Definition lower (c : ascii) : ascii :=
  let n := nat_of_ascii c in
  if (65 <=? n)%nat && (n <=? 90)%nat then ascii_of_nat (n + 32) else c.

Fixpoint lowerASCII (s : string) : string :=
  match s with
  | EmptyString => EmptyString
  | String c r => String (lower c) (lowerASCII r)
  end.

(** [strings.ToLower]: the bytes are folded one by one when the string is
    all ASCII, and the runes are mapped through the tables of [unicode]
    otherwise. *)
Definition ToLower {U : Unicode} (s : string) : string :=
  if isASCII s then lowerASCII s else unicode_ToLower s.

(** Tables for the runs on ASCII input, which do not consult them. *)
Global Instance noTables : Unicode := {| unicode_ToLower := fun s => s |}.

(** [strings.Contains(s, substr)]. *)
Fixpoint Contains (s substr : string) : bool :=
  String.prefix substr s ||
  match s with
  | EmptyString => false
  | String _ r => Contains r substr
  end.

(** ** Package [encoding/csv]: the first [Read] of a default reader *)

(** What [readLine] does to line ends, on the whole input: a carriage return
    before a line feed is dropped, and so is one that ends the input. *)
Fixpoint normalizeNL (s : string) : string :=
  match s with
  | EmptyString => EmptyString
  | String c r =>
      if Ascii.eqb c CR then
        match r with
        | EmptyString => EmptyString
        | String c' r' =>
            if Ascii.eqb c' LF then String LF (normalizeNL r')
            else String c (normalizeNL r)
        end
      else String c (normalizeNL r)
  end.

(** Empty lines before the record are skipped. *)
Fixpoint skipEmptyLines (s : string) : string :=
  match s with
  | String c r => if Ascii.eqb c LF then skipEmptyLines r else s
  | EmptyString => s
  end.

Inductive csv_state : Type :=
| FieldStart     (* at the first byte of a field *)
| Unquoted       (* inside a field that did not start with a quote *)
| Quoted         (* inside a quoted field, before its closing quote *)
| AfterQuote.    (* just after a quote met inside a quoted field *)

(** Puts a byte in front of the field being read. *)
Definition push (c : ascii) (fields : list string) : list string :=
  match fields with
  | f :: fs => String c f :: fs
  | [] => [String c EmptyString]
  end.

Definition csv_map (f : list string -> list string)
    (r : result (list string)) : result (list string) :=
  fields ← r; Ok (f fields).

(** [readRecord] on the (normalised) input: the fields of the first record,
    the head of the list being the rest of the field under the cursor.
    A comma ends a field, a line feed outside quotes ends the record, a
    doubled quote inside a quoted field is one quote, and a quoted field
    runs over line ends. *)
Fixpoint readRecord (st : csv_state) (s : string) : result (list string) :=
  match st, s with
  | (FieldStart | Unquoted | AfterQuote), EmptyString => Ok [EmptyString]
  | Quoted, EmptyString => Err (csv_ParseError ErrQuote)
  | FieldStart, String c r =>
      if Ascii.eqb c quote then readRecord Quoted r
      else if Ascii.eqb c comma then csv_map (cons EmptyString) (readRecord FieldStart r)
      else if Ascii.eqb c LF then Ok [EmptyString]
      else csv_map (push c) (readRecord Unquoted r)
  | Unquoted, String c r =>
      if Ascii.eqb c quote then Err (csv_ParseError ErrBareQuote)
      else if Ascii.eqb c comma then csv_map (cons EmptyString) (readRecord FieldStart r)
      else if Ascii.eqb c LF then Ok [EmptyString]
      else csv_map (push c) (readRecord Unquoted r)
  | Quoted, String c r =>
      if Ascii.eqb c quote then readRecord AfterQuote r
      else csv_map (push c) (readRecord Quoted r)
  | AfterQuote, String c r =>
      if Ascii.eqb c quote then csv_map (push quote) (readRecord Quoted r)
      else if Ascii.eqb c comma then csv_map (cons EmptyString) (readRecord FieldStart r)
      else if Ascii.eqb c LF then Ok [EmptyString]
      else Err (csv_ParseError ErrQuote)
  end.

(** [csv.NewReader(strings.NewReader(s)).Read()]: [io.EOF] when the input
    has no record. *)
Definition csv_Read (s : string) : result (list string) :=
  match skipEmptyLines (normalizeNL s) with
  | EmptyString => Err io_EOF
  | n => readRecord FieldStart n
  end.

(** ** Cache options: [parseExportCacheCSV], [parseImportCacheCSV] *)

(** [client.CacheOptionsEntry]. *)
Record CacheOptionsEntry : Type := {
  Type_ : string;
  Attrs : gmap string string
}.

(** The body of the loop over the fields, the same in [parseExportCacheCSV]
    and [parseImportCacheCSV]: [parts[1]] is read without a look at the
    length of [parts]. *)
Definition cacheField {U : Unicode} (ex : CacheOptionsEntry) (field : string)
    : result CacheOptionsEntry :=
  let parts := SplitN_eq_2 field in
  p0 ← index parts 0;
  let key := ToLower p0 in
  value ← index parts 1;
  if String.eqb key "type"
  then Ok {| Type_ := value; Attrs := Attrs ex |}
  else Ok {| Type_ := Type_ ex; Attrs := <[key := value]> (Attrs ex) |}.

Fixpoint cacheFields {U : Unicode} (fields : list string) (ex : CacheOptionsEntry)
    : result CacheOptionsEntry :=
  match fields with
  | [] => Ok ex
  | field :: rest => ex' ← cacheField ex field; cacheFields rest ex'
  end.

Definition emptyEntry : CacheOptionsEntry :=
  {| Type_ := EmptyString; Attrs := ∅ |}.

(** The last lines of [parseExportCacheCSV]: [mode] defaults to [min]. *)
Definition defaultMode (attrs : gmap string string) : gmap string string :=
  match attrs !! "mode" with
  | Some _ => attrs
  | None => <["mode" := "min"]> attrs
  end.

(** On an error the Go functions also return the entry built so far; no
    caller reads it, and [Err] does not carry it. *)
Definition parseExportCacheCSV {U : Unicode} (s : string) : result CacheOptionsEntry :=
  fields ← csv_Read s;
  ex ← cacheFields fields emptyEntry;
  if String.eqb (Type_ ex) EmptyString
  then Err (New "--export-cache requires type=<type>")
  else Ok {| Type_ := Type_ ex; Attrs := defaultMode (Attrs ex) |}.

Definition parseImportCacheCSV {U : Unicode} (s : string) : result CacheOptionsEntry :=
  fields ← csv_Read s;
  im ← cacheFields fields emptyEntry;
  if String.eqb (Type_ im) EmptyString
  then Err (New "--import-cache requires type=<type>")
  else Ok im.

(** ** [attrMap] *)

Definition attrMap_step (m : gmap string string) (v : string)
    : result (gmap string string) :=
  let parts := SplitN_eq_2 v in
  if negb (length parts =? 2)%nat
  then Err (Errorf "invalid value %s" [v])
  else
    k ← index parts 0;
    x ← index parts 1;
    Ok (<[k := x]> m).

Fixpoint attrMap_loop (sl : list string) (m : gmap string string)
    : result (gmap string string) :=
  match sl with
  | [] => Ok m
  | v :: rest => m' ← attrMap_step m v; attrMap_loop rest m'
  end.

Definition attrMap (sl : list string) : result (gmap string string) :=
  attrMap_loop sl ∅.

(** ** [parseExportCache], [parseImportCache] *)

(** What [logrus] is asked to print. *)
Inductive log_entry : Type :=
| Warnf (msg : string)
| Infof (format : string) (args : list string)
| Debugf (format : string) (args : list string)
| LogError (e : error).

Definition exportCacheDeprecated : string :=
  "--export-cache <ref> --export-cache-opt <opt>=<optval> is deprecated. Please use --export-cache type=registry,ref=<ref>,<opt>=<optval>[,<opt>=<optval>] instead.".

Definition importCacheDeprecated : string :=
  "--import-cache <ref> is deprecated. Please use --import-cache type=registry,ref=<ref>,<opt>=<optval>[,<opt>=<optval>] instead.".

Definition errExportCacheOptSingle : error :=
  New "--export-cache-opt requires exactly single --export-cache".

Definition errExportCacheOptUnsupported : error :=
  New "--export-cache-opt is not supported for the specified --export-cache. Please use --export-cache type=<type>,<opt>=<optval>[,<opt>=<optval>] instead.".

(** [legacy := !strings.Contains(exportCache, "type=")]. *)
Definition legacy (spec : string) : bool := negb (Contains spec "type=").

(** A function that logs: the entries it logged, in order, and its result. *)
Definition logged (A : Type) : Type := list log_entry * result A.

(** The loop of [parseExportCache]; [exports] and [log] are what was
    appended and logged so far. *)
Fixpoint parseExportCache_loop {U : Unicode} (legacyExportCacheOpts exportCaches : list string)
    (exports : list CacheOptionsEntry) (log : list log_entry)
    : logged (list CacheOptionsEntry) :=
  match exportCaches with
  | [] => (log, Ok exports)
  | exportCache :: rest =>
      if legacy exportCache then
        let log := log ++ [Warnf exportCacheDeprecated] in
        match attrMap legacyExportCacheOpts with
        | Ok attrs =>
            let attrs := defaultMode attrs in
            let attrs := <["ref" := exportCache]> attrs in
            parseExportCache_loop legacyExportCacheOpts rest
              (exports ++ [{| Type_ := "registry"; Attrs := attrs |}]) log
        | Err e => (log, Err e)
        | Panic p => (log, Panic p)
        end
      else if (0 <? length legacyExportCacheOpts)%nat then
        (log, Err errExportCacheOptUnsupported)
      else
        match parseExportCacheCSV exportCache with
        | Ok ex =>
            parseExportCache_loop legacyExportCacheOpts rest (exports ++ [ex]) log
        | Err e => (log, Err e)
        | Panic p => (log, Panic p)
        end
  end.

Definition parseExportCache {U : Unicode} (exportCaches legacyExportCacheOpts : list string)
    : logged (list CacheOptionsEntry) :=
  if (0 <? length legacyExportCacheOpts)%nat
     && negb (length exportCaches =? 1)%nat
  then ([], Err errExportCacheOptSingle)
  else parseExportCache_loop legacyExportCacheOpts exportCaches [] [].

Fixpoint parseImportCache_loop {U : Unicode} (importCaches : list string)
    (imports : list CacheOptionsEntry) (log : list log_entry)
    : logged (list CacheOptionsEntry) :=
  match importCaches with
  | [] => (log, Ok imports)
  | importCache :: rest =>
      if legacy importCache then
        parseImportCache_loop rest
          (imports ++ [{| Type_ := "registry";
                          Attrs := {["ref" := importCache]} |}])
          (log ++ [Warnf importCacheDeprecated])
      else
        match parseImportCacheCSV importCache with
        | Ok im => parseImportCache_loop rest (imports ++ [im]) log
        | Err e => (log, Err e)
        | Panic p => (log, Panic p)
        end
  end.

Definition parseImportCache {U : Unicode} (importCaches : list string)
    : logged (list CacheOptionsEntry) :=
  parseImportCache_loop importCaches [] [].

(** ** Secrets: [parseSecret] *)

(** [secretsprovider.FileSource]. *)
Record FileSource : Type := {
  ID : string;
  FilePath : string
}.

(** [secretsprovider.FileSource{}]. *)
Definition noSecret : FileSource :=
  {| ID := EmptyString; FilePath := EmptyString |}.

(** The body of the loop of [parseSecret]. *)
Definition parseSecret_field {U : Unicode} (fs : FileSource) (field : string)
    : result FileSource :=
  let parts := SplitN_eq_2 field in
  p0 ← index parts 0;
  let key := ToLower p0 in
  if negb (length parts =? 2)%nat
  then Err (Errorf "invalid field '%s' must be a key=value pair" [field])
  else
    value ← index parts 1;
    if String.eqb key "type" then
      if negb (String.eqb value "file")
      then Err (Errorf "unsupported secret type %q" [value])
      else Ok fs
    else if String.eqb key "id" then
      Ok {| ID := value; FilePath := FilePath fs |}
    else if String.eqb key "source" || String.eqb key "src" then
      Ok {| ID := ID fs; FilePath := value |}
    else Err (Errorf "unexpected key '%s' in '%s'" [key; field]).

Fixpoint parseSecret_fields {U : Unicode} (fields : list string) (fs : FileSource)
    : result FileSource :=
  match fields with
  | [] => Ok fs
  | field :: rest => fs' ← parseSecret_field fs field; parseSecret_fields rest fs'
  end.

Definition parseSecret {U : Unicode} (value : string) : result FileSource :=
  match csv_Read value with
  | Ok fields => parseSecret_fields fields noSecret
  | Err err => Err (Wrap err "failed to parse csv secret")
  | Panic p => Panic p
  end.

(** ** What a record of [key=value] fields says about a key *)

(** The value of the last field whose key, folded by [fold], is [key]:
    later fields overwrite earlier ones. *)
Fixpoint lastValue (fold : string -> string) (key : string)
    (fields : list string) : option string :=
  match fields with
  | [] => None
  | field :: rest =>
      match lastValue fold key rest with
      | Some v => Some v
      | None =>
          match cut equals field with
          | Some (k, v) => if String.eqb (fold k) key then Some v else None
          | None => None
          end
      end
  end.

Definition hasEquals (field : string) : Prop := cut equals field <> None.

(** The [mode] attribute of an entry made from [spec]: in legacy mode the
    companion list gives it, in structured mode the fields of the spec. *)
Definition modeOf {U : Unicode} (opts : list string) (spec : string) (ex : CacheOptionsEntry)
    : Prop :=
  if legacy spec
  then Attrs ex !! "mode" = Some (default "min" (lastValue id "mode" opts))
  else exists fields,
         csv_Read spec = Ok fields /\
         Attrs ex !! "mode" =
           Some (default "min" (lastValue ToLower "mode" fields)).



(** Text without a quote, a carriage return or a line feed: the bytes that
    the CSV reader copies as they are. *)
Fixpoint plain (t : string) : bool :=
  match t with
  | EmptyString => true
  | String c r =>
      negb (Ascii.eqb c quote) && negb (Ascii.eqb c CR) && negb (Ascii.eqb c LF)
      && plain r
  end.

(** ** SSH agent specs: [parseSSHSpecs] *)

(** [sshprovider.AgentConfig]. *)
Record AgentConfig : Type := {
  AgentID : string;
  Paths : list string
}.

Definition parseSSHSpec (v : string) : result AgentConfig :=
  let parts := SplitN_eq_2 v in
  p0 ← index parts 0;
  if (1 <? length parts)%nat
  then p1 ← index parts 1; Ok {| AgentID := p0; Paths := Split_comma p1 |}
  else Ok {| AgentID := p0; Paths := [] |}.

Fixpoint parseSSHSpecs_loop (inp : list string) (configs : list AgentConfig)
    : result (list AgentConfig) :=
  match inp with
  | [] => Ok configs
  | v :: rest => cfg ← parseSSHSpec v; parseSSHSpecs_loop rest (configs ++ [cfg])
  end.

Definition parseSSHSpecs (inp : list string) : result (list AgentConfig) :=
  parseSSHSpecs_loop inp [].

(** ** What the file does not define *)

(** An [*os.File] that is not nil. *)
Record File : Type := {
  Name : string;
  Fd : nat
}.

Definition os_Stdin : File := {| Name := "/dev/stdin"; Fd := 0 |}.
Definition os_Stdout : File := {| Name := "/dev/stdout"; Fd := 1 |}.

(** A value of the interface [io.WriteCloser] in this file: the nil
    interface, or a pointer [*os.File], which can be the nil pointer. *)
Inductive WriteCloser : Type :=
| nilWriteCloser
| fileWriteCloser (f : option File).

(** What the file reads of an [os.FileInfo]. *)
Record FileInfo : Type := {
  IsDir : bool;
  ModeCharDevice : bool   (* Mode() & os.ModeCharDevice != 0 *)
}.

(** The flags of the command, as [clicontext.String], [StringSlice] and
    [Bool] give them. *)
Record CliContext : Type := {
  flag_exporter : string;
  flag_exporter_opt : list string;
  flag_progress : string;
  flag_trace : string;
  flag_local : list string;
  flag_frontend : string;
  flag_frontend_opt : list string;
  flag_no_cache : bool;
  flag_export_cache : list string;
  flag_export_cache_opt : list string;
  flag_import_cache : list string;
  flag_secret : list string;
  flag_allow : list string;
  flag_ssh : list string
}.

(** The packages the file imports and the operating system, as far as the
    file uses them.  A Go function that returns [(x, err)] returns
    [inr x] or [inl err]; one that acts on the system takes and gives back
    the state [OS] of the system.

    The three exporter names are constants of package [client]; the
    [switch] of [resolveExporterOutput] compiles only if its case constants
    differ, and it tests [ExporterLocal] first. *)
Class Env : Type := {
  ExporterLocal : string;
  ExporterOCI : string;
  ExporterDocker : string;
  ExporterLocal_not_OCI : ExporterLocal <> ExporterOCI;
  ExporterLocal_not_Docker : ExporterLocal <> ExporterDocker;

  OS : Type;
  os_Stat : string -> OS -> error + FileInfo;
  os_IsNotExist : error -> bool;
  os_Create : string -> OS -> OS * (error + File);
  (** [os.OpenFile(name, os.O_APPEND|os.O_CREATE|os.O_WRONLY, 0600)] *)
  os_OpenFile_append : string -> OS -> OS * (error + File);
  File_Close : File -> OS -> OS;
  File_Stat : File -> OS -> error + FileInfo;
  (** [console.ConsoleFromFile(f)] returns no error *)
  isConsole : File -> OS -> bool;

  Client : Type;
  resolveClient : CliContext -> OS -> OS * (error + Client);

  Attachable : Type;
  NewDockerAuthProvider : Attachable;
  NewSSHAgentProvider : list AgentConfig -> OS -> OS * (error + Attachable);
  SecretStore : Type;
  NewFileStore : list FileSource -> OS -> OS * (error + SecretStore);
  NewSecretProvider : SecretStore -> Attachable;

  Entitlement : Type;
  entitlements_Parse : string -> error + Entitlement;

  OpMetadata : Type;
  emptyOpMetadata : OpMetadata;           (* pb.OpMetadata{} *)
  (** the [Def] and the [Metadata] that [llb.ReadFrom(f)] returns *)
  llb_ReadFrom : File -> OS -> OS * (error + list string * gmap string OpMetadata);
  Op_Unmarshal : string -> option error;  (* (&op).Unmarshal(dt) *)
  digest_FromBytes : string -> string;
  (** the metadata of [c] after [llb.IgnoreCache(&c)] *)
  IgnoreCache : OpMetadata -> OpMetadata;

  SolveStatus : Type;
  (** [json.NewEncoder(f).Encode(s)] *)
  Encode : File -> SolveStatus -> OS -> OS * option error
}.

Section Build.
Context {U : Unicode} {env : Env}.

(** [llb.Definition]. *)
Record Definition_ : Type := {
  Def : list string;
  Metadata : gmap string OpMetadata
}.

(** [client.SolveOpt]. *)
Record SolveOpt : Type := {
  Exporter : string;
  ExporterAttrs : gmap string string;
  ExporterOutput : WriteCloser;
  ExporterOutputDir : string;
  LocalDirs : gmap string string;
  Frontend : string;
  FrontendAttrs : gmap string string;
  CacheExports : list CacheOptionsEntry;
  CacheImports : list CacheOptionsEntry;
  Session : list Attachable;
  AllowedEntitlements : list Entitlement
}.

(** ** [resolveExporterOutput] *)

(** The three values the function returns. *)
Record Output : Type := {
  out_w : WriteCloser;
  out_dir : string;
  out_err : option error
}.

Definition isEmpty (s : string) : bool := String.eqb s EmptyString.

Definition resolveExporterOutput (exporter output : string) (os : OS)
    : OS * Output :=
  if String.eqb exporter ExporterLocal then
    if isEmpty output then
      (os, {| out_w := nilWriteCloser; out_dir := EmptyString;
              out_err := Some (New "output directory is required for local exporter") |})
    else
      (os, {| out_w := nilWriteCloser; out_dir := output; out_err := None |})
  else if String.eqb exporter ExporterOCI || String.eqb exporter ExporterDocker then
    if negb (isEmpty output) then
      let create :=
        match os_Create output os with
        | (os', inr w) =>
            (os', {| out_w := fileWriteCloser (Some w); out_dir := EmptyString;
                     out_err := None |})
        | (os', inl err) =>
            (os', {| out_w := fileWriteCloser None; out_dir := EmptyString;
                     out_err := Some err |})
        end in
      match os_Stat output os with
      | inl err =>
          if negb (os_IsNotExist err) then
            (os, {| out_w := nilWriteCloser; out_dir := EmptyString;
                    out_err := Some (Wrapf err "invalid destination file: %s" [output]) |})
          else create
      | inr fi =>
          if IsDir fi then
            (os, {| out_w := nilWriteCloser; out_dir := EmptyString;
                    out_err := Some (Errorf "destination file is a directory" []) |})
          else create
      end
    else if isConsole os_Stdout os then
      (os, {| out_w := nilWriteCloser; out_dir := EmptyString;
              out_err := Some (Errorf "output file is required for %s exporter. refusing to write to console" [exporter]) |})
    else
      (os, {| out_w := fileWriteCloser (Some os_Stdout); out_dir := EmptyString;
              out_err := None |})
  else
    if negb (isEmpty output) then
      (os, {| out_w := nilWriteCloser; out_dir := EmptyString;
              out_err := Some (Errorf "output %s is not supported by %s exporter" [output; exporter]) |})
    else
      (os, {| out_w := nilWriteCloser; out_dir := EmptyString; out_err := None |}).

(** ** The state of a run and the functions that act on it *)

Record State : Type := {
  os : OS;
  log : list log_entry
}.

(** A function that acts on the system or logs, and returns, fails or
    panics. *)
Definition M (A : Type) : Type := State -> State * result A.

Global Instance M_ret : MRet M := fun A a st => (st, Ok a).
Global Instance M_bind : MBind M := fun A B k m st =>
  match m st with
  | (st', Ok a) => k a st'
  | (st', Err e) => (st', Err e)
  | (st', Panic p) => (st', Panic p)
  end.

Definition pure {A} (r : result A) : M A := fun st => (st, r).

Definition fail {A} (e : error) : M A := pure (Err e).

Definition ofError {A} (r : error + A) : result A :=
  match r with
  | inr a => Ok a
  | inl e => Err e
  end.

(** A call that acts on the system. *)
Definition sys {A} (f : OS -> OS * (error + A)) : M A := fun st =>
  let (os', r) := f (os st) in ({| os := os'; log := log st |}, ofError r).

(** A call that logs. *)
Definition logging {A} (r : logged A) : M A := fun st =>
  ({| os := os st; log := log st ++ fst r |}, snd r).

Definition logrus (entry : log_entry) : M unit := logging ([entry], Ok tt).

(** [if err != nil { return errors.Wrap(err, msg) }] after a call. *)
Definition wrapped {A} (msg : string) (m : M A) : M A := fun st =>
  match m st with
  | (st', Err e) => (st', Err (Wrap e msg))
  | other => other
  end.

(** [defer f.Close()], on the ways out of the function that the model
    follows to their end: a returned error and a panic. *)
Definition deferClose {A} (f : File) (body : M A) : M A := fun st =>
  match body st with
  | (st', Ok a) => (st', Ok a)
  | (st', r) => ({| os := File_Close f (os st'); log := log st' |}, r)
  end.

(** ** [read], [openTraceFile] and the helpers of [build] *)

Fixpoint read_loop (dts : list string) (metadata : gmap string OpMetadata)
    : result (gmap string OpMetadata) :=
  match dts with
  | [] => Ok metadata
  | dt :: rest =>
      match Op_Unmarshal dt with
      | Some err => Err (Wrap err "failed to parse llb proto op")
      | None =>
          let dgst := digest_FromBytes dt in
          let opMetadata := default emptyOpMetadata (metadata !! dgst) in
          read_loop rest (<[dgst := IgnoreCache opMetadata]> metadata)
      end
  end.

Definition read (r : File) (clicontext : CliContext) : M Definition_ :=
  def ← wrapped "failed to parse input" (sys (llb_ReadFrom r));
  if flag_no_cache clicontext then
    metadata ← pure (read_loop (def.1) (def.2));
    mret {| Def := def.1; Metadata := metadata |}
  else mret {| Def := def.1; Metadata := def.2 |}.

Definition openTraceFile (clicontext : CliContext) : M (option File) :=
  let traceFileName := flag_trace clicontext in
  if negb (isEmpty traceFileName)
  then f ← sys (os_OpenFile_append traceFileName); mret (Some f)
  else mret None.

Fixpoint parseSecretSpecs_loop (sl : list string) (fs : list FileSource)
    : result (list FileSource) :=
  match sl with
  | [] => Ok fs
  | v :: rest => s ← parseSecret v; parseSecretSpecs_loop rest (fs ++ [s])
  end.

Definition parseSecretSpecs (sl : list string) : M Attachable :=
  fs ← pure (parseSecretSpecs_loop sl []);
  store ← sys (NewFileStore fs);
  mret (NewSecretProvider store).

Fixpoint parseEntitlements_loop (inp : list string) (ent : list Entitlement)
    : result (list Entitlement) :=
  match inp with
  | [] => Ok ent
  | v :: rest =>
      e ← ofError (entitlements_Parse v); parseEntitlements_loop rest (ent ++ [e])
  end.

Definition parseEntitlements (inp : list string) : result (list Entitlement) :=
  parseEntitlements_loop inp [].

(** ** [build], up to the start of its goroutines *)

Definition isNil (w : WriteCloser) : bool :=
  match w with
  | nilWriteCloser => true
  | fileWriteCloser _ => false
  end.

(** Lines 143-163: the session attachments. *)
Definition build_session (clicontext : CliContext) : M (list Attachable) :=
  let attachable := [NewDockerAuthProvider] in
  attachable ←
    (let ssh := flag_ssh clicontext in
     if (0 <? length ssh)%nat then
       configs ← pure (parseSSHSpecs ssh);
       sp ← sys (NewSSHAgentProvider configs);
       mret (attachable ++ [sp])
     else mret attachable);
  let secrets := flag_secret clicontext in
  if (0 <? length secrets)%nat then
    secretProvider ← parseSecretSpecs secrets;
    mret (attachable ++ [secretProvider])
  else mret attachable.

(** Lines 193-203: the exporter attributes and the exporter output; the
    value is [ExporterAttrs], [ExporterOutput] and [ExporterOutputDir]. *)
Definition build_exporter (clicontext : CliContext)
    : M (gmap string string * WriteCloser * string) :=
  attrs ← wrapped "invalid exporter-opt" (pure (attrMap (flag_exporter_opt clicontext)));
  out ← (fun st =>
           let (os', out) :=
             resolveExporterOutput (flag_exporter clicontext)
               (default EmptyString (attrs !! "output")) (os st) in
           ({| os := os'; log := log st |}, Ok out));
  match out_err out with
  | Some err => fail (Wrap err "invalid exporter-opt: output")
  | None =>
      if negb (isNil (out_w out)) || negb (isEmpty (out_dir out))
      then mret (delete "output" attrs, out_w out, out_dir out)
      else mret (attrs, out_w out, out_dir out)
  end.

(** Lines 215-231: the definition read from standard input when there is no
    frontend; the value is [def] and [FrontendAttrs].  [fi, _ :=
    os.Stdin.Stat()] drops the error, and [fi.Mode()] on the nil [fi] of a
    failed [Stat] panics. *)
Definition build_definition (clicontext : CliContext)
    (frontendAttrs : gmap string string)
    : M (option Definition_ * gmap string string) :=
  if isEmpty (flag_frontend clicontext) then
    fi ← (fun st =>
            (st, match File_Stat os_Stdin (os st) with
                 | inr fi => Ok fi
                 | inl _ => Panic NilDereference
                 end));
    if ModeCharDevice fi then
      fail (Errorf "please specify --frontend or pipe LLB definition to stdin" [])
    else
      def ← read os_Stdin clicontext;
      if (length (Def def) =? 0)%nat then
        fail (Errorf "empty definition sent to build. Specify --frontend instead?" [])
      else mret (Some def, frontendAttrs)
  else
    if flag_no_cache clicontext
    then mret (None, <["no-cache" := EmptyString]> frontendAttrs)
    else mret (None, frontendAttrs).

(** What [build] has made when it starts its goroutines: the client, the
    trace file if there is one, and the two arguments [def] and [solveOpt]
    of [c.Solve]. *)
Record Prepared : Type := {
  p_client : Client;
  p_traceFile : option File;
  p_def : option Definition_;
  p_solveOpt : SolveOpt
}.

(** Lines 143-231. *)
Definition build_request (clicontext : CliContext) (c : Client)
    (traceFile : option File) : M Prepared :=
  attachable ← build_session clicontext;
  allowed ← pure (parseEntitlements (flag_allow clicontext));
  cacheExports ← logging (parseExportCache (flag_export_cache clicontext)
                            (flag_export_cache_opt clicontext));
  cacheImports ← logging (parseImportCache (flag_import_cache clicontext));
  exp ← build_exporter clicontext;
  frontendAttrs ← wrapped "invalid frontend-opt"
                    (pure (attrMap (flag_frontend_opt clicontext)));
  localDirs ← wrapped "invalid local" (pure (attrMap (flag_local clicontext)));
  d ← build_definition clicontext frontendAttrs;
  mret {| p_client := c;
          p_traceFile := traceFile;
          p_def := d.1;
          p_solveOpt :=
            {| Exporter := flag_exporter clicontext;
               ExporterAttrs := exp.1.1;
               ExporterOutput := exp.1.2;
               ExporterOutputDir := exp.2;
               LocalDirs := localDirs;
               Frontend := flag_frontend clicontext;
               FrontendAttrs := d.2;
               CacheExports := cacheExports;
               CacheImports := cacheImports;
               Session := attachable;
               AllowedEntitlements := allowed |} |}.

(** [build], lines 125-231: everything before the goroutines.  An error or
    a panic on the way ends [build] (and closes the trace file, if it was
    opened); the goroutines that follow are not part of this function. *)
Definition build_setup (clicontext : CliContext) : M Prepared :=
  c ← sys (resolveClient clicontext);
  traceFile ← openTraceFile clicontext;
  match traceFile with
  | Some f =>
      deferClose f
        (logrus (Infof "tracing logs to %s" [Name f]);;
         build_request clicontext c traceFile)
  | None => build_request clicontext c traceFile
  end.

(** ** The goroutine between [ch] and [displayCh] (lines 247-256) *)

(** What is done on [displayCh]. *)
Inductive chanOp : Type :=
| Send (s : SolveStatus)
| Close.

(** The goroutine and its two channels: the statuses still to come on
    [ch] (which is closed after them), the status received and not yet
    sent on, what was done on [displayCh] so far, the state of the run, and
    the value returned when the goroutine is over. *)
Record Forwarder : Type := {
  inbound : list SolveStatus;
  held : option SolveStatus;
  displayCh : list chanOp;
  run : State;
  returned : option (option error)
}.

Definition startForwarder (statuses : list SolveStatus) (st : State)
    : Forwarder :=
  {| inbound := statuses; held := None; displayCh := []; run := st;
     returned := None |}.

(** One step of the goroutine.  With a status in hand: [displayCh <- s]
    (the step is taken when the display receives it).  With none: the next
    status of [ch] is received and encoded, an error of the encoder is
    logged; or, [ch] being closed and empty, the loop ends, the function
    returns nil and the deferred [close(displayCh)] runs. *)
Definition forward_step (traceFile : File) (f : Forwarder) : option Forwarder :=
  match returned f with
  | Some _ => None
  | None =>
      match held f with
      | Some s =>
          Some {| inbound := inbound f; held := None;
                  displayCh := displayCh f ++ [Send s]; run := run f;
                  returned := None |}
      | None =>
          match inbound f with
          | s :: rest =>
              let (os', err) := Encode traceFile s (os (run f)) in
              Some {| inbound := rest; held := Some s;
                      displayCh := displayCh f;
                      run := {| os := os';
                                log := log (run f) ++
                                       match err with
                                       | Some e => [LogError e]
                                       | None => []
                                       end |};
                      returned := None |}
          | [] =>
              Some {| inbound := []; held := None;
                      displayCh := displayCh f ++ [Close]; run := run f;
                      returned := Some None |}
          end
      end
  end.

Fixpoint forward_run (fuel : nat) (traceFile : File) (f : Forwarder)
    : Forwarder :=
  match fuel with
  | O => f
  | S fuel' =>
      match forward_step traceFile f with
      | Some f' => forward_run fuel' traceFile f'
      | None => f
      end
  end.

(** The states the goroutine goes through. *)
Inductive reachable (traceFile : File) (f0 : Forwarder) : Forwarder -> Prop :=
| reachable_start : reachable traceFile f0 f0
| reachable_step f f' :
    reachable traceFile f0 f -> forward_step traceFile f = Some f' ->
    reachable traceFile f0 f'.

(** The state of the system and the errors logged when the statuses are
    encoded one after the other. *)
Fixpoint encodeAll (traceFile : File) (statuses : list SolveStatus) (o : OS)
    : OS * list log_entry :=
  match statuses with
  | [] => (o, [])
  | s :: rest =>
      let (o', err) := Encode traceFile s o in
      let (o'', errs) := encodeAll traceFile rest o' in
      (o'', match err with Some e => LogError e :: errs | None => errs end)
  end.

(** What holds in every state of the goroutine started on [statuses]. *)
Definition forwarding (traceFile : File) (statuses : list SolveStatus)
    (st0 : State) (f : Forwarder) : Prop :=
  exists sent,
    statuses = sent ++ option_list (held f) ++ inbound f /\
    displayCh f =
      map Send sent ++ match returned f with Some _ => [Close] | None => [] end /\
    (returned f = None \/
     returned f = Some None /\ inbound f = [] /\ held f = None) /\
    os (run f) =
      (encodeAll traceFile (sent ++ option_list (held f)) (os st0)).1 /\
    log (run f) =
      log st0 ++ (encodeAll traceFile (sent ++ option_list (held f)) (os st0)).2.

End Build.

(** ** A small system to run the functions on *)

(** Files by name ([true] for a directory), what standard input and
    standard output are, the definition that waits on standard input, and
    the lines written to the trace file. *)
Record SimOS : Type := {
  sim_files : gmap string bool;
  sim_stdin_tty : bool;
  sim_stdout_tty : bool;
  sim_stdin_def : list string;
  sim_trace : list string
}.

Definition errNotExist : error := External "no such file or directory".
Definition errIsDir : error := External "is a directory".
Definition errEncode : error := External "json: unsupported value".

Definition sim_Stat (name : string) (o : SimOS) : error + FileInfo :=
  match sim_files o !! name with
  | Some d => inr {| IsDir := d; ModeCharDevice := false |}
  | None => inl errNotExist
  end.

Definition sim_IsNotExist (e : error) : bool :=
  match e with
  | External what => String.eqb what "no such file or directory"
  | _ => false
  end.

Definition sim_open (name : string) (o : SimOS) : SimOS * (error + File) :=
  match sim_files o !! name with
  | Some true => (o, inl errIsDir)
  | _ =>
      if String.eqb name EmptyString then (o, inl errNotExist)
      else ({| sim_files := <[name := false]> (sim_files o);
               sim_stdin_tty := sim_stdin_tty o;
               sim_stdout_tty := sim_stdout_tty o;
               sim_stdin_def := sim_stdin_def o;
               sim_trace := sim_trace o |},
            inr {| Name := name; Fd := 3 |})
  end.

Definition sim_isConsole (f : File) (o : SimOS) : bool :=
  match Fd f with
  | 0 => sim_stdin_tty o
  | 1 => sim_stdout_tty o
  | _ => false
  end.

Definition sim_File_Stat (f : File) (o : SimOS) : error + FileInfo :=
  inr {| IsDir := false; ModeCharDevice := sim_isConsole f o |}.

(** The encoder refuses the empty status and writes any other one. *)
Definition sim_Encode (f : File) (s : string) (o : SimOS)
    : SimOS * option error :=
  if String.eqb s EmptyString then (o, Some errEncode)
  else ({| sim_files := sim_files o;
           sim_stdin_tty := sim_stdin_tty o;
           sim_stdout_tty := sim_stdout_tty o;
           sim_stdin_def := sim_stdin_def o;
           sim_trace := sim_trace o ++ [s] |}, None).

Definition simEnv : Env := {|
  ExporterLocal := "local";
  ExporterOCI := "oci";
  ExporterDocker := "docker";
  ExporterLocal_not_OCI := ltac:(discriminate);
  ExporterLocal_not_Docker := ltac:(discriminate);
  OS := SimOS;
  os_Stat := sim_Stat;
  os_IsNotExist := sim_IsNotExist;
  os_Create := sim_open;
  os_OpenFile_append := sim_open;
  File_Close := fun _ o => o;
  File_Stat := sim_File_Stat;
  isConsole := sim_isConsole;
  Client := unit;
  resolveClient := fun _ o => (o, inr tt);
  Attachable := string;
  NewDockerAuthProvider := "auth";
  NewSSHAgentProvider := fun _ o => (o, inr "ssh");
  SecretStore := list FileSource;
  NewFileStore := fun fs o => (o, inr fs);
  NewSecretProvider := fun _ => "secrets";
  Entitlement := string;
  entitlements_Parse := fun v => inr v;
  OpMetadata := bool;
  emptyOpMetadata := false;
  llb_ReadFrom := fun _ o => (o, inr (sim_stdin_def o, ∅));
  Op_Unmarshal := fun _ => None;
  digest_FromBytes := fun dt => dt;
  IgnoreCache := fun _ => true;
  SolveStatus := string;
  Encode := sim_Encode
|}.

(** A system with the directory [/out], a terminal on standard output and
    a pipe with one operation on standard input. *)
Definition simOS0 : SimOS := {|
  sim_files := {["/out" := true]};
  sim_stdin_tty := false;
  sim_stdout_tty := true;
  sim_stdin_def := ["op"];
  sim_trace := []
|}.

Definition simState0 : @State simEnv := @Build_State simEnv simOS0 [].

Definition noFlags : CliContext := {|
  flag_exporter := EmptyString;
  flag_exporter_opt := [];
  flag_progress := "auto";
  flag_trace := EmptyString;
  flag_local := [];
  flag_frontend := EmptyString;
  flag_frontend_opt := [];
  flag_no_cache := false;
  flag_export_cache := [];
  flag_export_cache_opt := [];
  flag_import_cache := [];
  flag_secret := [];
  flag_allow := [];
  flag_ssh := []
|}.

(** The same system with a terminal on standard input, and with an empty
    definition on the pipe. *)
Definition simStateTTY : @State simEnv :=
  @Build_State simEnv
    {| sim_files := sim_files simOS0; sim_stdin_tty := true;
       sim_stdout_tty := true; sim_stdin_def := []; sim_trace := [] |} [].

Definition simStateEmpty : @State simEnv :=
  @Build_State simEnv
    {| sim_files := sim_files simOS0; sim_stdin_tty := false;
       sim_stdout_tty := true; sim_stdin_def := []; sim_trace := [] |} [].

Definition withFrontend (frontend : string) (no_cache : bool) : CliContext := {|
  flag_exporter := EmptyString;
  flag_exporter_opt := [];
  flag_progress := "auto";
  flag_trace := EmptyString;
  flag_local := [];
  flag_frontend := frontend;
  flag_frontend_opt := ["target=final"];
  flag_no_cache := no_cache;
  flag_export_cache := [];
  flag_export_cache_opt := [];
  flag_import_cache := [];
  flag_secret := [];
  flag_allow := [];
  flag_ssh := []
|}.

Definition withExporter (exporter : string) (opts : list string) : CliContext := {|
  flag_exporter := exporter;
  flag_exporter_opt := opts;
  flag_progress := "auto";
  flag_trace := EmptyString;
  flag_local := [];
  flag_frontend := "dockerfile.v0";
  flag_frontend_opt := [];
  flag_no_cache := false;
  flag_export_cache := [];
  flag_export_cache_opt := [];
  flag_import_cache := [];
  flag_secret := [];
  flag_allow := [];
  flag_ssh := []
|}.

(** ** Writing option strings *)

(** The string [k=v]. *)
Definition keyValue (k v : string) : string := k +:+ String equals v.

Definition keyValuePair (p : string * string) : string := keyValue p.1 p.2.

Fixpoint noComma (t : string) : bool :=
  match t with
  | EmptyString => true
  | String c r => negb (Ascii.eqb c comma) && noComma r
  end.

(** Text that the CSV reader takes as one unquoted field. *)
Definition simple (t : string) : bool := plain t && noComma t.

(** [strings.Join(fields, ",")]. *)
Fixpoint Join_comma (fields : list string) : string :=
  match fields with
  | [] => EmptyString
  | [f] => f
  | f :: rest => f +:+ String comma (Join_comma rest)
  end.

(** One insertion for each pair, from left to right. *)
Definition insertAll (pairs : list (string * string)) (m : gmap string string)
    : gmap string string :=
  foldl (fun m p => <[p.1 := p.2]> m) m pairs.

(** The entry that a legacy import spec stands for. *)
Definition legacyImport (spec : string) : CacheOptionsEntry :=
  {| Type_ := "registry"; Attrs := {["ref" := spec]} |}.

(** What relates a spec of [--import-cache] to its entry. *)
Definition importOf {U : Unicode} (spec : string) (im : CacheOptionsEntry) : Prop :=
  if legacy spec then im = legacyImport spec
  else parseImportCacheCSV spec = Ok im.

(** What relates a spec of [--export-cache] to its entry, the companion
    list being [opts]. *)
Definition exportOf {U : Unicode} (opts : list string) (spec : string)
    (ex : CacheOptionsEntry) : Prop :=
  if legacy spec
  then exists attrs,
         attrMap opts = Ok attrs /\
         ex = {| Type_ := "registry";
                 Attrs := <["ref" := spec]> (defaultMode attrs) |}
  else opts = [] /\ parseExportCacheCSV spec = Ok ex.

(** One deprecation warning for each legacy spec. *)
Definition warnings (msg : string) (specs : list string) : list log_entry :=
  map (fun _ => Warnf msg) (List.filter legacy specs).

(** A companion option that can be moved into a structured spec as it is:
    free of quotes, line ends and commas, with a key that
    [strings.ToLower] leaves as it is and that is neither [type] nor
    [ref]. *)
Definition movable {U : Unicode} (opt : string) : Prop :=
  simple opt = true /\
  exists k v, cut equals opt = Some (k, v) /\
              ToLower k = k /\ k <> "type" /\ k <> "ref".

(** The structured spec that the deprecation warnings recommend in place
    of the legacy spec [ref] with the companion options [opts]:
    [type=registry,ref=<ref>,<opt>=<optval>,...]. *)
Definition structuredSpec (ref : string) (opts : list string) : string :=
  Join_comma ("type=registry" :: keyValue "ref" ref :: opts).

(** The key of a secret field as [parseSecret] reads it: folded, and with
    [source] standing for [src]. *)
Definition secretKey {U : Unicode} (k : string) : string :=
  if String.eqb (ToLower k) "source" then "src" else ToLower k.

(** A field that the loop of [parseSecret] accepts. *)
Definition secretField {U : Unicode} (field : string) : Prop :=
  exists k v,
    cut equals field = Some (k, v) /\
    (ToLower k = "type" /\ v = "file" \/ ToLower k = "id" \/
     ToLower k = "source" \/ ToLower k = "src").

(** What relates an SSH spec to its agent configuration. *)
Definition sshConfigOf (v : string) (cfg : AgentConfig) : Prop :=
  match cut equals v with
  | None => cfg = {| AgentID := v; Paths := [] |}
  | Some (k, rest) =>
      AgentID cfg = k /\ Paths cfg <> [] /\
      Forall (fun p => noComma p = true) (Paths cfg) /\
      Join_comma (Paths cfg) = rest
  end.

(** Flags with a trace file, an exporter and exporter options. *)
Definition withTrace (traceName exporter : string) (opts : list string)
    : CliContext := {|
  flag_exporter := exporter;
  flag_exporter_opt := opts;
  flag_progress := "auto";
  flag_trace := traceName;
  flag_local := [];
  flag_frontend := "dockerfile.v0";
  flag_frontend_opt := [];
  flag_no_cache := false;
  flag_export_cache := [];
  flag_export_cache_opt := [];
  flag_import_cache := [];
  flag_secret := [];
  flag_allow := [];
  flag_ssh := []
|}.

(** Flags for a run with a frontend, a trace file and session specs. *)
Definition withSession (traceName : string) (ssh secrets : list string)
    : CliContext := {|
  flag_exporter := "image";
  flag_exporter_opt := ["name=example.com/img"];
  flag_progress := "auto";
  flag_trace := traceName;
  flag_local := ["context=."];
  flag_frontend := "dockerfile.v0";
  flag_frontend_opt := [];
  flag_no_cache := false;
  flag_export_cache := ["example.com/cache"];
  flag_export_cache_opt := [];
  flag_import_cache := ["example.com/cache"];
  flag_secret := secrets;
  flag_allow := ["network.host"];
  flag_ssh := ssh
|}.

Section ExtraDefs.
Context {U : Unicode} {env : Env}.

(** A function that does not log, however it ends. *)
Definition silent {A} (m : M A) : Prop :=
  forall st st' r, m st = (st', r) -> log st' = log st.

(** What [build] logs before it starts its goroutines, when it gets there:
    the notice of the trace file, then the deprecation warnings of the
    export specs, then those of the import specs. *)
Definition setupLog (clicontext : CliContext) (traceFile : option File)
    : list log_entry :=
  match traceFile with
  | Some f => [Infof "tracing logs to %s" [Name f]]
  | None => []
  end ++
  warnings exportCacheDeprecated (flag_export_cache clicontext) ++
  warnings importCacheDeprecated (flag_import_cache clicontext).

End ExtraDefs.
(** ** Facts on the string functions *)

Lemma cut_append sep s a b :
  cut sep s = Some (a, b) -> s = a +:+ String sep b.
Proof.
  revert a b. induction s as [|c r IH]; intros a b; simpl; [discriminate|].
  destruct (Ascii.eqb_spec c sep) as [->|Hne].
  - intros [= <- <-]. reflexivity.
  - destruct (cut sep r) as [[a' b']|]; [|discriminate].
    intros [= <- <-]. change (String c r = String c (a' +:+ String sep b')).
    f_equal. now apply IH.
Qed.

Lemma SplitN_eq_2_cut field :
  SplitN_eq_2 field =
    match cut equals field with
    | Some (k, v) => [k; v]
    | None => [field]
    end.
Proof. reflexivity. Qed.

Lemma SplitN_eq_2_pair field k v :
  SplitN_eq_2 field = [k; v] <-> cut equals field = Some (k, v).
Proof.
  unfold SplitN_eq_2. destruct (cut equals field) as [[a b]|]; split;
    intros H; inversion H; reflexivity.
Qed.

(** On ASCII text [strings.ToLower] is the fold of the bytes, whatever the
    tables of [unicode] are; on other text it is what the tables give. *)
Lemma ToLower_ASCII {U : Unicode} s :
  isASCII s = true -> ToLower s = lowerASCII s.
Proof. unfold ToLower. now intros ->. Qed.

Lemma ToLower_not_ASCII {U : Unicode} s :
  isASCII s = false -> ToLower s = unicode_ToLower s.
Proof. unfold ToLower. now intros ->. Qed.

(** ** Facts on the loops over the fields *)

Lemma cacheField_pair {U : Unicode} ex field k v :
  cut equals field = Some (k, v) ->
  cacheField ex field =
    Ok (if String.eqb (ToLower k) "type"
        then {| Type_ := v; Attrs := Attrs ex |}
        else {| Type_ := Type_ ex; Attrs := <[ToLower k := v]> (Attrs ex) |}).
Proof.
  intros H. unfold cacheField, SplitN_eq_2. rewrite H. simpl.
  now destruct (String.eqb (ToLower k) "type").
Qed.

Lemma cacheField_no_equals {U : Unicode} ex field :
  cut equals field = None ->
  cacheField ex field = Panic (IndexOutOfRange 1 1).
Proof. intros H. unfold cacheField, SplitN_eq_2. now rewrite H. Qed.

Lemma cacheFields_app {U : Unicode} pre post ex :
  cacheFields (pre ++ post) ex = (ex' ← cacheFields pre ex; cacheFields post ex').
Proof.
  revert ex. induction pre as [|f pre IH]; intros ex; simpl; [reflexivity|].
  destruct (cacheField ex f) as [ex'| |]; simpl; auto.
Qed.

(** A field without ['='] anywhere in the record makes the loop panic:
    the fields before it either panic too or are consumed. *)
Lemma cacheFields_no_equals {U : Unicode} fields ex :
  Exists (fun field => cut equals field = None) fields ->
  cacheFields fields ex = Panic (IndexOutOfRange 1 1).
Proof.
  revert ex. induction fields as [|f fields IH]; intros ex Hex.
  - inversion Hex.
  - simpl. destruct (cut equals f) as [[k v]|] eqn:Hf.
    + rewrite (cacheField_pair _ _ _ _ Hf). simpl. apply IH.
      inversion Hex as [? ? H0|]; subst; [congruence|assumption].
    + now rewrite (cacheField_no_equals _ _ Hf).
Qed.

Lemma parseCacheCSV_no_equals {U : Unicode} s fields :
  csv_Read s = Ok fields ->
  Exists (fun field => cut equals field = None) fields ->
  parseExportCacheCSV s = Panic (IndexOutOfRange 1 1) /\
  parseImportCacheCSV s = Panic (IndexOutOfRange 1 1).
Proof.
  intros Hs Hex. unfold parseExportCacheCSV, parseImportCacheCSV.
  rewrite Hs. simpl. now rewrite (cacheFields_no_equals _ _ Hex).
Qed.

Lemma parseSecret_field_no_equals {U : Unicode} fs field :
  cut equals field = None ->
  parseSecret_field fs field =
    Err (Errorf "invalid field '%s' must be a key=value pair" [field]).
Proof. intros H. unfold parseSecret_field, SplitN_eq_2. now rewrite H. Qed.


Lemma lastValue_app fold key pre post :
  lastValue fold key (pre ++ post) =
    match lastValue fold key post with
    | Some v => Some v
    | None => lastValue fold key pre
    end.
Proof.
  induction pre as [|f pre IH]; simpl.
  - now destruct (lastValue fold key post).
  - rewrite IH. now destruct (lastValue fold key post).
Qed.

Lemma lastValue_none fold key fields :
  lastValue fold key fields = None <->
  forall field k v, field ∈ fields -> cut equals field = Some (k, v) ->
                    fold k <> key.
Proof.
  induction fields as [|f fields IH]; simpl.
  - split; [intros _ ? ? ? H; inversion H|reflexivity].
  - destruct (lastValue fold key fields) as [w|] eqn:Hl.
    + split; [discriminate|]. intros H. exfalso.
      assert (Some w = None) as Hw; [|discriminate].
      apply IH. intros field k v Hin. apply H. now right.
    + destruct IH as [IH _]. specialize (IH eq_refl).
      destruct (cut equals f) as [[k v]|] eqn:Hf.
      * destruct (String.eqb_spec (fold k) key) as [He|Hne].
        -- split; [discriminate|]. intros H. exfalso.
           apply (H f k v); [now left|assumption|assumption].
        -- split; [|reflexivity]. intros _ field k' v' Hin Hc.
           apply elem_of_cons in Hin as [->|Hin]; [congruence|eauto].
      * split; [|reflexivity]. intros _ field k' v' Hin Hc.
        apply elem_of_cons in Hin as [->|Hin]; [congruence|eauto].
Qed.

(** The field that gives the value: nothing after it has the key. *)
Lemma lastValue_last fold key pre field post k v :
  cut equals field = Some (k, v) -> fold k = key ->
  lastValue fold key post = None ->
  lastValue fold key (pre ++ field :: post) = Some v.
Proof.
  intros Hf Hk Hpost. rewrite lastValue_app. simpl. rewrite Hpost, Hf.
  now rewrite (proj2 (String.eqb_eq _ _) Hk).
Qed.

(** What the loop of the two CSV parsers computes, when it returns. *)
Lemma cacheFields_Ok {U : Unicode} fields ex ex' :
  cacheFields fields ex = Ok ex' ->
  Forall hasEquals fields /\
  Type_ ex' = default (Type_ ex) (lastValue ToLower "type" fields) /\
  forall key,
    Attrs ex' !! key =
      if String.eqb key "type" then Attrs ex !! key
      else match lastValue ToLower key fields with
           | Some v => Some v
           | None => Attrs ex !! key
           end.
Proof.
  revert ex. induction fields as [|f fields IH]; intros ex; simpl.
  - intros [= <-]. split; [constructor|]. split; [reflexivity|].
    intros key. now destruct (String.eqb key "type").
  - destruct (cut equals f) as [[k v]|] eqn:Hf.
    2:{ now rewrite (cacheField_no_equals _ _ Hf). }
    rewrite (cacheField_pair _ _ _ _ Hf). simpl. intros H.
    apply IH in H as (Hall & Hty & Hat). split.
    { constructor; [unfold hasEquals; congruence|assumption]. }
    split.
    + rewrite Hty. destruct (lastValue ToLower "type" fields); [reflexivity|].
      now destruct (String.eqb (ToLower k) "type").
    + intros key. rewrite Hat.
      destruct (String.eqb_spec key "type") as [->|Hkey].
      * destruct (String.eqb_spec (ToLower k) "type") as [He|Hne];
          [reflexivity|]. simpl. now rewrite lookup_insert_ne.
      * destruct (lastValue ToLower key fields); [reflexivity|].
        destruct (String.eqb_spec (ToLower k) key) as [He|Hne].
        -- subst key. rewrite (proj2 (String.eqb_neq _ _) Hkey). simpl.
           now rewrite lookup_insert_eq.
        -- destruct (String.eqb (ToLower k) "type"); [reflexivity|].
           simpl. now rewrite lookup_insert_ne.
Qed.

(** The loop returns on every record whose fields all have an ['=']. *)
Lemma cacheFields_total {U : Unicode} fields ex :
  Forall hasEquals fields -> exists ex', cacheFields fields ex = Ok ex'.
Proof.
  intros Hall. revert ex. induction Hall as [|f fields Hf _ IH]; intros ex.
  - now exists ex.
  - simpl. unfold hasEquals in Hf.
    destruct (cut equals f) as [[k v]|] eqn:Hc; [|congruence].
    rewrite (cacheField_pair _ _ _ _ Hc). simpl. apply IH.
Qed.

Lemma attrMap_step_pair m v k x :
  cut equals v = Some (k, x) -> attrMap_step m v = Ok (<[k := x]> m).
Proof. intros H. unfold attrMap_step, SplitN_eq_2. now rewrite H. Qed.

Lemma attrMap_step_no_equals m v :
  cut equals v = None -> attrMap_step m v = Err (Errorf "invalid value %s" [v]).
Proof. intros H. unfold attrMap_step, SplitN_eq_2. now rewrite H. Qed.

Lemma attrMap_loop_Ok sl m m' :
  attrMap_loop sl m = Ok m' ->
  Forall hasEquals sl /\
  forall key, m' !! key = match lastValue id key sl with
                          | Some v => Some v
                          | None => m !! key
                          end.
Proof.
  revert m. induction sl as [|v sl IH]; intros m; simpl.
  - intros [= <-]. split; [constructor|reflexivity].
  - destruct (cut equals v) as [[k x]|] eqn:Hv.
    2:{ now rewrite (attrMap_step_no_equals _ _ Hv). }
    rewrite (attrMap_step_pair _ _ _ _ Hv). simpl. intros H.
    apply IH in H as [Hall Hat]. split.
    { constructor; [unfold hasEquals; congruence|assumption]. }
    intros key. rewrite Hat. destruct (lastValue id key sl); [reflexivity|].
    unfold id. destruct (String.eqb_spec k key) as [->|Hne].
    + now rewrite lookup_insert_eq.
    + now rewrite lookup_insert_ne.
Qed.

Lemma attrMap_loop_total sl m :
  Forall hasEquals sl -> exists m', attrMap_loop sl m = Ok m'.
Proof.
  intros Hall. revert m. induction Hall as [|v sl Hv _ IH]; intros m.
  - now exists m.
  - simpl. unfold hasEquals in Hv.
    destruct (cut equals v) as [[k x]|] eqn:Hc; [|congruence].
    rewrite (attrMap_step_pair _ _ _ _ Hc). simpl. apply IH.
Qed.

(** [attrMap] returns a map exactly on lists of [key=value] strings, and the
    map holds, for each key, the value of its last occurrence. *)
Lemma attrMap_Ok sl m :
  attrMap sl = Ok m ->
  Forall hasEquals sl /\ forall key, m !! key = lastValue id key sl.
Proof.
  intros H. apply attrMap_loop_Ok in H as [Hall Hat]. split; [assumption|].
  intros key. rewrite Hat, lookup_empty. now destruct (lastValue id key sl).
Qed.

Lemma attrMap_total sl :
  Forall hasEquals sl -> exists m, attrMap sl = Ok m.
Proof. apply attrMap_loop_total. Qed.

Lemma defaultMode_lookup attrs key :
  defaultMode attrs !! key =
    if String.eqb key "mode" then Some (default "min" (attrs !! "mode"))
    else attrs !! key.
Proof.
  unfold defaultMode. destruct (String.eqb_spec key "mode") as [->|Hne].
  - destruct (attrs !! "mode") eqn:Hm; simpl; [assumption|].
    now rewrite lookup_insert_eq.
  - destruct (attrs !! "mode"); [reflexivity|]. now rewrite lookup_insert_ne.
Qed.


(** ** The bytes of a field are bytes of the option string *)

Lemma prefix_nil s : String.prefix EmptyString s = true.
Proof. now destruct s. Qed.

Lemma prefix_cons c t d s :
  String.prefix (String c t) (String d s) = true <->
  c = d /\ String.prefix t s = true.
Proof.
  simpl. destruct (ascii_dec c d) as [->|Hne].
  - split; [intros H; now split|now intros [_ H]].
  - split; [discriminate|intros [H _]; contradiction].
Qed.

Lemma Contains_nil s : Contains s EmptyString = true.
Proof. destruct s; reflexivity. Qed.

Lemma Contains_cons c s t :
  Contains (String c s) t = String.prefix t (String c s) || Contains s t.
Proof. reflexivity. Qed.

Lemma Contains_tail c s t : Contains s t = true -> Contains (String c s) t = true.
Proof. intros H. rewrite Contains_cons, H. apply orb_true_r. Qed.

Lemma Contains_empty t : Contains EmptyString t = true -> t = EmptyString.
Proof. destruct t; [reflexivity|discriminate]. Qed.

Lemma Contains_prefix s t : String.prefix t s = true -> Contains s t = true.
Proof.
  intros H. destruct s as [|c s].
  - destruct t; [reflexivity|discriminate].
  - now rewrite Contains_cons, H.
Qed.

Lemma plain_cons c t :
  plain (String c t) = true -> c <> quote /\ c <> CR /\ c <> LF /\ plain t = true.
Proof.
  simpl. intros H.
  apply andb_true_iff in H as [H Ht]. apply andb_true_iff in H as [H H3].
  apply andb_true_iff in H as [H1 H2].
  apply negb_true_iff, Ascii.eqb_neq in H1, H2, H3. auto.
Qed.

Lemma csv_map_Ok g r fields :
  csv_map g r = Ok fields -> exists fields', r = Ok fields' /\ fields = g fields'.
Proof.
  unfold csv_map. destruct r as [fields'| |]; simpl; try discriminate.
  intros [= <-]. now exists fields'.
Qed.

Lemma push_cons c fields f fs :
  push c fields = f :: fs ->
  exists g, f = String c g /\ (fields = g :: fs \/ fields = [] /\ g = EmptyString /\ fs = []).
Proof.
  destruct fields as [|g gs]; simpl; intros [= <- <-].
  - exists EmptyString. auto.
  - exists g. auto.
Qed.

(** The reader never returns a record without fields. *)
Lemma readRecord_not_nil st s : readRecord st s <> Ok [].
Proof.
  revert st. induction s as [|c s IH]; intros st.
  - destruct st; discriminate.
  - destruct st; simpl;
      repeat match goal with
             | |- context [if ?b then _ else _] => destruct b
             end;
      try discriminate; try apply IH;
      intros H; apply csv_map_Ok in H as (l & Hl & Heq);
      try discriminate Heq;
      destruct l; try discriminate Heq; now apply IH in Hl.
Qed.

(** Inside a field, a plain prefix of what is left of the field is a prefix
    of what is left of the input. *)
Lemma readRecord_prefix st s f fs t :
  st = Unquoted \/ st = Quoted ->
  readRecord st s = Ok (f :: fs) ->
  plain t = true -> String.prefix t f = true -> String.prefix t s = true.
Proof.
  intros Hst Hr Hpl. revert s f fs Hr.
  induction t as [|c t IH]; intros s f fs Hr Hp; [apply prefix_nil|].
  apply plain_cons in Hpl as (Hq & Hcr & Hlf & Hpl).
  destruct f as [|d f]; [discriminate Hp|].
  apply prefix_cons in Hp as [<- Hp].
  destruct s as [|e s].
  { destruct Hst as [-> | ->]; simpl in Hr; discriminate Hr. }
  assert (forall st', st' = st -> readRecord st' s = Ok (f :: fs) ->
                      String.prefix t s = true) as Hrec.
  { intros st' -> Hs. exact (IH Hpl s f fs Hs Hp). }
  assert (csv_map (push e) (readRecord st s) = Ok (String c f :: fs) ->
          String.prefix (String c t) (String e s) = true) as Hpush.
  { intros H. apply csv_map_Ok in H as (l & Hl & Heq). symmetry in Heq.
    apply push_cons in Heq as (g & [= -> ->] & [-> | (-> & _)]).
    - apply prefix_cons. split; [reflexivity|]. now apply (Hrec st).
    - now apply readRecord_not_nil in Hl. }
  destruct Hst as [-> | ->]; simpl in Hr.
  - destruct (Ascii.eqb e quote); [discriminate Hr|].
    destruct (Ascii.eqb e comma).
    { apply csv_map_Ok in Hr as (l & _ & Heq). discriminate Heq. }
    destruct (Ascii.eqb e LF); [discriminate Hr|].
    now apply Hpush.
  - revert Hr. destruct (Ascii.eqb_spec e quote) as [->|Hne]; intros Hr;
      cbv iota in Hr; [|now apply Hpush].
    destruct s as [|e' s]; simpl in Hr; [discriminate Hr|].
    destruct (Ascii.eqb e' quote).
    { apply csv_map_Ok in Hr as (l & _ & Heq). symmetry in Heq.
      apply push_cons in Heq as (g & [= Hc _] & _). congruence. }
    destruct (Ascii.eqb e' comma).
    { apply csv_map_Ok in Hr as (l & _ & Heq). discriminate Heq. }
    destruct (Ascii.eqb e' LF); discriminate Hr.
Qed.

Lemma Contains_String c g t :
  Contains (String c g) t = true ->
  Contains g t = true \/
  exists t', t = String c t' /\ String.prefix t' g = true.
Proof.
  rewrite Contains_cons. intros H. apply orb_true_iff in H as [H|H]; [|now left].
  destruct t as [|d t']; [left; apply Contains_nil|].
  apply prefix_cons in H as [-> H]. right. now exists t'.
Qed.

(** One more byte in front of the field under the cursor. *)
Lemma Contains_push c st r l f t :
  st = Unquoted \/ st = Quoted ->
  readRecord st r = Ok l ->
  (forall g, g ∈ l -> Contains g t = true -> Contains r t = true) ->
  plain t = true ->
  f ∈ push c l -> Contains f t = true ->
  Contains (String c r) t = true.
Proof.
  intros Hst Hr IH Hpl Hf Ht. destruct l as [|g gs].
  { now apply readRecord_not_nil in Hr. }
  simpl in Hf. apply elem_of_cons in Hf as [-> | Hf].
  - apply Contains_String in Ht as [Ht | (t' & -> & Ht)].
    + apply Contains_tail, (IH g); [now left|assumption].
    + apply Contains_prefix, prefix_cons. split; [reflexivity|].
      apply plain_cons in Hpl as (_ & _ & _ & Hpl).
      exact (readRecord_prefix st r g gs t' Hst Hr Hpl Ht).
  - apply Contains_tail, (IH f); [now right|assumption].
Qed.

(** Plain bytes of a field stand, next to each other, in what was read. *)
Lemma readRecord_Contains s : forall st fields f t,
  readRecord st s = Ok fields -> f ∈ fields ->
  plain t = true -> Contains f t = true -> Contains s t = true.
Proof.
  induction s as [|c r IH]; intros st fields f t Hr Hf Hpl Ht.
  - destruct st; simpl in Hr; try discriminate Hr;
      injection Hr as <-; apply list_elem_of_singleton in Hf as ->;
      exact Ht.
  - assert (Ok [EmptyString] = Ok fields -> Contains (String c r) t = true)
      as Hend.
    { intros [= <-]. apply list_elem_of_singleton in Hf as ->.
      apply Contains_empty in Ht as ->. apply Contains_nil. }
    assert (forall st', readRecord st' r = Ok fields ->
                        Contains (String c r) t = true) as Hskip.
    { intros st' H. apply Contains_tail. exact (IH st' fields f t H Hf Hpl Ht). }
    assert (csv_map (cons EmptyString) (readRecord FieldStart r) = Ok fields ->
            Contains (String c r) t = true) as Hcomma.
    { intros H. apply csv_map_Ok in H as (l & Hl & ->).
      apply elem_of_cons in Hf as [-> | Hf].
      - apply Contains_empty in Ht as ->. apply Contains_nil.
      - apply Contains_tail. exact (IH FieldStart l f t Hl Hf Hpl Ht). }
    assert (forall st', st' = Unquoted \/ st' = Quoted ->
              csv_map (push c) (readRecord st' r) = Ok fields ->
              Contains (String c r) t = true) as Hpush.
    { intros st' Hst' H. apply csv_map_Ok in H as (l & Hl & ->).
      apply (Contains_push c st' r l f t Hst' Hl); try assumption.
      intros g Hg Hgt. exact (IH st' l g t Hl Hg Hpl Hgt). }
    destruct st; simpl in Hr.
    + destruct (Ascii.eqb c quote); [now apply (Hskip Quoted)|].
      destruct (Ascii.eqb c comma); [now apply Hcomma|].
      destruct (Ascii.eqb c LF); [now apply Hend|].
      apply (Hpush Unquoted); auto.
    + destruct (Ascii.eqb c quote); [discriminate Hr|].
      destruct (Ascii.eqb c comma); [now apply Hcomma|].
      destruct (Ascii.eqb c LF); [now apply Hend|].
      apply (Hpush Unquoted); auto.
    + destruct (Ascii.eqb c quote); [now apply (Hskip AfterQuote)|].
      apply (Hpush Quoted); auto.
    + revert Hr. destruct (Ascii.eqb_spec c quote) as [->|Hne]; intros Hr.
      { apply (Hpush Quoted); auto. }
      destruct (Ascii.eqb c comma); [now apply Hcomma|].
      destruct (Ascii.eqb c LF); [now apply Hend|discriminate Hr].
Qed.

Lemma skipEmptyLines_Contains s t :
  Contains (skipEmptyLines s) t = true -> Contains s t = true.
Proof.
  induction s as [|c r IH]; simpl; [auto|].
  destruct (Ascii.eqb c LF); [|auto].
  intros H. apply IH in H. rewrite H. apply orb_true_r.
Qed.

Lemma normalizeNL_prefix t : forall s,
  plain t = true ->
  String.prefix t (normalizeNL s) = true -> String.prefix t s = true.
Proof.
  induction t as [|d t IH]; intros s Hpl Hp; [apply prefix_nil|].
  apply plain_cons in Hpl as (Hq & Hcr & Hlf & Hpl).
  destruct s as [|c r]; [discriminate Hp|]. simpl in Hp. revert Hp.
  destruct (Ascii.eqb_spec c CR) as [->|Hc].
  - destruct r as [|c' r']; [discriminate|].
    destruct (Ascii.eqb_spec c' LF) as [->|Hc']; intros Hp;
      apply prefix_cons in Hp as [Hd _]; congruence.
  - intros Hp. apply prefix_cons in Hp as [-> Hp].
    apply prefix_cons. split; [reflexivity|]. now apply IH.
Qed.

Lemma normalizeNL_Contains_bounded t n : forall s,
  String.length s <= n -> plain t = true ->
  Contains (normalizeNL s) t = true -> Contains s t = true.
Proof.
  destruct t as [|d t]; [intros; apply Contains_nil|].
  induction n as [n IH] using lt_wf_ind. intros s Hlen Hpl.
  destruct s as [|c r]; [auto|].
  assert (Contains (normalizeNL r) (String d t) = true ->
          Contains (String c r) (String d t) = true) as Hr.
  { intros H. apply Contains_tail.
    apply (IH (String.length r)); simpl in *; auto; lia. }
  assert (String.prefix (String d t) (String c (normalizeNL r)) = true ->
          Contains (String c r) (String d t) = true) as Hhead.
  { intros H. apply Contains_prefix.
    apply prefix_cons in H as [-> H]. apply prefix_cons.
    split; [reflexivity|].
    apply plain_cons in Hpl as (_ & _ & _ & Hpl).
    now apply normalizeNL_prefix. }
  simpl normalizeNL. destruct (Ascii.eqb_spec c CR) as [->|Hc].
  - destruct r as [|c' r']; [discriminate|].
    destruct (Ascii.eqb_spec c' LF) as [->|Hc'].
    + rewrite Contains_cons. intros H.
      apply orb_true_iff in H as [H|H].
      * apply prefix_cons in H as [-> _].
        apply plain_cons in Hpl as (_ & _ & Hlf & _). congruence.
      * apply Contains_tail, Contains_tail.
        apply (IH (String.length r')); simpl in *; auto; lia.
    + rewrite Contains_cons. intros H.
      apply orb_true_iff in H as [H|H]; [now apply Hhead|now apply Hr].
  - rewrite Contains_cons. intros H.
    apply orb_true_iff in H as [H|H]; [now apply Hhead|now apply Hr].
Qed.

Lemma normalizeNL_Contains s t :
  plain t = true -> Contains (normalizeNL s) t = true -> Contains s t = true.
Proof. now apply (normalizeNL_Contains_bounded t (String.length s)). Qed.

(** Plain bytes that stand next to each other in a field of the record
    stand next to each other in the string the record was read from. *)
Lemma csv_Read_Contains s fields f t :
  csv_Read s = Ok fields -> f ∈ fields ->
  plain t = true -> Contains f t = true -> Contains s t = true.
Proof.
  unfold csv_Read. intros Hr Hf Hpl Ht.
  apply normalizeNL_Contains, skipEmptyLines_Contains; [assumption|].
  destruct (skipEmptyLines (normalizeNL s)) as [|c n] eqn:Hn;
    [discriminate Hr|].
  exact (readRecord_Contains _ _ _ _ _ Hr Hf Hpl Ht).
Qed.

(** A spec with a field whose key is written [type] is not a legacy spec. *)
Lemma type_key_not_legacy s fields f v :
  csv_Read s = Ok fields -> f ∈ fields ->
  cut equals f = Some ("type", v) -> legacy s = false.
Proof.
  intros Hr Hf Hc. unfold legacy.
  rewrite (csv_Read_Contains s fields f "type=" Hr Hf); [reflexivity..|].
  apply cut_append in Hc as ->. apply Contains_prefix.
  change ("type" +:+ String equals v)
    with (String "t" (String "y" (String "p" (String "e" (String equals v))))).
  repeat (apply prefix_cons; split; [reflexivity|]). apply prefix_nil.
Qed.

(** ** The claims on the option parsers *)

(** C1 (defect of the code).  A field without ['='] must make the cache
    option parsers return an error.  On ["type=registry,foo"] the field
    ["foo"] makes [parseExportCacheCSV] and [parseImportCacheCSV] panic on
    [parts[1]] (index 1 of a slice of length 1), and the panic goes through
    [parseExportCache] and [parseImportCache]; [parseSecret], which looks at
    [len(parts)] first, returns its error. *)
Theorem cache_field_without_equals_panics {U : Unicode} :
  csv_Read "type=registry,foo" = Ok ["type=registry"; "foo"] /\
  parseExportCacheCSV "type=registry,foo" = Panic (IndexOutOfRange 1 1) /\
  parseImportCacheCSV "type=registry,foo" = Panic (IndexOutOfRange 1 1) /\
  parseExportCache ["type=registry,foo"] [] = ([], Panic (IndexOutOfRange 1 1)) /\
  parseImportCache ["type=registry,foo"] = ([], Panic (IndexOutOfRange 1 1)) /\
  parseSecret "id=x,foo" =
    Err (Errorf "invalid field '%s' must be a key=value pair" ["foo"]).
Proof. repeat split; vm_compute; reflexivity. Qed.

(** The specs ["kind=local"] and ["TYPE=local"] are ASCII text, on which
    [strings.ToLower] does not consult the tables of [unicode]: what
    follows holds for every value of the tables. *)
Lemma kind_and_upper_type_are_legacy {U : Unicode} :
  csv_Read "kind=local" = Ok ["kind=local"] /\
  cut equals "kind=local" = Some ("kind", "local") /\
  ToLower "kind" = "kind" /\
  legacy "kind=local" = true /\
  parseExportCacheCSV "kind=local" = Err (New "--export-cache requires type=<type>") /\
  parseExportCache ["kind=local"] [] =
    ([Warnf exportCacheDeprecated],
     Ok [{| Type_ := "registry";
            Attrs := <["ref" := "kind=local"]> (<["mode" := "min"]> ∅) |}]) /\
  "registry" <> "local" /\
  cut equals "TYPE=local" = Some ("TYPE", "local") /\
  ToLower "TYPE" = "type" /\
  legacy "TYPE=local" = true /\
  parseExportCache ["TYPE=local"] [] =
    ([Warnf exportCacheDeprecated],
     Ok [{| Type_ := "registry";
            Attrs := <["ref" := "TYPE=local"]> (<["mode" := "min"]> ∅) |}]).
Proof. repeat split; try (vm_compute; reflexivity). discriminate. Qed.

(** C2, as stated, fails.  The key [kind] is not the record's kind: the
    spec ["kind=local"] has no ["type="], is parsed in legacy mode and gets
    the kind ["registry"]; read as a structured spec it is refused.  And
    the test for structured mode is on the bytes ["type="]: the spec
    ["TYPE=local"], whose folded key is [type], is parsed in legacy mode. *)
Lemma kind_key_counterexample :
  csv_Read "kind=local" = Ok ["kind=local"] /\
  cut equals "kind=local" = Some ("kind", "local") /\
  ToLower "kind" = "kind" /\
  legacy "kind=local" = true /\
  parseExportCacheCSV "kind=local" = Err (New "--export-cache requires type=<type>") /\
  parseExportCache ["kind=local"] [] =
    ([Warnf exportCacheDeprecated],
     Ok [{| Type_ := "registry";
            Attrs := <["ref" := "kind=local"]> (<["mode" := "min"]> ∅) |}]) /\
  "registry" <> "local" /\
  cut equals "TYPE=local" = Some ("TYPE", "local") /\
  ToLower "TYPE" = "type" /\
  legacy "TYPE=local" = true /\
  parseExportCache ["TYPE=local"] [] =
    ([Warnf exportCacheDeprecated],
     Ok [{| Type_ := "registry";
            Attrs := <["ref" := "TYPE=local"]> (<["mode" := "min"]> ∅) |}]).
Proof. repeat split; try (vm_compute; reflexivity). discriminate. Qed.

(** C2, amended.  In a spec whose fields all have an ['='], let [field] be
    the last field whose folded key is [type], with a value that is not
    empty.  If its key is written [type], in lower case, or if the spec
    holds the bytes ["type="] somewhere, the spec is parsed in structured
    mode and the kind of the record is the value of [field], whatever
    stands before it and whatever other keys follow it. *)
Theorem parseExportCache_type_field {U : Unicode} (s : string) (pre post : list string)
    (field k v : string) :
  csv_Read s = Ok (pre ++ field :: post) ->
  Forall hasEquals (pre ++ post) ->
  cut equals field = Some (k, v) ->
  ToLower k = "type" ->
  k = "type" \/ Contains s "type=" = true ->
  v <> EmptyString ->
  (forall g k' v', g ∈ post -> cut equals g = Some (k', v') ->
                   ToLower k' <> "type") ->
  legacy s = false /\
  exists attrs,
    parseExportCacheCSV s = Ok {| Type_ := v; Attrs := attrs |} /\
    parseExportCache [s] [] = ([], Ok [{| Type_ := v; Attrs := attrs |}]).
Proof.
  intros Hs Hall Hf Hk Hc Hv Hpost.
  assert (legacy s = false) as Hleg.
  { destruct Hc as [-> | Hc].
    - apply (type_key_not_legacy s _ field v Hs); [|assumption].
      apply elem_of_app. right. now left.
    - unfold legacy. now rewrite Hc. }
  split; [assumption|].
  assert (Forall hasEquals (pre ++ field :: post)) as Hall'.
  { apply Forall_app in Hall as [Hpre Hpo]. apply Forall_app. split; [assumption|].
    constructor; [unfold hasEquals; congruence|assumption]. }
  destruct (cacheFields_total _ emptyEntry Hall') as [ex Hex].
  destruct (cacheFields_Ok _ _ _ Hex) as (_ & Hty & _).
  rewrite (lastValue_last ToLower "type" pre field post k v Hf Hk) in Hty
    by now apply lastValue_none.
  simpl in Hty.
  assert (parseExportCacheCSV s =
          Ok {| Type_ := v; Attrs := defaultMode (Attrs ex) |}) as Hcsv.
  { unfold parseExportCacheCSV. rewrite Hs. simpl. rewrite Hex. simpl.
    rewrite Hty. now rewrite (proj2 (String.eqb_neq _ _) Hv). }
  exists (defaultMode (Attrs ex)). split; [assumption|].
  unfold parseExportCache. simpl. rewrite Hleg, Hcsv. reflexivity.
Qed.

Lemma parseExportCache_type_field_witness :
  (legacy "ref=a,TyPe=x,type=local,mode=max" = false /\
   exists attrs,
     parseExportCacheCSV "ref=a,TyPe=x,type=local,mode=max" =
       Ok {| Type_ := "local"; Attrs := attrs |} /\
     parseExportCache ["ref=a,TyPe=x,type=local,mode=max"] [] =
       ([], Ok [{| Type_ := "local"; Attrs := attrs |}])) /\
  (legacy "ref=type=,TYPE=oci" = false /\
   exists attrs,
     parseExportCacheCSV "ref=type=,TYPE=oci" =
       Ok {| Type_ := "oci"; Attrs := attrs |} /\
     parseExportCache ["ref=type=,TYPE=oci"] [] =
       ([], Ok [{| Type_ := "oci"; Attrs := attrs |}])).
Proof.
  split.
  - apply (parseExportCache_type_field "ref=a,TyPe=x,type=local,mode=max"
             ["ref=a"; "TyPe=x"] ["mode=max"] "type=local" "type" "local").
    + reflexivity.
    + repeat constructor; unfold hasEquals; vm_compute; discriminate.
    + reflexivity.
    + reflexivity.
    + left. reflexivity.
    + discriminate.
    + intros g k' v' Hg. apply list_elem_of_singleton in Hg as ->.
      intros [= <- <-]. vm_compute. discriminate.
  - apply (parseExportCache_type_field "ref=type=,TYPE=oci"
             ["ref=type="] [] "TYPE=oci" "TYPE" "oci").
    + reflexivity.
    + repeat constructor; unfold hasEquals; vm_compute; discriminate.
    + reflexivity.
    + reflexivity.
    + right. reflexivity.
    + discriminate.
    + intros g k' v' Hg. inversion Hg.
Defined.


Lemma parseExportCacheCSV_mode {U : Unicode} spec ex :
  parseExportCacheCSV spec = Ok ex ->
  exists fields,
    csv_Read spec = Ok fields /\
    Attrs ex !! "mode" = Some (default "min" (lastValue ToLower "mode" fields)).
Proof.
  unfold parseExportCacheCSV. destruct (csv_Read spec) as [fields| |];
    simpl; try discriminate.
  destruct (cacheFields fields emptyEntry) as [ex0| |] eqn:Hex;
    simpl; try discriminate.
  destruct (String.eqb (Type_ ex0) EmptyString); [discriminate|].
  intros [= <-]. exists fields. split; [reflexivity|]. simpl.
  rewrite defaultMode_lookup. simpl.
  destruct (cacheFields_Ok _ _ _ Hex) as (_ & _ & Hat).
  rewrite (Hat "mode"). simpl.
  now destruct (lastValue ToLower "mode" fields).
Qed.

Lemma parseExportCache_loop_mode {U : Unicode} opts specs exports log log' entries :
  parseExportCache_loop opts specs exports log = (log', Ok entries) ->
  exists new, entries = exports ++ new /\ Forall2 (modeOf opts) specs new.
Proof.
  revert exports log. induction specs as [|spec specs IH]; intros exports log.
  - simpl. intros [= _ <-]. exists []. split; [now rewrite app_nil_r|constructor].
  - simpl. destruct (legacy spec) eqn:Hleg.
    + destruct (attrMap opts) as [m| |] eqn:Hm; try discriminate.
      intros H. apply IH in H as (new & -> & Hnew).
      eexists (_ :: new). split; [now rewrite <- app_assoc|].
      constructor; [|assumption]. unfold modeOf. rewrite Hleg. simpl.
      rewrite lookup_insert_ne by discriminate.
      rewrite defaultMode_lookup. simpl.
      destruct (attrMap_Ok _ _ Hm) as [_ Hat]. now rewrite Hat.
    + destruct (0 <? length opts)%nat; [discriminate|].
      destruct (parseExportCacheCSV spec) as [ex| |] eqn:Hex; try discriminate.
      intros H. apply IH in H as (new & -> & Hnew).
      exists (ex :: new). split; [now rewrite <- app_assoc|].
      constructor; [|assumption]. unfold modeOf. rewrite Hleg.
      now apply parseExportCacheCSV_mode.
Qed.

(** C6.  Every entry of a successful [parseExportCache] has a [mode]
    attribute: the value its spec gives to [mode] (the last one, if there
    are several), and ["min"] when the spec gives none.  In structured mode
    the spec is the option string, its keys folded to lower case; in legacy
    mode the key=value pairs come from the companion list. *)
Theorem parseExportCache_mode {U : Unicode} (specs opts : list string)
    (log : list log_entry) (entries : list CacheOptionsEntry) :
  parseExportCache specs opts = (log, Ok entries) ->
  Forall2 (modeOf opts) specs entries.
Proof.
  unfold parseExportCache.
  destruct ((0 <? length opts)%nat && negb (length specs =? 1)%nat);
    [discriminate|].
  intros H. apply parseExportCache_loop_mode in H as (new & -> & Hnew).
  exact Hnew.
Qed.

Lemma parseExportCache_mode_witness :
  Forall2 (modeOf [])
    ["type=local,dest=/tmp/c"; "type=registry,ref=r,MODE=max"; "example.com/ref"]
    [ {| Type_ := "local";
         Attrs := <["mode" := "min"]> (<["dest" := "/tmp/c"]> ∅) |};
      {| Type_ := "registry";
         Attrs := <["mode" := "max"]> (<["ref" := "r"]> ∅) |};
      {| Type_ := "registry";
         Attrs := <["ref" := "example.com/ref"]> (<["mode" := "min"]> ∅) |} ].
Proof.
  apply (parseExportCache_mode _ [] [Warnf exportCacheDeprecated]).
  vm_compute. reflexivity.
Defined.

(** C3.  With a companion list [opts] that is not empty: any number of
    specs other than one is refused, and so is one structured spec.  One
    legacy spec, with a companion list of key=value strings (empty or not),
    is parsed with one deprecation warning into one entry of kind
    ["registry"], whose [ref] is the whole spec, whose [mode] is the
    companion's or ["min"], and whose other attributes are the companion's
    pairs, the last value of a key winning. *)
Theorem parseExportCache_companion {U : Unicode} (specs opts : list string) :
  (opts <> [] -> length specs <> 1 ->
   parseExportCache specs opts = ([], Err errExportCacheOptSingle)) /\
  (forall spec, specs = [spec] -> opts <> [] -> legacy spec = false ->
   parseExportCache specs opts = ([], Err errExportCacheOptUnsupported)) /\
  (forall spec, specs = [spec] -> legacy spec = true ->
   Forall hasEquals opts ->
   exists attrs,
     parseExportCache specs opts =
       ([Warnf exportCacheDeprecated],
        Ok [{| Type_ := "registry"; Attrs := attrs |}]) /\
     attrs !! "ref" = Some spec /\
     attrs !! "mode" = Some (default "min" (lastValue id "mode" opts)) /\
     forall key, key <> "ref" -> key <> "mode" ->
                 attrs !! key = lastValue id key opts).
Proof.
  split; [|split].
  - intros Hopts Hlen. unfold parseExportCache.
    destruct opts as [|o opts]; [congruence|]. simpl.
    now rewrite (proj2 (Nat.eqb_neq _ _) Hlen).
  - intros spec -> Hopts Hleg. unfold parseExportCache.
    destruct opts as [|o opts]; [congruence|]. simpl. now rewrite Hleg.
  - intros spec -> Hleg Hall.
    destruct (attrMap_total _ Hall) as [m Hm].
    destruct (attrMap_Ok _ _ Hm) as [_ Hat].
    exists (<["ref" := spec]> (defaultMode m)). split; [|split; [|split]].
    + unfold parseExportCache. simpl length. rewrite andb_false_r.
      simpl. now rewrite Hleg, Hm.
    + apply lookup_insert_eq.
    + rewrite lookup_insert_ne by discriminate.
      rewrite defaultMode_lookup. simpl. now rewrite Hat.
    + intros key Href Hmode. rewrite lookup_insert_ne by congruence.
      rewrite defaultMode_lookup.
      rewrite (proj2 (String.eqb_neq _ _) Hmode). apply Hat.
Qed.

Lemma parseExportCache_companion_witness :
  parseExportCache ["type=local,dest=d"; "type=registry,ref=r"] ["a=b"] =
    ([], Err errExportCacheOptSingle) /\
  parseExportCache ["type=registry,ref=r"] ["a=b"] =
    ([], Err errExportCacheOptUnsupported) /\
  exists attrs,
    parseExportCache ["example.com/ref"] ["a=1"; "ref=other"; "a=2"] =
      ([Warnf exportCacheDeprecated],
       Ok [{| Type_ := "registry"; Attrs := attrs |}]) /\
    attrs !! "ref" = Some "example.com/ref" /\
    attrs !! "mode" = Some "min" /\
    attrs !! "a" = Some "2".
Proof.
  split; [|split].
  - apply (parseExportCache_companion
             ["type=local,dest=d"; "type=registry,ref=r"] ["a=b"]);
      [discriminate|simpl; lia].
  - apply (proj1 (proj2 (parseExportCache_companion
                           ["type=registry,ref=r"] ["a=b"]))
             "type=registry,ref=r");
      [reflexivity|discriminate|reflexivity].
  - destruct (proj2 (proj2 (parseExportCache_companion
                 ["example.com/ref"] ["a=1"; "ref=other"; "a=2"]))
               "example.com/ref" eq_refl eq_refl) as (attrs & H1 & H2 & H3 & H4).
    + repeat constructor; unfold hasEquals; vm_compute; discriminate.
    + exists attrs. split; [exact H1|]. split; [exact H2|].
      split; [exact H3|]. apply (H4 "a"); discriminate.
Defined.

Lemma parseSecret_fields_app {U : Unicode} pre post fs :
  parseSecret_fields (pre ++ post) fs =
    (fs' ← parseSecret_fields pre fs; parseSecret_fields post fs').
Proof.
  revert fs. induction pre as [|f pre IH]; intros fs; simpl; [reflexivity|].
  destruct (parseSecret_field fs f) as [fs'| |]; simpl; auto.
Qed.

Lemma parseSecret_field_pair {U : Unicode} fs field k v :
  cut equals field = Some (k, v) ->
  parseSecret_field fs field =
    if String.eqb (ToLower k) "type" then
      if String.eqb v "file" then Ok fs
      else Err (Errorf "unsupported secret type %q" [v])
    else if String.eqb (ToLower k) "id" then
      Ok {| ID := v; FilePath := FilePath fs |}
    else if String.eqb (ToLower k) "source" || String.eqb (ToLower k) "src" then
      Ok {| ID := ID fs; FilePath := v |}
    else Err (Errorf "unexpected key '%s' in '%s'" [ToLower k; field]).
Proof.
  intros H. unfold parseSecret_field, SplitN_eq_2. rewrite H. simpl.
  destruct (String.eqb (ToLower k) "type"); [|reflexivity].
  now destruct (String.eqb v "file").
Qed.


(** C8.  The spec ["type=file,id=mysecret,src=/tmp/x"] gives the source
    [mysecret] at [/tmp/x].  For a field [k=v] that the loop of
    [parseSecret] reaches (the fields [pre] before it are accepted and
    leave the source [fs]): with the folded key [type] and a value other
    than ["file"] the result is the unsupported-type error; with [type] and
    ["file"] nothing changes; with [id] the value is the id; with [source]
    or [src] alike the value is the file path; with any other key the
    result is the unexpected-key error. *)
Theorem parseSecret_keys {U : Unicode} (value : string) (pre post : list string)
    (field k v : string) (fs : FileSource) :
  csv_Read value = Ok (pre ++ field :: post) ->
  parseSecret_fields pre noSecret = Ok fs ->
  cut equals field = Some (k, v) ->
  parseSecret "type=file,id=mysecret,src=/tmp/x" =
    Ok {| ID := "mysecret"; FilePath := "/tmp/x" |} /\
  (ToLower k = "type" -> v <> "file" ->
   parseSecret value = Err (Errorf "unsupported secret type %q" [v])) /\
  (ToLower k = "type" -> v = "file" ->
   parseSecret value = parseSecret_fields post fs) /\
  (ToLower k = "id" ->
   parseSecret value =
     parseSecret_fields post {| ID := v; FilePath := FilePath fs |}) /\
  (ToLower k = "source" \/ ToLower k = "src" ->
   parseSecret value =
     parseSecret_fields post {| ID := ID fs; FilePath := v |}) /\
  (ToLower k <> "type" -> ToLower k <> "id" ->
   ToLower k <> "source" -> ToLower k <> "src" ->
   parseSecret value =
     Err (Errorf "unexpected key '%s' in '%s'" [ToLower k; field])).
Proof.
  intros Hs Hpre Hf.
  assert (parseSecret value =
          (fs' ← parseSecret_field fs field; parseSecret_fields post fs')) as ->.
  { unfold parseSecret. rewrite Hs.
    rewrite parseSecret_fields_app, Hpre. reflexivity. }
  rewrite (parseSecret_field_pair _ _ _ _ Hf).
  split; [vm_compute; reflexivity|].
  split; [|split; [|split; [|split]]].
  - intros -> Hv. simpl. now rewrite (proj2 (String.eqb_neq _ _) Hv).
  - intros -> ->. reflexivity.
  - intros ->. reflexivity.
  - intros [-> | ->]; reflexivity.
  - intros H1 H2 H3 H4.
    rewrite (proj2 (String.eqb_neq _ _) H1), (proj2 (String.eqb_neq _ _) H2),
      (proj2 (String.eqb_neq _ _) H3), (proj2 (String.eqb_neq _ _) H4).
    reflexivity.
Qed.

Lemma parseSecret_keys_witness :
  parseSecret "type=env,id=x" = Err (Errorf "unsupported secret type %q" ["env"]) /\
  parseSecret "id=a,Source=/p,SRC=/q" = Ok {| ID := "a"; FilePath := "/q" |} /\
  parseSecret "id=a,source=/p" = Ok {| ID := "a"; FilePath := "/p" |} /\
  parseSecret "id=a,env=HOME" =
    Err (Errorf "unexpected key '%s' in '%s'" ["env"; "env=HOME"]).
Proof.
  split; [|split; [|split]].
  - apply (parseSecret_keys "type=env,id=x" [] ["id=x"] "type=env" "type" "env"
             noSecret); try reflexivity. discriminate.
  - apply (proj1 (proj2 (proj2 (proj2 (proj2
             (parseSecret_keys "id=a,Source=/p,SRC=/q" ["id=a"; "Source=/p"] []
                "SRC=/q" "SRC" "/q" {| ID := "a"; FilePath := "/p" |}
                eq_refl eq_refl eq_refl)))))).
    right. reflexivity.
  - apply (proj1 (proj2 (proj2 (proj2 (proj2
             (parseSecret_keys "id=a,source=/p" ["id=a"] []
                "source=/p" "source" "/p" {| ID := "a"; FilePath := EmptyString |}
                eq_refl eq_refl eq_refl)))))).
    left. reflexivity.
  - apply (proj2 (proj2 (proj2 (proj2 (proj2
             (parseSecret_keys "id=a,env=HOME" ["id=a"] []
                "env=HOME" "env" "HOME" {| ID := "a"; FilePath := EmptyString |}
                eq_refl eq_refl eq_refl))))));
      vm_compute; discriminate.
Defined.

(** ** The claims on the exporter output *)

Section OutputFacts.
Context {U : Unicode} {env : Env}.

Lemma isEmpty_true s : isEmpty s = true <-> s = EmptyString.
Proof. apply String.eqb_eq. Qed.

Lemma isEmpty_false s : isEmpty s = false <-> s <> EmptyString.
Proof. apply String.eqb_neq. Qed.

(** The [switch] goes to its second case on the two archive exporters. *)
Lemma archive_case exporter :
  exporter = ExporterOCI \/ exporter = ExporterDocker ->
  String.eqb exporter ExporterLocal = false /\
  String.eqb exporter ExporterOCI || String.eqb exporter ExporterDocker = true.
Proof.
  intros [-> | ->]; split.
  - apply String.eqb_neq. intros Heq. now apply ExporterLocal_not_OCI.
  - now rewrite String.eqb_refl.
  - apply String.eqb_neq. intros Heq. now apply ExporterLocal_not_Docker.
  - rewrite (String.eqb_refl ExporterDocker). apply orb_true_r.
Qed.

(** And to its default case on every other exporter. *)
Lemma default_case exporter :
  exporter <> ExporterLocal -> exporter <> ExporterOCI ->
  exporter <> ExporterDocker ->
  String.eqb exporter ExporterLocal = false /\
  String.eqb exporter ExporterOCI || String.eqb exporter ExporterDocker = false.
Proof.
  intros H1 H2 H3.
  now rewrite (proj2 (String.eqb_neq _ _) H1), (proj2 (String.eqb_neq _ _) H2),
    (proj2 (String.eqb_neq _ _) H3).
Qed.

(** C4.  For the OCI and the Docker exporter: a path that [os.Stat] finds
    to be a directory is refused; so is a path on which [os.Stat] fails
    otherwise than by absence; on a path that is absent or is not a
    directory the file is created and its handle returned with no
    directory path, if [os.Create] succeeds; with no path the result is
    standard output, unless standard output is a console, which is refused
    with the error that asks for an output file. *)
Theorem resolveExporterOutput_archive (exporter output : string) (o : OS) :
  exporter = ExporterOCI \/ exporter = ExporterDocker ->
  (output <> EmptyString ->
   forall fi, os_Stat output o = inr fi -> IsDir fi = true ->
   resolveExporterOutput exporter output o =
     (o, {| out_w := nilWriteCloser; out_dir := EmptyString;
            out_err := Some (Errorf "destination file is a directory" []) |})) /\
  (output <> EmptyString ->
   forall err, os_Stat output o = inl err -> os_IsNotExist err = false ->
   resolveExporterOutput exporter output o =
     (o, {| out_w := nilWriteCloser; out_dir := EmptyString;
            out_err := Some (Wrapf err "invalid destination file: %s" [output]) |})) /\
  (output <> EmptyString ->
   match os_Stat output o with
   | inr fi => IsDir fi = false
   | inl err => os_IsNotExist err = true
   end ->
   forall o' w, os_Create output o = (o', inr w) ->
   resolveExporterOutput exporter output o =
     (o', {| out_w := fileWriteCloser (Some w); out_dir := EmptyString;
             out_err := None |})) /\
  (output = EmptyString -> isConsole os_Stdout o = false ->
   resolveExporterOutput exporter output o =
     (o, {| out_w := fileWriteCloser (Some os_Stdout); out_dir := EmptyString;
            out_err := None |})) /\
  (output = EmptyString -> isConsole os_Stdout o = true ->
   resolveExporterOutput exporter output o =
     (o, {| out_w := nilWriteCloser; out_dir := EmptyString;
            out_err := Some (Errorf "output file is required for %s exporter. refusing to write to console" [exporter]) |})).
Proof.
  intros Hexp. destruct (archive_case _ Hexp) as [Hl Ha].
  unfold resolveExporterOutput. rewrite Hl, Ha.
  split; [|split; [|split; [|split]]].
  - intros Hout fi Hst Hdir. rewrite (proj2 (isEmpty_false _) Hout). simpl.
    now rewrite Hst, Hdir.
  - intros Hout err Hst Hne. rewrite (proj2 (isEmpty_false _) Hout). simpl.
    now rewrite Hst, Hne.
  - intros Hout Hst o' w Hcr. rewrite (proj2 (isEmpty_false _) Hout). simpl.
    rewrite Hcr. destruct (os_Stat output o) as [err|fi]; now rewrite Hst.
  - intros -> Hcon. simpl. now rewrite Hcon.
  - intros -> Hcon. simpl. now rewrite Hcon.
Qed.

(** C7.  [resolveExporterOutput] never returns a writer that is not nil
    together with a directory path that is not empty.  For the local
    exporter an empty path is an error and any other path is returned as
    the directory path, with the nil writer.  For an exporter that is
    neither local nor OCI nor Docker a path is an error, and no path gives
    the nil writer and no directory path. *)
Theorem resolveExporterOutput_at_most_one (exporter output : string) (o : OS) :
  (out_w (resolveExporterOutput exporter output o).2 = nilWriteCloser \/
   out_dir (resolveExporterOutput exporter output o).2 = EmptyString) /\
  (exporter = ExporterLocal -> output = EmptyString ->
   resolveExporterOutput exporter output o =
     (o, {| out_w := nilWriteCloser; out_dir := EmptyString;
            out_err := Some (New "output directory is required for local exporter") |})) /\
  (exporter = ExporterLocal -> output <> EmptyString ->
   resolveExporterOutput exporter output o =
     (o, {| out_w := nilWriteCloser; out_dir := output; out_err := None |})) /\
  (exporter <> ExporterLocal -> exporter <> ExporterOCI ->
   exporter <> ExporterDocker -> output <> EmptyString ->
   resolveExporterOutput exporter output o =
     (o, {| out_w := nilWriteCloser; out_dir := EmptyString;
            out_err := Some (Errorf "output %s is not supported by %s exporter" [output; exporter]) |})) /\
  (exporter <> ExporterLocal -> exporter <> ExporterOCI ->
   exporter <> ExporterDocker -> output = EmptyString ->
   resolveExporterOutput exporter output o =
     (o, {| out_w := nilWriteCloser; out_dir := EmptyString; out_err := None |})).
Proof.
  split; [|split; [|split; [|split]]].
  - unfold resolveExporterOutput.
    destruct (String.eqb exporter ExporterLocal).
    { destruct (isEmpty output); simpl; auto. }
    destruct (String.eqb exporter ExporterOCI || String.eqb exporter ExporterDocker).
    2:{ destruct (isEmpty output); simpl; auto. }
    destruct (isEmpty output); simpl.
    { destruct (isConsole os_Stdout o); simpl; auto. }
    destruct (os_Stat output o) as [err|fi].
    + destruct (os_IsNotExist err); simpl; auto.
      destruct (os_Create output o) as [o' [e|w]]; simpl; auto.
    + destruct (IsDir fi); simpl; auto.
      destruct (os_Create output o) as [o' [e|w]]; simpl; auto.
  - intros -> ->. unfold resolveExporterOutput.
    now rewrite String.eqb_refl.
  - intros -> Hout. unfold resolveExporterOutput.
    now rewrite String.eqb_refl, (proj2 (isEmpty_false _) Hout).
  - intros H1 H2 H3 Hout. destruct (default_case _ H1 H2 H3) as [Hl Ha].
    unfold resolveExporterOutput.
    now rewrite Hl, Ha, (proj2 (isEmpty_false _) Hout).
  - intros H1 H2 H3 ->. destruct (default_case _ H1 H2 H3) as [Hl Ha].
    unfold resolveExporterOutput. now rewrite Hl, Ha.
Qed.

End OutputFacts.

Lemma resolveExporterOutput_archive_witness :
  @resolveExporterOutput simEnv "oci" "/out" simOS0 =
    (simOS0, {| out_w := nilWriteCloser; out_dir := EmptyString;
                out_err := Some (Errorf "destination file is a directory" []) |}) /\
  (@resolveExporterOutput simEnv "docker" "/out/img.tar" simOS0).2 =
    {| out_w := fileWriteCloser (Some {| Name := "/out/img.tar"; Fd := 3 |});
       out_dir := EmptyString; out_err := None |} /\
  @resolveExporterOutput simEnv "oci" EmptyString simOS0 =
    (simOS0, {| out_w := nilWriteCloser; out_dir := EmptyString;
                out_err := Some (Errorf "output file is required for %s exporter. refusing to write to console" ["oci"]) |}).
Proof.
  split; [|split].
  - eapply (proj1 (@resolveExporterOutput_archive simEnv "oci" "/out" simOS0
                     (or_introl eq_refl)));
      [discriminate|reflexivity|reflexivity].
  - rewrite (proj1 (proj2 (proj2
              (@resolveExporterOutput_archive simEnv "docker" "/out/img.tar" simOS0
                 (or_intror eq_refl)))) ltac:(discriminate) eq_refl _ _ eq_refl).
    reflexivity.
  - apply (proj2 (proj2 (proj2 (proj2
             (@resolveExporterOutput_archive simEnv "oci" EmptyString simOS0
                (or_introl eq_refl))))));
      reflexivity.
Defined.

Lemma resolveExporterOutput_at_most_one_witness :
  @resolveExporterOutput simEnv "local" "/some/dir" simOS0 =
    (simOS0, {| out_w := nilWriteCloser; out_dir := "/some/dir"; out_err := None |}) /\
  @resolveExporterOutput simEnv "image" "/some/dir" simOS0 =
    (simOS0, {| out_w := nilWriteCloser; out_dir := EmptyString;
                out_err := Some (Errorf "output %s is not supported by %s exporter" ["/some/dir"; "image"]) |}) /\
  @resolveExporterOutput simEnv "image" EmptyString simOS0 =
    (simOS0, {| out_w := nilWriteCloser; out_dir := EmptyString; out_err := None |}).
Proof.
  split; [|split].
  - apply (proj1 (proj2 (proj2
             (@resolveExporterOutput_at_most_one simEnv "local" "/some/dir" simOS0))));
      [reflexivity|discriminate].
  - apply (proj1 (proj2 (proj2 (proj2
             (@resolveExporterOutput_at_most_one simEnv "image" "/some/dir" simOS0)))));
      discriminate.
  - apply (proj2 (proj2 (proj2 (proj2
             (@resolveExporterOutput_at_most_one simEnv "image" EmptyString simOS0)))));
      try discriminate. reflexivity.
Defined.

(** ** The claims on [build] *)

Section BuildFacts.
Context {U : Unicode} {env : Env}.

Lemma bind_Ok {A B} (m : M A) (k : A -> M B) st st' b :
  (m ≫= k) st = (st', Ok b) ->
  exists a st1, m st = (st1, Ok a) /\ k a st1 = (st', Ok b).
Proof.
  unfold mbind, M_bind. destruct (m st) as [st1 [a|e|p]]; try discriminate.
  intros Hk. now exists a, st1.
Qed.

Lemma pure_Ok {A} (r : result A) st st' a :
  pure r st = (st', Ok a) -> r = Ok a /\ st' = st.
Proof. unfold pure. now intros [= -> ->]. Qed.

Lemma wrapped_Ok {A} msg (m : M A) st st' a :
  wrapped msg m st = (st', Ok a) -> m st = (st', Ok a).
Proof.
  unfold wrapped. destruct (m st) as [st1 [a1|e|p]]; try discriminate.
  now intros [= -> ->].
Qed.

Lemma deferClose_Ok {A} f (body : M A) st st' a :
  deferClose f body st = (st', Ok a) -> body st = (st', Ok a).
Proof.
  unfold deferClose. destruct (body st) as [st1 [a1|e|p]]; try discriminate.
  now intros [= -> ->].
Qed.

Lemma mret_Ok {A} (x : A) st st' a :
  (mret x : M A) st = (st', Ok a) -> a = x /\ st' = st.
Proof. unfold mret, M_ret. now intros [= -> ->]. Qed.

(** A request that [build_request] makes holds what [build_exporter] and
    [build_definition] returned on the way. *)
Lemma build_request_Ok clicontext c traceFile st st' p :
  build_request clicontext c traceFile st = (st', Ok p) ->
  exists st1 st2 st3 frontendAttrs,
    build_exporter clicontext st1 =
      (st2, Ok (ExporterAttrs (p_solveOpt p), ExporterOutput (p_solveOpt p),
                ExporterOutputDir (p_solveOpt p))) /\
    attrMap (flag_frontend_opt clicontext) = Ok frontendAttrs /\
    build_definition clicontext frontendAttrs st3 =
      (st', Ok (p_def p, FrontendAttrs (p_solveOpt p))).
Proof.
  unfold build_request. intros H.
  apply bind_Ok in H as (attachable & s1 & _ & H).
  apply bind_Ok in H as (allowed & s2 & _ & H).
  apply bind_Ok in H as (cacheExports & s3 & _ & H).
  apply bind_Ok in H as (cacheImports & s4 & _ & H).
  apply bind_Ok in H as ([[attrs w] dir] & s5 & Hexp & H).
  apply bind_Ok in H as (frontendAttrs & s6 & Hfa & H).
  apply bind_Ok in H as (localDirs & s7 & _ & H).
  apply bind_Ok in H as ([def fa] & s8 & Hdef & H).
  apply mret_Ok in H as [-> ->]. simpl.
  apply wrapped_Ok, pure_Ok in Hfa as [Hfa _].
  now exists s4, s5, s7, frontendAttrs.
Qed.

Lemma build_setup_Ok clicontext st st' p :
  build_setup clicontext st = (st', Ok p) ->
  exists c traceFile st1,
    build_request clicontext c traceFile st1 = (st', Ok p).
Proof.
  unfold build_setup. intros H.
  apply bind_Ok in H as (c & s1 & _ & H).
  apply bind_Ok in H as (traceFile & s2 & _ & H).
  destruct traceFile as [f|].
  - apply deferClose_Ok, bind_Ok in H as (u & s3 & _ & H). eauto.
  - eauto.
Qed.

Lemma isNil_true w : isNil w = true <-> w = nilWriteCloser.
Proof. destruct w; simpl; split; congruence. Qed.

(** C9.  With no frontend: when standard input is a character device
    [build] returns the error that asks for a frontend or a pipe, and when
    the definition read from standard input has no operation it returns
    the empty-definition error.  With a frontend and [no-cache]: the
    frontend attributes get the key ["no-cache"] with the empty value and
    there is no definition; nothing is read.  And a run of [build] that
    reaches its goroutines has, with no frontend, read a definition that
    is not empty from a standard input that is not a character device,
    and has, with a frontend, no definition. *)
Theorem build_definition_source (clicontext : CliContext)
    (frontendAttrs : gmap string string) (st : State) :
  (flag_frontend clicontext = EmptyString ->
   forall fi, File_Stat os_Stdin (os st) = inr fi -> ModeCharDevice fi = true ->
   build_definition clicontext frontendAttrs st =
     (st, Err (Errorf "please specify --frontend or pipe LLB definition to stdin" []))) /\
  (flag_frontend clicontext = EmptyString ->
   forall fi o' metadata,
     File_Stat os_Stdin (os st) = inr fi -> ModeCharDevice fi = false ->
     llb_ReadFrom os_Stdin (os st) = (o', inr ([], metadata)) ->
     build_definition clicontext frontendAttrs st =
       ({| os := o'; log := log st |},
        Err (Errorf "empty definition sent to build. Specify --frontend instead?" []))) /\
  (flag_frontend clicontext <> EmptyString ->
   flag_no_cache clicontext = true ->
   build_definition clicontext frontendAttrs st =
     (st, Ok (None, <["no-cache" := EmptyString]> frontendAttrs))) /\
  (forall st' p,
     build_setup clicontext st = (st', Ok p) ->
     (flag_frontend clicontext = EmptyString ->
      exists o fi def,
        File_Stat os_Stdin o = inr fi /\ ModeCharDevice fi = false /\
        p_def p = Some def /\ Def def <> []) /\
     (flag_frontend clicontext <> EmptyString ->
      p_def p = None /\
      (flag_no_cache clicontext = true ->
       FrontendAttrs (p_solveOpt p) !! "no-cache" = Some EmptyString))).
Proof.
  split; [|split; [|split]].
  - intros Hf fi Hst Hcd. unfold build_definition, mbind, M_bind.
    rewrite (proj2 (isEmpty_true _) Hf), Hst, Hcd. reflexivity.
  - intros Hf fi o' metadata Hst Hcd Hread.
    unfold build_definition, mbind, M_bind.
    rewrite (proj2 (isEmpty_true _) Hf), Hst, Hcd.
    unfold read, mbind, M_bind, wrapped, sys. rewrite Hread. simpl.
    now destruct (flag_no_cache clicontext).
  - intros Hf Hnc. unfold build_definition.
    now rewrite (proj2 (isEmpty_false _) Hf), Hnc.
  - intros st' p Hp.
    apply build_setup_Ok in Hp as (c & traceFile & s1 & Hp).
    apply build_request_Ok in Hp as (s2 & s3 & s4 & fa & _ & _ & Hdef).
    unfold build_definition in Hdef. split.
    + intros Hf. rewrite (proj2 (isEmpty_true _) Hf) in Hdef.
      apply bind_Ok in Hdef as (fi & s5 & Hfi & Hdef).
      destruct (File_Stat os_Stdin (os s4)) as [e|fi'] eqn:Hst;
        [discriminate|]. injection Hfi as -> ->.
      destruct (ModeCharDevice fi) eqn:Hcd; [discriminate|].
      apply bind_Ok in Hdef as (def & s6 & _ & Hdef).
      destruct (length (Def def) =? 0)%nat eqn:Hlen; [discriminate|].
      apply mret_Ok in Hdef as [[= Hd _] _].
      exists (os s5), fi, def. repeat split; try assumption.
      intros Hnil. rewrite Hnil in Hlen. discriminate.
    + intros Hf. rewrite (proj2 (isEmpty_false _) Hf) in Hdef.
      destruct (flag_no_cache clicontext);
        apply mret_Ok in Hdef as [[= Hd Hfa] _]; split; try assumption.
      * intros _. rewrite Hfa. apply lookup_insert_eq.
      * discriminate.
Qed.


(** What [build_exporter] did, when it returned: it called
    [resolveExporterOutput] on the parsed attributes, got no error, and
    returned its writer and its directory path. *)
Lemma build_exporter_resolved clicontext st st' attrs' w dir :
  build_exporter clicontext st = (st', Ok (attrs', w, dir)) ->
  exists attrs o' out,
    attrMap (flag_exporter_opt clicontext) = Ok attrs /\
    resolveExporterOutput (flag_exporter clicontext)
      (default EmptyString (attrs !! "output")) (os st) = (o', out) /\
    out_err out = None /\ w = out_w out /\ dir = out_dir out /\
    attrs' = if negb (isNil (out_w out)) || negb (isEmpty (out_dir out))
             then delete "output" attrs else attrs.
Proof.
  unfold build_exporter. intros H.
  apply bind_Ok in H as (attrs & s1 & Hattrs & H).
  apply wrapped_Ok, pure_Ok in Hattrs as [Hattrs ->].
  apply bind_Ok in H as (out & s2 & Hout & H).
  destruct (resolveExporterOutput (flag_exporter clicontext)
              (default EmptyString (attrs !! "output")) (os st))
    as [o' out'] eqn:Hres.
  injection Hout as _ ->.
  destruct (out_err out) eqn:Herr; [discriminate|].
  exists attrs, o', out.
  destruct (negb (isNil (out_w out)) || negb (isEmpty (out_dir out))) eqn:Hc;
    apply mret_Ok in H as [[= -> -> ->] _]; now rewrite ?Hc.
Qed.

(** C10.  Every request that [build] hands to [Solve] was made this way:
    [resolveExporterOutput] was called on the exporter and on the
    ["output"] attribute of the parsed exporter options and returned no
    error; the request holds the writer and the directory path that it
    returned; and the request's exporter attributes are the parsed ones
    without the key ["output"], every other key keeping its value, if
    that writer is not nil or that directory path is not empty, and the
    parsed ones unchanged otherwise.  On lines 193-203 themselves, from
    any state, this is the result whenever [resolveExporterOutput]
    returns no error. *)
Theorem build_deletes_output_key (clicontext : CliContext) :
  (forall st st1 p,
     build_setup clicontext st = (st1, Ok p) ->
     exists attrs s o' out,
       attrMap (flag_exporter_opt clicontext) = Ok attrs /\
       resolveExporterOutput (flag_exporter clicontext)
         (default EmptyString (attrs !! "output")) (os s) = (o', out) /\
       out_err out = None /\
       ExporterOutput (p_solveOpt p) = out_w out /\
       ExporterOutputDir (p_solveOpt p) = out_dir out /\
       (out_w out <> nilWriteCloser \/ out_dir out <> EmptyString ->
        ExporterAttrs (p_solveOpt p) = delete "output" attrs /\
        ExporterAttrs (p_solveOpt p) !! "output" = None /\
        forall key, key <> "output" ->
                    ExporterAttrs (p_solveOpt p) !! key = attrs !! key) /\
       (out_w out = nilWriteCloser -> out_dir out = EmptyString ->
        ExporterAttrs (p_solveOpt p) = attrs)) /\
  (forall st attrs o' out,
     attrMap (flag_exporter_opt clicontext) = Ok attrs ->
     resolveExporterOutput (flag_exporter clicontext)
       (default EmptyString (attrs !! "output")) (os st) = (o', out) ->
     out_err out = None ->
     build_exporter clicontext st =
       ({| os := o'; log := log st |},
        Ok (if negb (isNil (out_w out)) || negb (isEmpty (out_dir out))
            then delete "output" attrs else attrs,
            out_w out, out_dir out))).
Proof.
  split.
  - intros st st1 p Hp.
    apply build_setup_Ok in Hp as (c & traceFile & s1 & Hp).
    apply build_request_Ok in Hp as (s2 & s3 & s4 & fa & Hexp & _).
    apply build_exporter_resolved in Hexp
      as (attrs & o' & out & Hattrs & Hres & Herr & Hw & Hd & Hat).
    exists attrs, s2, o', out.
    split; [assumption|]. split; [assumption|]. split; [assumption|].
    split; [assumption|]. split; [assumption|]. rewrite Hat. split.
    + intros Hsome.
      assert (negb (isNil (out_w out)) || negb (isEmpty (out_dir out)) = true)
        as ->.
      { destruct Hsome as [Hn|Hn].
        - destruct (isNil (out_w out)) eqn:Hnil; [|reflexivity].
          now apply isNil_true in Hnil.
        - rewrite (proj2 (isEmpty_false _) Hn). apply orb_true_r. }
      split; [reflexivity|]. split; [apply lookup_delete_eq|].
      intros key Hkey. now apply lookup_delete_ne.
    + intros Hn He. now rewrite Hn, He.
  - intros st attrs o' out Hattrs Hres Herr.
    unfold build_exporter, mbind, M_bind, wrapped, pure. rewrite Hattrs, Hres.
    simpl. rewrite Herr.
    now destruct (negb (isNil (out_w out)) || negb (isEmpty (out_dir out))).
Qed.

End BuildFacts.

Lemma build_deletes_output_key_witness :
  exists st1 p,
    @build_setup noTables simEnv
      (withExporter "local" ["output=/some/dir"; "name=img"]) simState0 =
      (st1, Ok p) /\
    @ExporterOutputDir simEnv (@p_solveOpt simEnv p) = "/some/dir" /\
    @ExporterOutput simEnv (@p_solveOpt simEnv p) = nilWriteCloser /\
    @ExporterAttrs simEnv (@p_solveOpt simEnv p) !! "output" = None /\
    @ExporterAttrs simEnv (@p_solveOpt simEnv p) !! "name" = Some "img".
Proof.
  assert (exists st1 p,
            @build_setup noTables simEnv
              (withExporter "local" ["output=/some/dir"; "name=img"]) simState0 =
              (st1, Ok p) /\
            @ExporterOutputDir simEnv (@p_solveOpt simEnv p) = "/some/dir" /\
            @ExporterOutput simEnv (@p_solveOpt simEnv p) = nilWriteCloser)
    as (st1 & p & Hrun & Hdir & Hw) by (eexists _, _; repeat split).
  exists st1, p. split; [exact Hrun|]. split; [exact Hdir|]. split; [exact Hw|].
  destruct (proj1 (@build_deletes_output_key noTables simEnv
                     (withExporter "local" ["output=/some/dir"; "name=img"]))
              _ _ _ Hrun)
    as (attrs & s & o' & out & Hattrs & _ & _ & _ & Hd & Hdel & _).
  assert (attrs = <["name" := "img"]> (<["output" := "/some/dir"]> ∅)) as ->.
  { assert (attrMap (flag_exporter_opt
                       (withExporter "local" ["output=/some/dir"; "name=img"])) =
            Ok (<["name" := "img"]> (<["output" := "/some/dir"]> ∅))) as Hm
      by reflexivity.
    rewrite Hm in Hattrs. now injection Hattrs as <-. }
  destruct Hdel as (_ & Hout & Hother).
  { right. rewrite <- Hd, Hdir. discriminate. }
  split; [exact Hout|]. rewrite Hother by discriminate. reflexivity.
Defined.


Lemma build_definition_source_witness :
  @build_definition simEnv noFlags ∅ simStateTTY =
    (simStateTTY,
     Err (Errorf "please specify --frontend or pipe LLB definition to stdin" [])) /\
  @build_definition simEnv noFlags ∅ simStateEmpty =
    (simStateEmpty,
     Err (Errorf "empty definition sent to build. Specify --frontend instead?" [])) /\
  @build_definition simEnv (withFrontend "dockerfile.v0" true)
    {["target" := "final"]} simState0 =
    (simState0,
     Ok (None, <["no-cache" := EmptyString]> {["target" := "final"]})) /\
  exists p,
    @build_setup noTables simEnv (withFrontend "dockerfile.v0" true) simState0 =
      (simState0, Ok p) /\
    @p_def simEnv p = None /\
    @FrontendAttrs simEnv (@p_solveOpt simEnv p) !! "no-cache" = Some EmptyString.
Proof.
  split; [|split; [|split]].
  - eapply (proj1 (@build_definition_source noTables simEnv noFlags ∅ simStateTTY));
      reflexivity.
  - eapply (proj1 (proj2 (@build_definition_source noTables simEnv noFlags ∅ simStateEmpty)));
      reflexivity.
  - apply (proj1 (proj2 (proj2
             (@build_definition_source noTables simEnv (withFrontend "dockerfile.v0" true)
                {["target" := "final"]} simState0))));
      [discriminate|reflexivity].
  - assert (exists p, @build_setup noTables simEnv (withFrontend "dockerfile.v0" true)
                        simState0 = (simState0, Ok p)) as [p Hrun]
      by (eexists; reflexivity).
    exists p. split; [exact Hrun|].
    destruct (proj2 (proj2 (proj2
                (@build_definition_source noTables simEnv (withFrontend "dockerfile.v0" true)
                   ∅ simState0))) _ _ Hrun) as [_ Hfront].
    destruct Hfront as [Hdef Hnc]; [discriminate|].
    split; [exact Hdef|]. apply Hnc. reflexivity.
Defined.

(** ** The claim on the goroutine that feeds the display *)

Section ForwarderFacts.
Context {U : Unicode} {env : Env}.
Variable traceFile : File.

Lemma encodeAll_app pre post o :
  encodeAll traceFile (pre ++ post) o =
    let (o1, errs1) := encodeAll traceFile pre o in
    let (o2, errs2) := encodeAll traceFile post o1 in
    (o2, errs1 ++ errs2).
Proof.
  revert o. induction pre as [|s pre IH]; intros o; simpl.
  - now destruct (encodeAll traceFile post o).
  - destruct (Encode traceFile s o) as [o' err]. rewrite IH.
    destruct (encodeAll traceFile pre o') as [o1 errs1].
    destruct (encodeAll traceFile post o1) as [o2 errs2].
    now destruct err.
Qed.

(** An error of the encoder is in the log of [encodeAll]. *)
Lemma encodeAll_failure pre s post o o1 errs1 o2 e :
  encodeAll traceFile pre o = (o1, errs1) ->
  Encode traceFile s o1 = (o2, Some e) ->
  LogError e ∈ (encodeAll traceFile (pre ++ s :: post) o).2.
Proof.
  intros Hpre Henc. rewrite encodeAll_app, Hpre. simpl. rewrite Henc.
  destruct (encodeAll traceFile post o2) as [o3 errs3]. simpl.
  apply elem_of_app. right. now left.
Qed.

Lemma forward_run_S fuel f :
  forward_run (S fuel) traceFile f =
    match forward_step traceFile f with
    | Some f' => forward_run fuel traceFile f'
    | None => f
    end.
Proof. reflexivity. Qed.

(** From the head of the loop, two steps for each status and one to end. *)
Lemma forward_run_from_head statuses d st :
  forward_run (2 * length statuses + 1) traceFile
    {| inbound := statuses; held := None; displayCh := d; run := st;
       returned := None |} =
  {| inbound := []; held := None;
     displayCh := d ++ map Send statuses ++ [Close];
     run := {| os := (encodeAll traceFile statuses (os st)).1;
               log := log st ++ (encodeAll traceFile statuses (os st)).2 |};
     returned := Some None |}.
Proof.
  revert d st. induction statuses as [|s statuses IH]; intros d st.
  - simpl. rewrite app_nil_r. now destruct st.
  - replace (2 * length (s :: statuses) + 1)
      with (S (S (2 * length statuses + 1))) by (simpl; lia).
    rewrite forward_run_S. unfold forward_step at 1.
    cbn [returned held inbound displayCh run].
    destruct (Encode traceFile s (os st)) as [o' err] eqn:Henc.
    cbv beta iota. rewrite forward_run_S. unfold forward_step at 1.
    cbn [returned held inbound displayCh run].
    rewrite IH. cbn [os log encodeAll]. rewrite Henc.
    destruct (encodeAll traceFile statuses o') as [o'' errs]. cbn [fst snd].
    f_equal.
    + rewrite <- app_assoc. reflexivity.
    + f_equal. rewrite <- app_assoc. now destruct err.
Qed.

Lemma forwarding_start statuses st0 :
  forwarding traceFile statuses st0 (startForwarder statuses st0).
Proof.
  exists []. simpl. repeat split; auto. now rewrite app_nil_r.
Qed.

Lemma forwarding_step statuses st0 f f' :
  forwarding traceFile statuses st0 f -> forward_step traceFile f = Some f' ->
  forwarding traceFile statuses st0 f'.
Proof.
  intros (sent & Hall & Hch & Hret & Hos & Hlog). unfold forward_step.
  destruct (returned f) as [r|] eqn:Hr; [discriminate|].
  destruct (held f) as [s|] eqn:Hh.
  - intros [= <-]. exists (sent ++ [s]). cbn [held inbound displayCh run returned].
    simpl in *. rewrite <- !app_assoc. simpl.
    repeat split; auto.
    rewrite Hch, map_app, !app_nil_r. reflexivity.
  - destruct (inbound f) as [|s rest] eqn:Hin.
    + intros [= <-]. exists sent. cbn [held inbound displayCh run returned].
      simpl in *. repeat split; auto.
      rewrite Hch, app_nil_r. reflexivity.
    + destruct (Encode traceFile s (os (run f))) as [o' err] eqn:Henc.
      intros [= <-]. exists sent. cbn [held inbound displayCh run returned os log].
      simpl in *. rewrite app_nil_r in Hos, Hlog.
      rewrite encodeAll_app.
      destruct (encodeAll traceFile sent (os st0)) as [o1 errs1].
      simpl in Hos, Hlog. simpl. rewrite <- Hos, Henc. simpl.
      repeat split; auto.
      rewrite Hlog, <- app_assoc. now destruct err.
Qed.

Lemma reachable_forwarding statuses st0 f :
  reachable traceFile (startForwarder statuses st0) f ->
  forwarding traceFile statuses st0 f.
Proof.
  induction 1 as [|f f' _ IH Hstep].
  - apply forwarding_start.
  - exact (forwarding_step _ _ _ _ IH Hstep).
Qed.

(** C5.  Started on any finite sequence of statuses, the goroutine ends
    after two steps for each status and one more; it has then sent every
    status on [displayCh], in the order of arrival, and closed [displayCh]
    after the last one, and it returns nil, whatever the encoder did.  The
    errors of the encoder are in the log, in order.  In every state on the
    way the statuses sent are a prefix of the sequence, and [displayCh] is
    closed only when [ch] is exhausted and nothing is left to send. *)
Theorem forwarder_delivers_in_order (statuses : list SolveStatus) (st0 : State) :
  let f0 := startForwarder statuses st0 in
  let final := forward_run (2 * length statuses + 1) traceFile f0 in
  displayCh final = map Send statuses ++ [Close] /\
  returned final = Some None /\
  inbound final = [] /\ held final = None /\
  os (run final) = (encodeAll traceFile statuses (os st0)).1 /\
  log (run final) = log st0 ++ (encodeAll traceFile statuses (os st0)).2 /\
  (forall pre s post o1 errs1 o2 e,
     statuses = pre ++ s :: post ->
     encodeAll traceFile pre (os st0) = (o1, errs1) ->
     Encode traceFile s o1 = (o2, Some e) ->
     LogError e ∈ log (run final) /\ Send s ∈ displayCh final) /\
  (forall f, reachable traceFile f0 f ->
     (exists n,
        displayCh f = map Send (take n statuses) ++
                      match returned f with Some _ => [Close] | None => [] end) /\
     (Close ∈ displayCh f -> inbound f = [] /\ held f = None) /\
     (returned f = None \/ returned f = Some None)).
Proof.
  intros f0 final. subst f0 final. unfold startForwarder.
  rewrite forward_run_from_head. cbn [displayCh returned inbound held run os log].
  split; [reflexivity|]. split; [reflexivity|]. split; [reflexivity|].
  split; [reflexivity|]. split; [reflexivity|]. split; [reflexivity|].
  split.
  - intros pre s post o1 errs1 o2 e -> Hpre Henc. split.
    + apply elem_of_app. right. eapply encodeAll_failure; eassumption.
    + rewrite map_app. simpl.
      apply elem_of_app. left. apply elem_of_app. right. now left.
  - intros f Hreach.
    apply reachable_forwarding in Hreach as (sent & Hall & Hch & Hret & _).
    split; [|split].
    + exists (length sent). rewrite Hch, Hall. now rewrite take_app_length.
    + intros Hclose. destruct Hret as [Hr | (Hr & Hin & Hh)]; [|now split].
      rewrite Hch, Hr, app_nil_r in Hclose.
      apply list_elem_of_fmap in Hclose as (s & Hs & _). discriminate.
    + destruct Hret as [Hr | (Hr & _)]; auto.
Qed.

End ForwarderFacts.

(** A run on three statuses, the second of which the encoder refuses. *)
Example forwarder_run_example :
  let final :=
    @forward_run simEnv 7 {| Name := "trace.json"; Fd := 3 |}
      (@startForwarder simEnv ["a"; EmptyString; "b"] simState0) in
  @displayCh simEnv final =
    [@Send simEnv "a"; @Send simEnv EmptyString; @Send simEnv "b"; @Close simEnv] /\
  @returned simEnv final = Some None /\
  @log simEnv (@run simEnv final) = [LogError errEncode] /\
  sim_trace (@os simEnv (@run simEnv final)) = ["a"; "b"].
Proof.
  cbv zeta. split; [reflexivity|]. split; [reflexivity|].
  split; reflexivity.
Qed.

(** ** More on [attrMap] *)

Lemma append_String c a b : String c a +:+ b = String c (a +:+ b).
Proof. reflexivity. Qed.

Lemma append_nil_l b : EmptyString +:+ b = b.
Proof. reflexivity. Qed.

Lemma cut_keyValue k v :
  cut equals k = None -> cut equals (keyValue k v) = Some (k, v).
Proof.
  unfold keyValue. induction k as [|c k IH]; intros Hk.
  - reflexivity.
  - rewrite append_String. simpl in *.
    destruct (Ascii.eqb c equals); [discriminate Hk|].
    destruct (cut equals k) as [[a b]|]; [discriminate Hk|].
    now rewrite IH.
Qed.

Lemma attrMap_loop_first_bad pre v post m :
  Forall hasEquals pre -> cut equals v = None ->
  attrMap_loop (pre ++ v :: post) m = Err (Errorf "invalid value %s" [v]).
Proof.
  intros Hpre Hv. revert m. induction Hpre as [|u pre Hu _ IH]; intros m; simpl.
  - now rewrite (attrMap_step_no_equals _ _ Hv).
  - unfold hasEquals in Hu.
    destruct (cut equals u) as [[k x]|] eqn:Hc; [|congruence].
    rewrite (attrMap_step_pair _ _ _ _ Hc). simpl. apply IH.
Qed.

(** [attrMap] returns a map on a list of strings that all have an ['='],
    with, for each key, the value of its last occurrence; on any other
    list it returns the error that names the first string without ['=']. *)
Theorem attrMap_outcome (sl : list string) :
  (Forall hasEquals sl ->
   exists m, attrMap sl = Ok m /\ forall key, m !! key = lastValue id key sl) /\
  (forall pre v post,
     sl = pre ++ v :: post -> Forall hasEquals pre -> cut equals v = None ->
     attrMap sl = Err (Errorf "invalid value %s" [v])).
Proof.
  split.
  - intros Hall. destruct (attrMap_total _ Hall) as [m Hm].
    exists m. split; [assumption|]. now apply attrMap_Ok.
  - intros pre v post -> Hpre Hv. now apply attrMap_loop_first_bad.
Qed.

Lemma attrMap_outcome_witness :
  (exists m, attrMap ["a=1"; "b=2=3"; "a=4"] = Ok m /\
             m !! "a" = Some "4" /\ m !! "b" = Some "2=3" /\ m !! "c" = None) /\
  attrMap ["a=1"; "noequals"; "alsobad"] = Err (Errorf "invalid value %s" ["noequals"]).
Proof.
  split.
  - destruct (proj1 (attrMap_outcome ["a=1"; "b=2=3"; "a=4"])) as (m & Hm & Hat).
    + repeat constructor; unfold hasEquals; vm_compute; discriminate.
    + exists m. split; [exact Hm|]. rewrite !Hat. repeat split.
  - apply (proj2 (attrMap_outcome ["a=1"; "noequals"; "alsobad"])
             ["a=1"] "noequals" ["alsobad"]); [reflexivity| |reflexivity].
    repeat constructor. unfold hasEquals. vm_compute. discriminate.
Defined.

Lemma attrMap_loop_keyValue pairs m :
  Forall (fun p => cut equals p.1 = None) pairs ->
  attrMap_loop (map keyValuePair pairs) m = Ok (insertAll pairs m).
Proof.
  intros Hall. revert m. induction Hall as [|[k v] pairs Hk _ IH]; intros m.
  - reflexivity.
  - simpl in *. unfold keyValuePair at 1. simpl.
    rewrite (attrMap_step_pair _ _ _ _ (cut_keyValue k v Hk)). simpl. apply IH.
Qed.

Lemma insertAll_lookup pairs m key :
  insertAll pairs m !! key =
    match (list_to_map (reverse pairs) : gmap string string) !! key with
    | Some v => Some v
    | None => m !! key
    end.
Proof.
  revert m. induction pairs as [|[k v] pairs IH]; intros m.
  - simpl. now rewrite lookup_empty.
  - unfold insertAll in *. simpl. rewrite IH, reverse_cons.
    destruct ((list_to_map (reverse pairs ++ [(k, v)]) : gmap string string) !! key)
      as [w|] eqn:Hw.
    + apply elem_of_list_to_map_2 in Hw as Hin.
      destruct ((list_to_map (reverse pairs) : gmap string string) !! key)
        as [w'|] eqn:Hw'.
      * rewrite (list_to_map_app (reverse pairs) [(k, v)]) in Hw.
        rewrite lookup_union_l' in Hw by (rewrite Hw'; eauto). congruence.
      * rewrite (list_to_map_app (reverse pairs) [(k, v)]) in Hw.
        rewrite lookup_union_r in Hw by assumption.
        simpl in Hw. destruct (decide (k = key)) as [->|Hne].
        -- rewrite lookup_insert_eq in Hw. now rewrite lookup_insert_eq.
        -- rewrite lookup_insert_ne, lookup_empty in Hw by assumption.
           discriminate Hw.
    + rewrite (list_to_map_app (reverse pairs) [(k, v)]) in Hw.
      apply lookup_union_None in Hw as [Hw1 Hw2]. rewrite Hw1.
      simpl in Hw2. destruct (decide (k = key)) as [->|Hne].
      * now rewrite lookup_insert_eq in Hw2.
      * now rewrite lookup_insert_ne.
Qed.

(** Round trip: the strings [k=v] made from pairs whose keys have no ['=']
    (the values may have some) are read back by [attrMap] as the map of
    these pairs, a later pair overwriting an earlier one with the same
    key. *)
Theorem attrMap_round_trip (pairs : list (string * string)) :
  Forall (fun p => cut equals p.1 = None) pairs ->
  attrMap (map keyValuePair pairs) = Ok (list_to_map (reverse pairs)).
Proof.
  intros Hall. unfold attrMap. rewrite (attrMap_loop_keyValue _ _ Hall).
  f_equal. apply map_eq. intros key. rewrite insertAll_lookup, lookup_empty.
  now destruct ((list_to_map (reverse pairs) : gmap string string) !! key).
Qed.

Lemma attrMap_round_trip_witness :
  attrMap ["output=/tmp/a=b"; "name=x"; "output=-"] =
    Ok (list_to_map [("output", "-"); ("name", "x"); ("output", "/tmp/a=b")]).
Proof.
  apply (attrMap_round_trip
           [("output", "/tmp/a=b"); ("name", "x"); ("output", "-")]).
  repeat constructor.
Defined.

(** ** More on the CSV reader and on [strings.Split] *)

Lemma csv_map_no_panic g r p : csv_map g r = Panic p -> r = Panic p.
Proof. unfold csv_map. destruct r; simpl; congruence. Qed.

Lemma readRecord_no_panic s : forall st p, readRecord st s <> Panic p.
Proof.
  induction s as [|c s IH]; intros st p.
  - destruct st; discriminate.
  - destruct st; simpl;
      repeat match goal with
             | |- context [if ?b then _ else _] => destruct b
             end;
      try discriminate; try apply IH;
      intros H; apply csv_map_no_panic in H; now apply IH in H.
Qed.

Lemma csv_Read_no_panic s p : csv_Read s <> Panic p.
Proof.
  unfold csv_Read. destruct (skipEmptyLines (normalizeNL s));
    [discriminate|apply readRecord_no_panic].
Qed.

Lemma plain_String c t :
  plain (String c t) = true <->
  c <> quote /\ c <> CR /\ c <> LF /\ plain t = true.
Proof.
  split; [apply plain_cons|]. intros (H1 & H2 & H3 & H4). simpl.
  apply Ascii.eqb_neq in H1, H2, H3. now rewrite H1, H2, H3, H4.
Qed.

Lemma normalizeNL_plain s : plain s = true -> normalizeNL s = s.
Proof.
  induction s as [|c s IH]; [reflexivity|]. intros H.
  apply plain_cons in H as (_ & Hcr & _ & H). simpl.
  rewrite (proj2 (Ascii.eqb_neq _ _) Hcr). now rewrite IH.
Qed.

Lemma skipEmptyLines_plain s : plain s = true -> skipEmptyLines s = s.
Proof.
  destruct s as [|c s]; [reflexivity|]. intros H.
  apply plain_cons in H as (_ & _ & Hlf & _). simpl.
  now rewrite (proj2 (Ascii.eqb_neq _ _) Hlf).
Qed.

Lemma Split_comma_push c s :
  Ascii.eqb c comma = false -> Split_comma (String c s) = push c (Split_comma s).
Proof. intros H. simpl. now rewrite H. Qed.

(** On text without quotes and line ends the reader splits at the commas. *)
Lemma readRecord_plain s :
  plain s = true ->
  readRecord FieldStart s = Ok (Split_comma s) /\
  readRecord Unquoted s = Ok (Split_comma s).
Proof.
  induction s as [|c s IH]; [now split|]. intros H.
  apply plain_cons in H as (Hq & _ & Hlf & H). destruct (IH H) as [IH1 IH2].
  simpl readRecord.
  rewrite (proj2 (Ascii.eqb_neq _ _) Hq), (proj2 (Ascii.eqb_neq _ _) Hlf).
  destruct (Ascii.eqb c comma) eqn:Hc.
  - rewrite IH1. simpl. now rewrite Hc.
  - rewrite IH2, (Split_comma_push _ _ Hc). now split.
Qed.

Lemma csv_Read_plain s :
  plain s = true -> s <> EmptyString -> csv_Read s = Ok (Split_comma s).
Proof.
  intros Hpl Hne. unfold csv_Read.
  rewrite (normalizeNL_plain _ Hpl), (skipEmptyLines_plain _ Hpl).
  destruct s as [|c s]; [congruence|]. now apply readRecord_plain.
Qed.

Lemma noComma_String c t :
  noComma (String c t) = true <-> c <> comma /\ noComma t = true.
Proof.
  simpl. rewrite andb_true_iff, negb_true_iff. now rewrite Ascii.eqb_neq.
Qed.

Lemma Split_comma_noComma t : noComma t = true -> Split_comma t = [t].
Proof.
  induction t as [|c t IH]; [reflexivity|]. intros H.
  apply noComma_String in H as [Hc H].
  rewrite Split_comma_push by now apply Ascii.eqb_neq. now rewrite IH.
Qed.

Lemma Split_comma_app a b :
  noComma a = true ->
  Split_comma (a +:+ String comma b) = a :: Split_comma b.
Proof.
  induction a as [|c a IH]; intros H.
  - reflexivity.
  - apply noComma_String in H as [Hc H]. rewrite append_String.
    rewrite Split_comma_push by now apply Ascii.eqb_neq. now rewrite IH.
Qed.

Lemma Join_comma_cons f g rest :
  Join_comma (f :: g :: rest) = f +:+ String comma (Join_comma (g :: rest)).
Proof. reflexivity. Qed.

Lemma Split_comma_Join fields :
  Forall (fun f => noComma f = true) fields -> fields <> [] ->
  Split_comma (Join_comma fields) = fields.
Proof.
  intros Hall. induction Hall as [|f fields Hf Hall IH]; [congruence|].
  intros _. destruct fields as [|g rest].
  - simpl. now apply Split_comma_noComma.
  - rewrite Join_comma_cons, (Split_comma_app _ _ Hf). f_equal.
    now apply IH.
Qed.

Lemma Split_comma_not_nil s : Split_comma s <> [].
Proof.
  induction s as [|c s IH]; [discriminate|]. simpl.
  destruct (Ascii.eqb c comma); [discriminate|].
  now destruct (Split_comma s).
Qed.

(** [strings.Split] at the commas gives at least one part, parts without
    commas, and parts that [strings.Join] puts back together. *)
Lemma Split_comma_parts s :
  Split_comma s <> [] /\
  Forall (fun f => noComma f = true) (Split_comma s) /\
  Join_comma (Split_comma s) = s.
Proof.
  split; [apply Split_comma_not_nil|].
  induction s as [|c s IH]; [split; [repeat constructor|reflexivity]|].
  destruct IH as [IHall IHjoin]. simpl. destruct (Ascii.eqb_spec c comma) as [->|Hc].
  - split; [now constructor|].
    pose proof (Split_comma_not_nil s) as Hne.
    destruct (Split_comma s) as [|g rest]; [congruence|].
    rewrite Join_comma_cons, IHjoin. reflexivity.
  - pose proof (Split_comma_not_nil s) as Hne.
    destruct (Split_comma s) as [|g rest]; [congruence|].
    apply Forall_cons in IHall as [Hg Hrest]. split.
    + constructor; [|assumption]. apply noComma_String. now split.
    + destruct rest as [|h rest].
      * simpl in *. now rewrite IHjoin.
      * rewrite Join_comma_cons in *. rewrite append_String. now rewrite IHjoin.
Qed.

Lemma plain_app a b : plain (a +:+ b) = plain a && plain b.
Proof.
  induction a as [|c a IH]; [reflexivity|].
  rewrite append_String. simpl. rewrite IH. now rewrite !andb_assoc.
Qed.

Lemma plain_Join fields :
  Forall (fun f => plain f = true) fields -> plain (Join_comma fields) = true.
Proof.
  intros Hall. induction Hall as [|f fields Hf Hall IH]; [reflexivity|].
  destruct fields as [|g rest]; [assumption|].
  rewrite Join_comma_cons, plain_app, Hf. cbn [andb].
  apply plain_String. repeat split; try discriminate. exact IH.
Qed.

Lemma simple_true t : simple t = true <-> plain t = true /\ noComma t = true.
Proof. unfold simple. apply andb_true_iff. Qed.

(** The reader gives back the fields that were joined with commas, when
    they are free of quotes, line ends and commas. *)
Lemma csv_Read_Join fields :
  Forall (fun f => simple f = true) fields ->
  Join_comma fields <> EmptyString ->
  csv_Read (Join_comma fields) = Ok fields.
Proof.
  intros Hall Hne.
  assert (fields <> []) as Hnil by (intros ->; now apply Hne).
  rewrite csv_Read_plain; [|apply plain_Join|assumption].
  - f_equal. apply Split_comma_Join; [|assumption].
    eapply Forall_impl; [exact Hall|]. intros f Hf. now apply simple_true in Hf.
  - eapply Forall_impl; [exact Hall|]. intros f Hf. now apply simple_true in Hf.
Qed.

(** ** More on the cache option parsers *)

Lemma lastValue_Some fold key fields v :
  lastValue fold key fields = Some v ->
  exists field k,
    field ∈ fields /\ cut equals field = Some (k, v) /\ fold k = key.
Proof.
  induction fields as [|f fields IH]; simpl; [discriminate|].
  destruct (lastValue fold key fields) as [w|].
  - intros [= ->]. destruct (IH eq_refl) as (field & k & Hin & Hc & Hk).
    exists field, k. split; [now right|now split].
  - destruct (cut equals f) as [[k x]|] eqn:Hf; [|discriminate].
    destruct (String.eqb_spec (fold k) key) as [Hk|]; [|discriminate].
    intros [= ->]. exists f, k. split; [now left|now split].
Qed.

Lemma parseExportCacheCSV_cases {U : Unicode} (s : string) (fields : list string) :
  csv_Read s = Ok fields -> Forall hasEquals fields ->
  (default EmptyString (lastValue ToLower "type" fields) = EmptyString ->
   parseExportCacheCSV s = Err (New "--export-cache requires type=<type>")) /\
  (default EmptyString (lastValue ToLower "type" fields) <> EmptyString ->
   exists attrs,
     parseExportCacheCSV s =
       Ok {| Type_ := default EmptyString (lastValue ToLower "type" fields);
             Attrs := attrs |} /\
     attrs !! "type" = None /\
     attrs !! "mode" = Some (default "min" (lastValue ToLower "mode" fields)) /\
     forall key, key <> "type" -> key <> "mode" ->
                 attrs !! key = lastValue ToLower key fields).
Proof.
  intros Hs Hall. destruct (cacheFields_total _ emptyEntry Hall) as [ex Hex].
  destruct (cacheFields_Ok _ _ _ Hex) as (_ & Hty & Hat). simpl in Hty.
  unfold parseExportCacheCSV. rewrite Hs. simpl. rewrite Hex. simpl.
  rewrite Hty. split.
  - intros ->. reflexivity.
  - intros Hne. rewrite (proj2 (String.eqb_neq _ _) Hne).
    exists (defaultMode (Attrs ex)). split; [reflexivity|].
    rewrite !defaultMode_lookup. simpl. rewrite !Hat. simpl.
    split; [apply lookup_empty|]. split.
    + rewrite lookup_empty. now destruct (lastValue ToLower "mode" fields).
    + intros key Hk Hm.
      rewrite defaultMode_lookup, (proj2 (String.eqb_neq _ _) Hm).
      rewrite Hat, (proj2 (String.eqb_neq _ _) Hk). cbn [emptyEntry Attrs].
      rewrite lookup_empty. now destruct (lastValue ToLower key fields).
Qed.

(** [parseExportCacheCSV] on a record whose fields all have an ['=']: with
    no [type] field, or an empty value in the last one, the error that asks
    for a type; otherwise the entry of that type, whose attributes have no
    key [type], have the [mode] of the record or ["min"], and for every
    other key the value of the last field with this folded key. *)
Theorem parseExportCacheCSV_outcome {U : Unicode} (s : string) (fields : list string) :
  csv_Read s = Ok fields -> Forall hasEquals fields ->
  (default EmptyString (lastValue ToLower "type" fields) = EmptyString ->
   parseExportCacheCSV s = Err (New "--export-cache requires type=<type>")) /\
  (default EmptyString (lastValue ToLower "type" fields) <> EmptyString ->
   exists attrs,
     parseExportCacheCSV s =
       Ok {| Type_ := default EmptyString (lastValue ToLower "type" fields);
             Attrs := attrs |} /\
     attrs !! "type" = None /\
     attrs !! "mode" = Some (default "min" (lastValue ToLower "mode" fields)) /\
     forall key, key <> "type" -> key <> "mode" ->
                 attrs !! key = lastValue ToLower key fields).
Proof.
  intros Hs Hall. split; intros Hty.
  - now apply (parseExportCacheCSV_cases s fields Hs Hall).
  - now apply (parseExportCacheCSV_cases s fields Hs Hall).
Qed.

Lemma parseExportCacheCSV_outcome_witness :
  parseExportCacheCSV "ref=example.com/r,type=" =
    Err (New "--export-cache requires type=<type>") /\
  exists attrs,
    parseExportCacheCSV "Ref=a,type=local,REF=b" =
      Ok {| Type_ := "local"; Attrs := attrs |} /\
    attrs !! "type" = None /\ attrs !! "mode" = Some "min" /\
    attrs !! "ref" = Some "b".
Proof.
  split.
  - apply (proj1 (parseExportCacheCSV_outcome "ref=example.com/r,type="
                    ["ref=example.com/r"; "type="] eq_refl
                    ltac:(repeat constructor; unfold hasEquals; vm_compute; discriminate))).
    reflexivity.
  - destruct (proj2 (parseExportCacheCSV_outcome "Ref=a,type=local,REF=b"
                       ["Ref=a"; "type=local"; "REF=b"] eq_refl
                       ltac:(repeat constructor; unfold hasEquals; vm_compute; discriminate)))
      as (attrs & Hp & Ht & Hm & Hk); [discriminate|].
    exists attrs. split; [exact Hp|]. split; [exact Ht|]. split; [exact Hm|].
    rewrite Hk by discriminate. reflexivity.
Defined.

Lemma parseImportCacheCSV_cases {U : Unicode} (s : string) (fields : list string) :
  csv_Read s = Ok fields -> Forall hasEquals fields ->
  (default EmptyString (lastValue ToLower "type" fields) = EmptyString ->
   parseImportCacheCSV s = Err (New "--import-cache requires type=<type>")) /\
  (default EmptyString (lastValue ToLower "type" fields) <> EmptyString ->
   exists attrs,
     parseImportCacheCSV s =
       Ok {| Type_ := default EmptyString (lastValue ToLower "type" fields);
             Attrs := attrs |} /\
     attrs !! "type" = None /\
     (forall key, key <> "type" -> attrs !! key = lastValue ToLower key fields) /\
     (forall key v, attrs !! key = Some v ->
        exists field k, field ∈ fields /\ cut equals field = Some (k, v) /\
                        ToLower k = key)).
Proof.
  intros Hs Hall. destruct (cacheFields_total _ emptyEntry Hall) as [im Him].
  destruct (cacheFields_Ok _ _ _ Him) as (_ & Hty & Hat). simpl in Hty.
  unfold parseImportCacheCSV. rewrite Hs. simpl. rewrite Him. simpl.
  rewrite Hty. split.
  - intros ->. reflexivity.
  - intros Hne. rewrite (proj2 (String.eqb_neq _ _) Hne).
    exists (Attrs im). split; [destruct im; simpl in *; now rewrite Hty|].
    assert (forall key, key <> "type" ->
                        Attrs im !! key = lastValue ToLower key fields) as Hkey.
    { intros key Hk. rewrite Hat, (proj2 (String.eqb_neq _ _) Hk).
      cbn [emptyEntry Attrs]. rewrite lookup_empty. now destruct (lastValue ToLower key fields). }
    split; [rewrite Hat; apply lookup_empty|]. split; [exact Hkey|].
    intros key v Hv. destruct (String.eqb_spec key "type") as [->|Hk].
    + rewrite Hat in Hv. simpl in Hv. now rewrite lookup_empty in Hv.
    + rewrite (Hkey key Hk) in Hv. now apply lastValue_Some in Hv.
Qed.

(** [parseImportCacheCSV] does the same without a default for [mode]: every
    attribute of the entry is the value of the last field with this folded
    key, so every attribute comes from a field of the record. *)
Theorem parseImportCacheCSV_outcome {U : Unicode} (s : string) (fields : list string) :
  csv_Read s = Ok fields -> Forall hasEquals fields ->
  (default EmptyString (lastValue ToLower "type" fields) = EmptyString ->
   parseImportCacheCSV s = Err (New "--import-cache requires type=<type>")) /\
  (default EmptyString (lastValue ToLower "type" fields) <> EmptyString ->
   exists attrs,
     parseImportCacheCSV s =
       Ok {| Type_ := default EmptyString (lastValue ToLower "type" fields);
             Attrs := attrs |} /\
     attrs !! "type" = None /\
     (forall key, key <> "type" -> attrs !! key = lastValue ToLower key fields) /\
     (forall key v, attrs !! key = Some v ->
        exists field k, field ∈ fields /\ cut equals field = Some (k, v) /\
                        ToLower k = key)).
Proof.
  intros Hs Hall. split; intros Hty.
  - now apply (parseImportCacheCSV_cases s fields Hs Hall).
  - now apply (parseImportCacheCSV_cases s fields Hs Hall).
Qed.

Lemma parseImportCacheCSV_outcome_witness :
  parseImportCacheCSV "ref=example.com/r" =
    Err (New "--import-cache requires type=<type>") /\
  exists attrs,
    parseImportCacheCSV "type=local,SRC=/a,src=/b" =
      Ok {| Type_ := "local"; Attrs := attrs |} /\
    attrs !! "src" = Some "/b" /\ attrs !! "mode" = None.
Proof.
  split.
  - apply (proj1 (parseImportCacheCSV_outcome "ref=example.com/r"
                    ["ref=example.com/r"] eq_refl
                    ltac:(repeat constructor; unfold hasEquals; vm_compute; discriminate))).
    reflexivity.
  - destruct (proj2 (parseImportCacheCSV_outcome "type=local,SRC=/a,src=/b"
                       ["type=local"; "SRC=/a"; "src=/b"] eq_refl
                       ltac:(repeat constructor; unfold hasEquals; vm_compute; discriminate)))
      as (attrs & Hp & _ & Hk & _); [discriminate|].
    exists attrs. split; [exact Hp|].
    rewrite !Hk by discriminate. split; reflexivity.
Defined.

Lemma warnings_cons_legacy msg spec specs :
  legacy spec = true -> warnings msg (spec :: specs) = Warnf msg :: warnings msg specs.
Proof. intros H. unfold warnings. simpl. now rewrite H. Qed.

Lemma warnings_cons_structured msg spec specs :
  legacy spec = false -> warnings msg (spec :: specs) = warnings msg specs.
Proof. intros H. unfold warnings. simpl. now rewrite H. Qed.

Lemma parseImportCache_loop_Ok {U : Unicode} specs imports log log' entries :
  parseImportCache_loop specs imports log = (log', Ok entries) ->
  exists new,
    entries = imports ++ new /\ Forall2 importOf specs new /\
    log' = log ++ warnings importCacheDeprecated specs.
Proof.
  revert imports log. induction specs as [|spec specs IH]; intros imports log.
  - simpl. intros [= <- <-]. exists []. now rewrite !app_nil_r.
  - simpl. destruct (legacy spec) eqn:Hleg.
    + intros H. apply IH in H as (new & -> & Hnew & ->).
      exists (legacyImport spec :: new). rewrite <- !app_assoc. split; [reflexivity|].
      split; [|now rewrite (warnings_cons_legacy _ _ _ Hleg)].
      constructor; [|assumption]. unfold importOf. now rewrite Hleg.
    + destruct (parseImportCacheCSV spec) as [im| |] eqn:Him; try discriminate.
      intros H. apply IH in H as (new & -> & Hnew & ->).
      exists (im :: new). rewrite <- !app_assoc. split; [reflexivity|].
      split; [|now rewrite (warnings_cons_structured _ _ _ Hleg)].
      constructor; [|assumption]. unfold importOf. now rewrite Hleg.
Qed.

Lemma parseImportCache_loop_total {U : Unicode} specs entries : forall imports log,
  Forall2 importOf specs entries ->
  parseImportCache_loop specs imports log =
    (log ++ warnings importCacheDeprecated specs, Ok (imports ++ entries)).
Proof.
  intros imports log H. revert imports log.
  induction H as [|spec im specs entries Him _ IH]; intros imports log.
  - simpl. now rewrite !app_nil_r.
  - simpl. unfold importOf in Him. destruct (legacy spec) eqn:Hleg.
    + subst im. rewrite IH, <- !app_assoc.
      now rewrite (warnings_cons_legacy _ _ _ Hleg).
    + rewrite Him, IH, <- !app_assoc.
      now rewrite (warnings_cons_structured _ _ _ Hleg).
Qed.

(** [parseImportCache] returns a list exactly when every structured spec
    is accepted by [parseImportCacheCSV]: one entry for each spec, in the
    order of the specs, a legacy spec giving the kind ["registry"] and the
    single attribute [ref] (no [mode]), and one deprecation warning for
    each legacy spec. *)
Theorem parseImportCache_entries {U : Unicode} (specs : list string)
    (log : list log_entry) (entries : list CacheOptionsEntry) :
  parseImportCache specs = (log, Ok entries) <->
  Forall2 importOf specs entries /\
  log = warnings importCacheDeprecated specs.
Proof.
  unfold parseImportCache. split.
  - intros H. apply parseImportCache_loop_Ok in H as (new & -> & Hnew & ->).
    now split.
  - intros [H ->]. now rewrite (parseImportCache_loop_total _ _ [] [] H).
Qed.

Lemma parseImportCache_entries_witness :
  parseImportCache ["example.com/cache"; "type=local,src=/c"] =
    ([Warnf importCacheDeprecated],
     Ok [legacyImport "example.com/cache";
         {| Type_ := "local"; Attrs := {["src" := "/c"]} |}]).
Proof.
  apply (proj2 (parseImportCache_entries _ _ _)). split; [|reflexivity].
  repeat constructor.
Defined.

Lemma parseExportCache_loop_Ok {U : Unicode} opts specs exports log log' entries :
  parseExportCache_loop opts specs exports log = (log', Ok entries) ->
  exists new,
    entries = exports ++ new /\ Forall2 (exportOf opts) specs new /\
    log' = log ++ warnings exportCacheDeprecated specs.
Proof.
  revert exports log. induction specs as [|spec specs IH]; intros exports log.
  - simpl. intros [= <- <-]. exists []. now rewrite !app_nil_r.
  - simpl. destruct (legacy spec) eqn:Hleg.
    + destruct (attrMap opts) as [attrs| |] eqn:Hattrs; try discriminate.
      intros H. apply IH in H as (new & -> & Hnew & ->).
      eexists (_ :: new). rewrite <- !app_assoc. split; [reflexivity|].
      split; [|now rewrite (warnings_cons_legacy _ _ _ Hleg)].
      constructor; [|assumption]. unfold exportOf. rewrite Hleg.
      now exists attrs.
    + destruct opts as [|o opts]; [|discriminate]. simpl.
      destruct (parseExportCacheCSV spec) as [ex| |] eqn:Hex; try discriminate.
      intros H. apply IH in H as (new & -> & Hnew & ->).
      exists (ex :: new). rewrite <- !app_assoc. split; [reflexivity|].
      split; [|now rewrite (warnings_cons_structured _ _ _ Hleg)].
      constructor; [|assumption]. unfold exportOf. now rewrite Hleg.
Qed.

Lemma parseExportCache_loop_total {U : Unicode} opts specs entries : forall exports log,
  Forall2 (exportOf opts) specs entries ->
  parseExportCache_loop opts specs exports log =
    (log ++ warnings exportCacheDeprecated specs, Ok (exports ++ entries)).
Proof.
  intros exports log H. revert exports log.
  induction H as [|spec ex specs entries Hex _ IH]; intros exports log.
  - simpl. now rewrite !app_nil_r.
  - simpl. unfold exportOf in Hex. destruct (legacy spec) eqn:Hleg.
    + destruct Hex as (attrs & Hattrs & ->). rewrite Hattrs, IH, <- !app_assoc.
      now rewrite (warnings_cons_legacy _ _ _ Hleg).
    + destruct Hex as [-> Hex]. simpl. rewrite Hex, IH, <- !app_assoc.
      now rewrite (warnings_cons_structured _ _ _ Hleg).
Qed.

(** [parseExportCache] returns a list exactly when the companion list is
    empty or there is one spec, every structured spec comes without a
    companion list and is accepted by [parseExportCacheCSV], and the
    companion list of every legacy spec is accepted by [attrMap]; the list
    has one entry for each spec, in the order of the specs, and the log one
    deprecation warning for each legacy spec. *)
Theorem parseExportCache_entries {U : Unicode} (specs opts : list string)
    (log : list log_entry) (entries : list CacheOptionsEntry) :
  parseExportCache specs opts = (log, Ok entries) <->
  (opts = [] \/ length specs = 1) /\
  Forall2 (exportOf opts) specs entries /\
  log = warnings exportCacheDeprecated specs.
Proof.
  unfold parseExportCache. split.
  - destruct ((0 <? length opts)%nat && negb (length specs =? 1)%nat) eqn:Hc;
      [discriminate|]. intros H.
    apply parseExportCache_loop_Ok in H as (new & -> & Hnew & ->).
    split; [|now split].
    apply andb_false_iff in Hc as [Hc|Hc].
    + left. destruct opts; [reflexivity|discriminate Hc].
    + right. apply negb_false_iff in Hc. now apply Nat.eqb_eq in Hc.
  - intros (Hc & H & ->).
    assert ((0 <? length opts)%nat && negb (length specs =? 1)%nat = false) as ->.
    { destruct Hc as [-> | ->]; [reflexivity|]. apply andb_false_r. }
    now rewrite (parseExportCache_loop_total _ _ _ [] [] H).
Qed.

Lemma parseExportCache_entries_witness :
  parseExportCache ["type=local,dest=/c"; "example.com/cache"] [] =
    ([Warnf exportCacheDeprecated],
     Ok [{| Type_ := "local";
            Attrs := defaultMode {["dest" := "/c"]} |};
         {| Type_ := "registry";
            Attrs := <["ref" := "example.com/cache"]> (defaultMode ∅) |}]).
Proof.
  apply (proj2 (parseExportCache_entries _ _ _ _)).
  split; [now left|]. split; [|reflexivity].
  constructor; [|constructor; [|constructor]].
  - split; reflexivity.
  - exists ∅. split; reflexivity.
Defined.

(** A companion option without ['='] makes [parseExportCache] fail for a
    legacy spec, with the error of [attrMap], after the deprecation
    warning was logged. *)
Theorem parseExportCache_bad_companion {U : Unicode} (spec : string)
    (pre post : list string) (v : string) :
  legacy spec = true ->
  Forall hasEquals pre -> cut equals v = None ->
  parseExportCache [spec] (pre ++ v :: post) =
    ([Warnf exportCacheDeprecated], Err (Errorf "invalid value %s" [v])).
Proof.
  intros Hleg Hpre Hv. unfold parseExportCache.
  simpl length. rewrite andb_false_r. simpl. rewrite Hleg.
  unfold attrMap. now rewrite (attrMap_loop_first_bad _ _ _ _ Hpre Hv).
Qed.

Lemma parseExportCache_bad_companion_witness :
  parseExportCache ["example.com/cache"] ["mode=max"; "compress"] =
    ([Warnf exportCacheDeprecated], Err (Errorf "invalid value %s" ["compress"])).
Proof.
  apply (parseExportCache_bad_companion "example.com/cache" ["mode=max"] []
           "compress"); [reflexivity| |reflexivity].
  repeat constructor. unfold hasEquals. vm_compute. discriminate.
Defined.

(** ** A legacy spec and the structured spec that replaces it *)

Lemma noComma_app a b : noComma (a +:+ b) = noComma a && noComma b.
Proof.
  induction a as [|c a IH]; [reflexivity|].
  rewrite append_String. simpl. rewrite IH. now rewrite andb_assoc.
Qed.

Lemma simple_keyValue_ref ref :
  simple ref = true -> simple (keyValue "ref" ref) = true.
Proof.
  intros H. apply simple_true in H as [Hp Hc]. apply simple_true.
  unfold keyValue. rewrite plain_app, noComma_app. split.
  - apply andb_true_iff. split; [reflexivity|].
    apply plain_String. repeat split; try discriminate. exact Hp.
  - apply andb_true_iff. split; [reflexivity|].
    apply noComma_String. split; [discriminate|exact Hc].
Qed.

Lemma movable_hasEquals {U : Unicode} opts : Forall movable opts -> Forall hasEquals opts.
Proof.
  intros H. eapply Forall_impl; [exact H|].
  intros o (_ & k & v & Hc & _). unfold hasEquals. congruence.
Qed.

Lemma movable_lastValue {U : Unicode} key opts :
  Forall movable opts ->
  lastValue ToLower key opts = lastValue id key opts /\
  lastValue id "type" opts = None /\ lastValue id "ref" opts = None.
Proof.
  induction 1 as [|o opts (_ & k & v & Hc & Hk & Hty & Href) _ (IH & IHt & IHr)];
    [now repeat split|].
  simpl. rewrite IH, IHt, IHr, Hc, Hk. unfold id.
  rewrite (proj2 (String.eqb_neq _ _) Hty), (proj2 (String.eqb_neq _ _) Href).
  now repeat split.
Qed.

Lemma structuredSpec_fields {U : Unicode} ref opts :
  simple ref = true -> Forall movable opts ->
  csv_Read (structuredSpec ref opts) =
    Ok ("type=registry" :: keyValue "ref" ref :: opts) /\
  Forall hasEquals ("type=registry" :: keyValue "ref" ref :: opts) /\
  legacy (structuredSpec ref opts) = false.
Proof.
  intros Hs Hopts.
  assert (csv_Read (structuredSpec ref opts) =
          Ok ("type=registry" :: keyValue "ref" ref :: opts)) as Hread.
  { apply csv_Read_Join.
    - constructor; [reflexivity|]. constructor; [now apply simple_keyValue_ref|].
      eapply Forall_impl; [exact Hopts|]. now intros o [Ho _].
    - rewrite Join_comma_cons. discriminate. }
  split; [exact Hread|]. split.
  - constructor; [unfold hasEquals; vm_compute; discriminate|].
    constructor; [|now apply movable_hasEquals].
    unfold hasEquals. now rewrite (cut_keyValue "ref" ref eq_refl).
  - apply (type_key_not_legacy _ _ "type=registry" "registry" Hread);
      [now left|reflexivity].
Qed.

Lemma structuredSpec_lastValue {U : Unicode} key ref opts :
  Forall movable opts ->
  lastValue ToLower key ("type=registry" :: keyValue "ref" ref :: opts) =
    match lastValue id key opts with
    | Some v => Some v
    | None => if String.eqb "ref" key then Some ref
              else if String.eqb "type" key then Some "registry" else None
    end.
Proof.
  intros Hopts. destruct (movable_lastValue key opts Hopts) as (Hl & _ & _).
  cbn [lastValue]. rewrite Hl. destruct (lastValue id key opts); [reflexivity|].
  rewrite (cut_keyValue "ref" ref eq_refl).
  change (ToLower "ref") with "ref".
  destruct (String.eqb "ref" key); [reflexivity|].
  change (cut equals "type=registry") with (Some ("type", "registry")).
  now change (ToLower "type") with "type".
Qed.

Lemma parseExportCache_one_structured {U : Unicode} spec ex :
  legacy spec = false -> parseExportCacheCSV spec = Ok ex ->
  parseExportCache [spec] [] = ([], Ok [ex]).
Proof. intros Hl He. unfold parseExportCache. simpl. now rewrite Hl, He. Qed.

Lemma parseImportCache_one_structured {U : Unicode} spec im :
  legacy spec = false -> parseImportCacheCSV spec = Ok im ->
  parseImportCache [spec] = ([], Ok [im]).
Proof. intros Hl Hi. unfold parseImportCache. simpl. now rewrite Hl, Hi. Qed.

(** The spec [type=registry,ref=<ref>,<opt>=<optval>,...] that the
    deprecation warning recommends gives the same entry as the legacy spec
    [ref] with the companion options, when [ref] is a legacy spec free of
    quotes, line ends and commas and the options are movable. *)
Theorem export_legacy_as_structured {U : Unicode} (ref : string) (opts : list string) :
  legacy ref = true -> simple ref = true -> Forall movable opts ->
  exists ex,
    parseExportCache [ref] opts = ([Warnf exportCacheDeprecated], Ok [ex]) /\
    parseExportCache [structuredSpec ref opts] [] = ([], Ok [ex]).
Proof.
  intros Hleg Hs Hopts.
  destruct (structuredSpec_fields ref opts Hs Hopts) as (Hread & Hall & Hstruct).
  destruct (attrMap_total _ (movable_hasEquals _ Hopts)) as [m Hm].
  destruct (attrMap_Ok _ _ Hm) as [_ Hat].
  destruct (movable_lastValue "type" opts Hopts) as (_ & Hnt & Hnr).
  assert (lastValue ToLower "type"
            ("type=registry" :: keyValue "ref" ref :: opts) = Some "registry")
    as Hty.
  { rewrite (structuredSpec_lastValue _ _ _ Hopts), Hnt. reflexivity. }
  destruct (proj2 (parseExportCacheCSV_cases _ _ Hread Hall))
    as (attrs & Hcsv & Hat_type & Hat_mode & Hat_key).
  { rewrite Hty. discriminate. }
  rewrite Hty in Hcsv. simpl in Hcsv.
  exists {| Type_ := "registry"; Attrs := <["ref" := ref]> (defaultMode m) |}.
  split.
  - unfold parseExportCache. simpl length. rewrite andb_false_r. simpl.
    now rewrite Hleg, Hm.
  - apply (parseExportCache_one_structured _ _ Hstruct). rewrite Hcsv.
    do 2 f_equal. apply map_eq. intros key.
    destruct (String.eqb_spec "ref" key) as [<-|Href].
    { rewrite lookup_insert_eq, Hat_key by discriminate.
      rewrite (structuredSpec_lastValue _ _ _ Hopts), Hnr. reflexivity. }
    rewrite lookup_insert_ne, defaultMode_lookup by assumption.
    destruct (String.eqb_spec key "mode") as [->|Hmode].
    { rewrite Hat_mode, Hat, (structuredSpec_lastValue _ _ _ Hopts).
      now destruct (lastValue id "mode" opts). }
    destruct (String.eqb_spec "type" key) as [<-|Htype].
    { now rewrite Hat_type, Hat, Hnt. }
    rewrite Hat_key, Hat, (structuredSpec_lastValue _ _ _ Hopts) by congruence.
    rewrite (proj2 (String.eqb_neq _ _) Href), (proj2 (String.eqb_neq _ _) Htype).
    now destruct (lastValue id key opts).
Qed.

Lemma export_legacy_as_structured_witness :
  exists ex,
    parseExportCache ["example.com/cache:latest"] ["mode=max"; "compression=gzip"] =
      ([Warnf exportCacheDeprecated], Ok [ex]) /\
    parseExportCache
      ["type=registry,ref=example.com/cache:latest,mode=max,compression=gzip"] [] =
      ([], Ok [ex]).
Proof.
  apply (export_legacy_as_structured "example.com/cache:latest"
           ["mode=max"; "compression=gzip"]); [reflexivity|reflexivity|].
  repeat constructor; try discriminate;
    eexists _, _; (split; [reflexivity|]); repeat split; discriminate.
Defined.

(** The same for [--import-cache]: the legacy spec [ref] and the spec
    [type=registry,ref=<ref>] give the same entry. *)
Theorem import_legacy_as_structured {U : Unicode} (ref : string) :
  legacy ref = true -> simple ref = true ->
  parseImportCache [ref] =
    ([Warnf importCacheDeprecated], Ok [legacyImport ref]) /\
  parseImportCache [structuredSpec ref []] = ([], Ok [legacyImport ref]).
Proof.
  intros Hleg Hs.
  destruct (structuredSpec_fields ref [] Hs (List.Forall_nil movable)) as (Hread & Hall & Hstruct).
  assert (lastValue ToLower "type" ["type=registry"; keyValue "ref" ref] =
          Some "registry") as Hty.
  { now rewrite (structuredSpec_lastValue _ _ _ (List.Forall_nil movable)). }
  destruct (proj2 (parseImportCacheCSV_cases _ _ Hread Hall))
    as (attrs & Hcsv & Hat_type & Hat_key & _).
  { rewrite Hty. discriminate. }
  rewrite Hty in Hcsv. simpl in Hcsv. split.
  - unfold parseImportCache. simpl. now rewrite Hleg.
  - apply (parseImportCache_one_structured _ _ Hstruct). rewrite Hcsv.
    unfold legacyImport. do 2 f_equal. apply map_eq. intros key.
    destruct (String.eqb_spec "ref" key) as [<-|Href].
    { rewrite lookup_singleton_eq, Hat_key by discriminate.
      now rewrite (structuredSpec_lastValue _ _ _ (List.Forall_nil movable)). }
    rewrite lookup_singleton_ne by assumption.
    destruct (String.eqb_spec "type" key) as [<-|Htype]; [assumption|].
    rewrite Hat_key, (structuredSpec_lastValue _ _ _ (List.Forall_nil movable)) by congruence.
    cbn [lastValue]. now rewrite (proj2 (String.eqb_neq _ _) Href),
                           (proj2 (String.eqb_neq _ _) Htype).
Qed.

Lemma import_legacy_as_structured_witness :
  parseImportCache ["example.com/cache"] =
    ([Warnf importCacheDeprecated], Ok [legacyImport "example.com/cache"]) /\
  parseImportCache ["type=registry,ref=example.com/cache"] =
    ([], Ok [legacyImport "example.com/cache"]).
Proof.
  apply (import_legacy_as_structured "example.com/cache"); reflexivity.
Defined.

(** ** More on [parseSecret] *)

Lemma parseSecret_field_no_panic {U : Unicode} fs field p :
  parseSecret_field fs field <> Panic p.
Proof.
  destruct (cut equals field) as [[k v]|] eqn:Hc.
  - rewrite (parseSecret_field_pair _ _ _ _ Hc).
    destruct (String.eqb (ToLower k) "type");
      [destruct (String.eqb v "file"); discriminate|].
    destruct (String.eqb (ToLower k) "id"); [discriminate|].
    destruct (String.eqb (ToLower k) "source" || String.eqb (ToLower k) "src");
      discriminate.
  - now rewrite (parseSecret_field_no_equals _ _ Hc).
Qed.

Lemma parseSecret_fields_no_panic {U : Unicode} fields fs p :
  parseSecret_fields fields fs <> Panic p.
Proof.
  revert fs. induction fields as [|f fields IH]; intros fs; [discriminate|].
  simpl. destruct (parseSecret_field fs f) as [fs'| |q] eqn:Hf; simpl.
  - apply IH.
  - discriminate.
  - now apply parseSecret_field_no_panic in Hf.
Qed.

Lemma attrMap_loop_no_panic sl m p : attrMap_loop sl m <> Panic p.
Proof.
  revert m. induction sl as [|v sl IH]; intros m; [discriminate|]. simpl.
  destruct (cut equals v) as [[k x]|] eqn:Hc.
  - rewrite (attrMap_step_pair _ _ _ _ Hc). apply IH.
  - rewrite (attrMap_step_no_equals _ _ Hc). discriminate.
Qed.

(** [parseSecret] and [attrMap] look at the length of [parts] before they
    read [parts[1]]: whatever the input, they return a value or an error
    and never panic. *)
Theorem parseSecret_attrMap_no_panic {U : Unicode} (p : panic) :
  (forall value, parseSecret value <> Panic p) /\
  (forall sl, attrMap sl <> Panic p).
Proof.
  split.
  - intros value. unfold parseSecret.
    destruct (csv_Read value) as [fields|e|q] eqn:Hr.
    + apply parseSecret_fields_no_panic.
    + discriminate.
    + now apply csv_Read_no_panic in Hr.
  - intros sl. apply attrMap_loop_no_panic.
Qed.

Lemma secretKey_cases {U : Unicode} k :
  (secretKey k = "src" <-> ToLower k = "source" \/ ToLower k = "src") /\
  (secretKey k = "id" <-> ToLower k = "id") /\
  (secretKey k = "type" <-> ToLower k = "type").
Proof.
  unfold secretKey. destruct (String.eqb_spec (ToLower k) "source") as [He|Hne].
  - rewrite He. intuition (try discriminate; try congruence).
  - intuition (try discriminate; try congruence).
Qed.

(** What the loop of [parseSecret] computes, when it returns. *)
Lemma parseSecret_fields_Ok {U : Unicode} fields fs fs' :
  parseSecret_fields fields fs = Ok fs' <->
  Forall secretField fields /\
  ID fs' = default (ID fs) (lastValue secretKey "id" fields) /\
  FilePath fs' = default (FilePath fs) (lastValue secretKey "src" fields).
Proof.
  revert fs. induction fields as [|f fields IH]; intros fs; simpl.
  - split.
    + intros [= <-]. now repeat split.
    + intros (_ & Hid & Hp). destruct fs, fs'; simpl in *. now subst.
  - destruct (cut equals f) as [[k v]|] eqn:Hf.
    2:{ rewrite (parseSecret_field_no_equals _ _ Hf). simpl. split; [discriminate|].
        intros (Hall & _). apply Forall_cons in Hall as [(k & v & Hc & _) _].
        congruence. }
    rewrite (parseSecret_field_pair _ _ _ _ Hf).
    destruct (secretKey_cases k) as (Hsrc & Hid & Hty).
    assert (forall fs1,
              (Forall secretField fields /\
               ID fs' = default (ID fs1) (lastValue secretKey "id" fields) /\
               FilePath fs' = default (FilePath fs1)
                                (lastValue secretKey "src" fields)) ->
              secretField f ->
              ID fs1 = (if String.eqb (secretKey k) "id" then v else ID fs) ->
              FilePath fs1 = (if String.eqb (secretKey k) "src" then v
                              else FilePath fs) ->
              Forall secretField (f :: fields) /\
              ID fs' = default (ID fs)
                         match lastValue secretKey "id" fields with
                         | Some w => Some w
                         | None => if String.eqb (secretKey k) "id"
                                   then Some v else None
                         end /\
              FilePath fs' = default (FilePath fs)
                         match lastValue secretKey "src" fields with
                         | Some w => Some w
                         | None => if String.eqb (secretKey k) "src"
                                   then Some v else None
                         end) as Hfwd.
    { intros fs1 (Hall & Hi & Hp) Hacc Hi1 Hp1. split; [now constructor|].
      rewrite Hi, Hp, Hi1, Hp1.
      destruct (lastValue secretKey "id" fields),
        (lastValue secretKey "src" fields),
        (String.eqb (secretKey k) "id"), (String.eqb (secretKey k) "src");
        now split. }
    assert (forall fs1,
              (Forall secretField (f :: fields) /\
               ID fs' = default (ID fs)
                          match lastValue secretKey "id" fields with
                          | Some w => Some w
                          | None => if String.eqb (secretKey k) "id"
                                    then Some v else None
                          end /\
               FilePath fs' = default (FilePath fs)
                          match lastValue secretKey "src" fields with
                          | Some w => Some w
                          | None => if String.eqb (secretKey k) "src"
                                    then Some v else None
                          end) ->
              ID fs1 = (if String.eqb (secretKey k) "id" then v else ID fs) ->
              FilePath fs1 = (if String.eqb (secretKey k) "src" then v
                              else FilePath fs) ->
              Forall secretField fields /\
              ID fs' = default (ID fs1) (lastValue secretKey "id" fields) /\
              FilePath fs' = default (FilePath fs1)
                               (lastValue secretKey "src" fields)) as Hbwd.
    { intros fs1 (Hall & Hi & Hp) Hi1 Hp1.
      apply Forall_cons in Hall as [_ Hall]. split; [assumption|].
      rewrite Hi, Hp, Hi1, Hp1.
      destruct (lastValue secretKey "id" fields),
        (lastValue secretKey "src" fields),
        (String.eqb (secretKey k) "id"), (String.eqb (secretKey k) "src");
        now split. }
    assert (forall key, String.eqb (secretKey k) key = true <-> secretKey k = key)
      as Heqb by (intros; apply String.eqb_eq).
    destruct (String.eqb_spec (ToLower k) "type") as [Ht|Ht].
    { assert (String.eqb (secretKey k) "id" = false) as Hni.
      { apply String.eqb_neq. intros H. apply Hid in H. congruence. }
      assert (String.eqb (secretKey k) "src" = false) as Hns.
      { apply String.eqb_neq. intros H. apply Hsrc in H as [H|H]; congruence. }
      destruct (String.eqb_spec v "file") as [->|Hv]; simpl.
      - rewrite IH. split.
        + intros H. apply (Hfwd fs H); [|now rewrite Hni|now rewrite Hns].
          exists k, "file". auto.
        + intros H. apply (Hbwd fs H); [now rewrite Hni|now rewrite Hns].
      - split; [discriminate|]. intros (Hall & _).
        apply Forall_cons in Hall as [(k' & v' & Hc & Hcase) _].
        rewrite Hf in Hc. injection Hc as <- <-.
        destruct Hcase as [[_ ->]|[H|[H|H]]]; congruence. }
    destruct (String.eqb_spec (ToLower k) "id") as [Hi|Hi].
    { assert (String.eqb (secretKey k) "id" = true) as Hyi
        by (apply String.eqb_eq; now apply Hid).
      assert (String.eqb (secretKey k) "src" = false) as Hns.
      { apply String.eqb_neq. intros H. apply Hsrc in H as [H|H]; congruence. }
      simpl. rewrite IH. split.
      - intros H. apply (Hfwd _ H); simpl; [|now rewrite Hyi|now rewrite Hns].
        exists k, v. auto.
      - intros H. apply (Hbwd _ H); simpl; [now rewrite Hyi|now rewrite Hns]. }
    destruct (String.eqb (ToLower k) "source" || String.eqb (ToLower k) "src")
      eqn:Hs.
    { apply orb_true_iff in Hs.
      assert (ToLower k = "source" \/ ToLower k = "src") as Hs'
        by (destruct Hs as [H|H]; apply String.eqb_eq in H; auto).
      assert (String.eqb (secretKey k) "src" = true) as Hys
        by (apply String.eqb_eq; now apply Hsrc).
      assert (String.eqb (secretKey k) "id" = false) as Hni.
      { apply String.eqb_neq. intros H. apply Hid in H. congruence. }
      simpl. rewrite IH. split.
      - intros H. apply (Hfwd _ H); simpl; [|now rewrite Hni|now rewrite Hys].
        exists k, v. split; [assumption|]. destruct Hs'; auto.
      - intros H. apply (Hbwd _ H); simpl; [now rewrite Hni|now rewrite Hys]. }
    simpl. split; [discriminate|]. intros (Hall & _).
    apply Forall_cons in Hall as [(k' & v' & Hc & Hcase) _].
    rewrite Hf in Hc. injection Hc as <- <-.
    apply orb_false_iff in Hs as [Hs1 Hs2].
    apply String.eqb_neq in Hs1, Hs2.
    destruct Hcase as [[H _]|[H|[H|H]]]; congruence.
Qed.

(** [parseSecret] returns a source exactly when every field of the record
    is [type=file], an [id], a [source] or a [src] (the keys in any case);
    the id is the value of the last [id] field and the path that of the
    last [source] or [src] field, each empty when there is no such field:
    neither is required. *)
Theorem parseSecret_source {U : Unicode} (value : string) (fields : list string)
    (fs : FileSource) :
  csv_Read value = Ok fields ->
  (parseSecret value = Ok fs <->
   Forall secretField fields /\
   ID fs = default EmptyString (lastValue secretKey "id" fields) /\
   FilePath fs = default EmptyString (lastValue secretKey "src" fields)).
Proof.
  intros Hr. unfold parseSecret. rewrite Hr. apply parseSecret_fields_Ok.
Qed.

Lemma parseSecret_source_witness :
  parseSecret "TYPE=file,src=/a,Source=/b" =
    Ok {| ID := EmptyString; FilePath := "/b" |}.
Proof.
  apply (proj2 (parseSecret_source "TYPE=file,src=/a,Source=/b"
                  ["TYPE=file"; "src=/a"; "Source=/b"] _ eq_refl)).
  split; [|split; reflexivity].
  repeat constructor.
  - exists "TYPE", "file". split; [reflexivity|]. left. split; reflexivity.
  - exists "src", "/a". split; [reflexivity|]. right. right. right. reflexivity.
  - exists "Source", "/b". split; [reflexivity|]. right. right. left. reflexivity.
Defined.

Lemma simple_keyValue k v :
  simple k = true -> simple v = true -> simple (keyValue k v) = true.
Proof.
  intros Hk Hv. apply simple_true in Hk as [Hkp Hkc], Hv as [Hvp Hvc].
  apply simple_true. unfold keyValue. rewrite plain_app, noComma_app, Hkp, Hkc.
  split.
  - apply plain_String. repeat split; try discriminate. exact Hvp.
  - apply noComma_String. split; [discriminate|exact Hvc].
Qed.

(** Round trip: the spec [id=<id>,src=<path>] of the flag's usage text is
    read back as the secret [<id>] at [<path>], for every id and path free
    of quotes, line ends and commas. *)
Theorem parseSecret_round_trip {U : Unicode} (id path : string) :
  simple id = true -> simple path = true ->
  parseSecret (Join_comma [keyValue "id" id; keyValue "src" path]) =
    Ok {| ID := id; FilePath := path |}.
Proof.
  intros Hid Hpath.
  assert (csv_Read (Join_comma [keyValue "id" id; keyValue "src" path]) =
          Ok [keyValue "id" id; keyValue "src" path]) as Hread.
  { apply csv_Read_Join.
    - repeat constructor; now apply simple_keyValue.
    - rewrite Join_comma_cons. discriminate. }
  unfold parseSecret. rewrite Hread. apply parseSecret_fields_Ok.
  pose proof (cut_keyValue "id" id eq_refl) as Hci.
  pose proof (cut_keyValue "src" path eq_refl) as Hcp.
  split; [|split].
  - repeat constructor.
    + exists "id", id. split; [assumption|]. right. left. reflexivity.
    + exists "src", path. split; [assumption|]. right. right. right. reflexivity.
  - cbn [lastValue ID]. rewrite Hcp, Hci. reflexivity.
  - cbn [lastValue FilePath]. rewrite Hcp. reflexivity.
Qed.

Lemma parseSecret_round_trip_witness :
  parseSecret "id=mysecret,src=/run/secrets/key=1" =
    Ok {| ID := "mysecret"; FilePath := "/run/secrets/key=1" |}.
Proof.
  apply (parseSecret_round_trip "mysecret" "/run/secrets/key=1"); reflexivity.
Defined.

(** ** More on [parseSSHSpecs] and [parseEntitlements] *)

Lemma parseSSHSpec_config v :
  exists cfg, parseSSHSpec v = Ok cfg /\ sshConfigOf v cfg.
Proof.
  unfold parseSSHSpec, sshConfigOf, SplitN_eq_2.
  destruct (cut equals v) as [[k rest]|].
  - eexists. split; [reflexivity|]. simpl.
    destruct (Split_comma_parts rest) as (H1 & H2 & H3). auto.
  - eexists. split; reflexivity.
Qed.

Lemma parseSSHSpecs_loop_configs inp : forall configs,
  exists new,
    parseSSHSpecs_loop inp configs = Ok (configs ++ new) /\
    Forall2 sshConfigOf inp new.
Proof.
  induction inp as [|v inp IH]; intros configs.
  - exists []. split; [now rewrite app_nil_r|constructor].
  - simpl. destruct (parseSSHSpec_config v) as (cfg & -> & Hcfg). simpl.
    destruct (IH (configs ++ [cfg])) as (new & -> & Hnew).
    exists (cfg :: new). split; [now rewrite <- app_assoc|now constructor].
Qed.

(** [parseSSHSpecs] never fails.  It gives one configuration for each
    spec, in order: a spec without ['='] is an id without paths; a spec
    [id=rest] has the id before the first ['='] and the parts of [rest]
    between its commas as paths, at least one (an empty [rest] is one
    empty path), which joined with commas are [rest] again. *)
Theorem parseSSHSpecs_configs (inp : list string) :
  exists configs,
    parseSSHSpecs inp = Ok configs /\ Forall2 sshConfigOf inp configs.
Proof. exact (parseSSHSpecs_loop_configs inp []). Qed.

Section ExtraBuild.
Context {U : Unicode} {env : Env}.

Lemma parseEntitlements_loop_Ok inp : forall ent ents,
  parseEntitlements_loop inp ent = Ok ents <->
  exists new,
    ents = ent ++ new /\
    Forall2 (fun v e => entitlements_Parse v = inr e) inp new.
Proof.
  induction inp as [|v inp IH]; intros ent ents; simpl.
  - split.
    + intros [= <-]. exists []. split; [now rewrite app_nil_r|constructor].
    + intros (new & -> & Hnew). inversion Hnew. now rewrite app_nil_r.
  - destruct (entitlements_Parse v) as [err|e] eqn:Hv; simpl.
    + split; [discriminate|]. intros (new & _ & Hnew).
      inversion Hnew; congruence.
    + rewrite IH. split.
      * intros (new & -> & Hnew). exists (e :: new).
        split; [now rewrite <- app_assoc|now constructor].
      * intros (new & -> & Hnew). inversion Hnew as [|? e' ? new' He Hrest]; subst.
        rewrite Hv in He. injection He as <-. exists new'.
        split; [now rewrite <- app_assoc|assumption].
Qed.

Lemma parseEntitlements_loop_first_bad pre v post err : forall ent,
  Forall (fun u => exists e, entitlements_Parse u = inr e) pre ->
  entitlements_Parse v = inl err ->
  parseEntitlements_loop (pre ++ v :: post) ent = Err err.
Proof.
  intros ent Hpre Hv. revert ent.
  induction Hpre as [|u pre [e Hu] _ IH]; intros ent; simpl.
  - now rewrite Hv.
  - rewrite Hu. simpl. apply IH.
Qed.

(** [parseEntitlements] returns the entitlements of all tokens, in order,
    exactly when [entitlements.Parse] accepts every token; otherwise it
    returns the error of the first token that is refused. *)
Theorem parseEntitlements_all_or_first_error (inp : list string) :
  (forall ents,
     parseEntitlements inp = Ok ents <->
     Forall2 (fun v e => entitlements_Parse v = inr e) inp ents) /\
  (forall pre v post err,
     inp = pre ++ v :: post ->
     Forall (fun u => exists e, entitlements_Parse u = inr e) pre ->
     entitlements_Parse v = inl err ->
     parseEntitlements inp = Err err).
Proof.
  split.
  - intros ents. unfold parseEntitlements. rewrite parseEntitlements_loop_Ok.
    split; [now intros (new & -> & H)|intros H; now exists ents].
  - intros pre v post err -> Hpre Hv.
    now apply parseEntitlements_loop_first_bad.
Qed.

Lemma parseSecretSpecs_loop_Ok sl : forall fs srcs,
  parseSecretSpecs_loop sl fs = Ok srcs <->
  exists new,
    srcs = fs ++ new /\ Forall2 (fun v s => parseSecret v = Ok s) sl new.
Proof.
  induction sl as [|v sl IH]; intros fs srcs; simpl.
  - split.
    + intros [= <-]. exists []. split; [now rewrite app_nil_r|constructor].
    + intros (new & -> & Hnew). inversion Hnew. now rewrite app_nil_r.
  - destruct (parseSecret v) as [s| |] eqn:Hv; simpl.
    + rewrite IH. split.
      * intros (new & -> & Hnew). exists (s :: new).
        split; [now rewrite <- app_assoc|now constructor].
      * intros (new & -> & Hnew). inversion Hnew as [|? s' ? new' Hs Hrest]; subst.
        rewrite Hv in Hs. injection Hs as <-. exists new'.
        split; [now rewrite <- app_assoc|assumption].
    + split; [discriminate|]. intros (new & _ & Hnew). inversion Hnew; congruence.
    + split; [discriminate|]. intros (new & _ & Hnew). inversion Hnew; congruence.
Qed.

Lemma parseSecretSpecs_loop_first_bad pre v post err : forall fs,
  Forall (fun u => exists s, parseSecret u = Ok s) pre ->
  parseSecret v = Err err ->
  parseSecretSpecs_loop (pre ++ v :: post) fs = Err err.
Proof.
  intros fs Hpre Hv. revert fs.
  induction Hpre as [|u pre [s Hu] _ IH]; intros fs; simpl.
  - now rewrite Hv.
  - rewrite Hu. simpl. apply IH.
Qed.

(** [parseSecretSpecs] parses every spec before it makes the file store:
    when all specs are accepted the store is made from their sources, in
    order, and its error, if any, is the result; when a spec is refused the
    result is the error of the first such spec and the system is left as it
    was ([NewFileStore] is not called). *)
Theorem parseSecretSpecs_all_or_first_error (sl : list string) (st : State) :
  (forall srcs,
     Forall2 (fun v s => parseSecret v = Ok s) sl srcs ->
     parseSecretSpecs sl st =
       ({| os := (NewFileStore srcs (os st)).1; log := log st |},
        match (NewFileStore srcs (os st)).2 with
        | inr store => Ok (NewSecretProvider store)
        | inl err => Err err
        end)) /\
  (forall pre v post err,
     sl = pre ++ v :: post ->
     Forall (fun u => exists s, parseSecret u = Ok s) pre ->
     parseSecret v = Err err ->
     parseSecretSpecs sl st = (st, Err err)).
Proof.
  split.
  - intros srcs Hsrcs.
    assert (parseSecretSpecs_loop sl [] = Ok srcs) as Hloop
      by (apply parseSecretSpecs_loop_Ok; now exists srcs).
    unfold parseSecretSpecs, mbind, M_bind, pure, sys. rewrite Hloop.
    destruct (NewFileStore srcs (os st)) as [o' [err|store]]; reflexivity.
  - intros pre v post err -> Hpre Hv.
    unfold parseSecretSpecs, mbind, M_bind, pure.
    now rewrite (parseSecretSpecs_loop_first_bad _ _ _ _ [] Hpre Hv).
Qed.

End ExtraBuild.

Lemma parseSSHSpecs_configs_witness :
  parseSSHSpecs ["default"; "key=/a,/b"; "agent="] =
    Ok [{| AgentID := "default"; Paths := [] |};
        {| AgentID := "key"; Paths := ["/a"; "/b"] |};
        {| AgentID := "agent"; Paths := [EmptyString] |}].
Proof.
  destruct (parseSSHSpecs_configs ["default"; "key=/a,/b"; "agent="])
    as (configs & Hrun & _).
  rewrite Hrun. vm_compute in Hrun. now injection Hrun as <-.
Defined.

Lemma parseEntitlements_all_or_first_error_witness :
  @parseEntitlements simEnv ["network.host"; "security.insecure"] =
    Ok ["network.host"; "security.insecure"].
Proof.
  apply (proj1 (@parseEntitlements_all_or_first_error simEnv
                  ["network.host"; "security.insecure"])).
  repeat constructor.
Defined.

Lemma parseSecretSpecs_all_or_first_error_witness :
  @parseSecretSpecs noTables simEnv ["id=a,src=/p"; "id=b,type=env"; "id=c"] simState0 =
    (simState0, Err (Errorf "unsupported secret type %q" ["env"])).
Proof.
  apply (proj2 (@parseSecretSpecs_all_or_first_error noTables simEnv
                  ["id=a,src=/p"; "id=b,type=env"; "id=c"] simState0)
           ["id=a,src=/p"] "id=b,type=env" ["id=c"]); [reflexivity| |reflexivity].
  repeat constructor. eexists. reflexivity.
Defined.

(** ** More on [read], [resolveExporterOutput] and [build] *)

Section ExtraRun.
Context {U : Unicode} {env : Env}.

Lemma read_loop_Ok dts : forall metadata,
  Forall (fun dt => Op_Unmarshal dt = None) dts ->
  exists metadata',
    read_loop dts metadata = Ok metadata' /\
    (forall dt, dt ∈ dts ->
       exists md, metadata' !! digest_FromBytes dt = Some (IgnoreCache md)) /\
    (forall dgst, (forall dt, dt ∈ dts -> digest_FromBytes dt <> dgst) ->
       metadata' !! dgst = metadata !! dgst).
Proof.
  induction dts as [|dt dts IH]; intros metadata Hall.
  - exists metadata. split; [reflexivity|]. split; [|reflexivity].
    intros dt Hin. inversion Hin.
  - apply Forall_cons in Hall as [Hdt Hall]. simpl. rewrite Hdt.
    destruct (IH (<[digest_FromBytes dt :=
                     IgnoreCache (default emptyOpMetadata
                                    (metadata !! digest_FromBytes dt))]> metadata)
                 Hall) as (metadata' & Hrun & Hin & Hout).
    exists metadata'. split; [exact Hrun|]. split.
    + intros dt' Hdt'. apply elem_of_cons in Hdt' as [->|Hdt']; [|now apply Hin].
      destruct (decide (Exists (fun u => digest_FromBytes u = digest_FromBytes dt) dts))
        as [Hex|Hnex].
      * apply Exists_exists in Hex as (u & Hu & Heq). rewrite <- Heq. now apply Hin.
      * rewrite Hout.
        -- rewrite lookup_insert_eq. eauto.
        -- intros u Hu Heq. apply Hnex, Exists_exists. eauto.
    + intros dgst Hd. rewrite Hout.
      * apply lookup_insert_ne. apply Hd. now left.
      * intros u Hu. apply Hd. now right.
Qed.

Lemma read_loop_first_bad pre dt post err : forall metadata,
  Forall (fun u => Op_Unmarshal u = None) pre ->
  Op_Unmarshal dt = Some err ->
  read_loop (pre ++ dt :: post) metadata =
    Err (Wrap err "failed to parse llb proto op").
Proof.
  intros metadata Hpre Hdt. revert metadata.
  induction Hpre as [|u pre Hu _ IH]; intros metadata; simpl.
  - now rewrite Hdt.
  - rewrite Hu. apply IH.
Qed.

(** [read], when [llb.ReadFrom] gives a definition: without [no-cache] the
    definition is returned as it was read.  With [no-cache] the operations
    are kept and, if all of them unmarshal, the metadata of every
    operation's digest comes out of [llb.IgnoreCache], the metadata of
    every other digest being kept; if one does not unmarshal, the result
    is the wrapped error of the first such operation. *)
Theorem read_metadata (r : File) (clicontext : CliContext) (st : State)
    (o' : OS) (def : list string) (metadata : gmap string OpMetadata) :
  llb_ReadFrom r (os st) = (o', inr (def, metadata)) ->
  (flag_no_cache clicontext = false ->
   read r clicontext st =
     ({| os := o'; log := log st |}, Ok {| Def := def; Metadata := metadata |})) /\
  (flag_no_cache clicontext = true ->
   Forall (fun dt => Op_Unmarshal dt = None) def ->
   exists metadata',
     read r clicontext st =
       ({| os := o'; log := log st |}, Ok {| Def := def; Metadata := metadata' |}) /\
     (forall dt, dt ∈ def ->
        exists md, metadata' !! digest_FromBytes dt = Some (IgnoreCache md)) /\
     (forall dgst, (forall dt, dt ∈ def -> digest_FromBytes dt <> dgst) ->
        metadata' !! dgst = metadata !! dgst)) /\
  (flag_no_cache clicontext = true ->
   forall pre dt post err,
     def = pre ++ dt :: post ->
     Forall (fun u => Op_Unmarshal u = None) pre ->
     Op_Unmarshal dt = Some err ->
     read r clicontext st =
       ({| os := o'; log := log st |},
        Err (Wrap err "failed to parse llb proto op"))).
Proof.
  intros Hread.
  assert (wrapped "failed to parse input" (sys (llb_ReadFrom r)) st =
          ({| os := o'; log := log st |}, Ok (def, metadata))) as Hw.
  { unfold wrapped, sys. now rewrite Hread. }
  split; [|split].
  - intros Hnc. unfold read, mbind, M_bind. now rewrite Hw, Hnc.
  - intros Hnc Hall.
    destruct (read_loop_Ok def metadata Hall) as (metadata' & Hrun & Hin & Hout).
    exists metadata'. split; [|now split].
    unfold read, mbind, M_bind. rewrite Hw, Hnc. simpl.
    unfold pure. now rewrite Hrun.
  - intros Hnc pre dt post err -> Hpre Hdt.
    unfold read, mbind, M_bind. rewrite Hw, Hnc. simpl.
    unfold pure. now rewrite (read_loop_first_bad _ _ _ _ _ Hpre Hdt).
Qed.

(** The system is changed by [resolveExporterOutput] only through
    [os.Create], which is called only for an archive exporter with a path.
    When an error is returned there is no directory path and no file to
    write to: the writer is the nil interface or, after a failed
    [os.Create], the nil [*os.File] (which is not the nil interface).
    When no error is returned the writer, if there is one, is a file. *)
Theorem resolveExporterOutput_effects (exporter output : string) (o : OS) :
  ((resolveExporterOutput exporter output o).1 = o \/
   (resolveExporterOutput exporter output o).1 = (os_Create output o).1 /\
   output <> EmptyString /\
   (exporter = ExporterOCI \/ exporter = ExporterDocker)) /\
  (out_err (resolveExporterOutput exporter output o).2 <> None ->
   out_dir (resolveExporterOutput exporter output o).2 = EmptyString /\
   (out_w (resolveExporterOutput exporter output o).2 = nilWriteCloser \/
    out_w (resolveExporterOutput exporter output o).2 = fileWriteCloser None /\
    exists err, (os_Create output o).2 = inl err)) /\
  (out_err (resolveExporterOutput exporter output o).2 = None ->
   out_w (resolveExporterOutput exporter output o).2 = nilWriteCloser \/
   exists f, out_w (resolveExporterOutput exporter output o).2 =
               fileWriteCloser (Some f)).
Proof.
  unfold resolveExporterOutput.
  destruct (String.eqb exporter ExporterLocal).
  { destruct (isEmpty output); simpl; repeat split; auto; congruence. }
  destruct (String.eqb exporter ExporterOCI || String.eqb exporter ExporterDocker)
    eqn:Harch.
  2:{ destruct (isEmpty output); simpl; repeat split; auto; congruence. }
  assert (exporter = ExporterOCI \/ exporter = ExporterDocker) as Hexp.
  { apply orb_true_iff in Harch as [H|H]; apply String.eqb_eq in H; auto. }
  destruct (isEmpty output) eqn:Hout; simpl.
  { destruct (isConsole os_Stdout o); simpl; repeat split; eauto; congruence. }
  apply isEmpty_false in Hout.
  destruct (os_Stat output o) as [err|fi].
  - destruct (os_IsNotExist err); simpl; [|repeat split; auto; congruence].
    destruct (os_Create output o) as [o' [e|w]]; simpl;
      repeat split; eauto; congruence.
  - destruct (IsDir fi); simpl; [repeat split; auto; congruence|].
    destruct (os_Create output o) as [o' [e|w]]; simpl;
      repeat split; eauto; congruence.
Qed.


(** Lines 193-196 on their own: a string without ['='] among the exporter
    options gives the wrapped error of [attrMap], from any state and with
    the state kept. *)
Lemma build_exporter_first_bad (clicontext : CliContext) (st : State)
    (pre post : list string) (v : string) :
  flag_exporter_opt clicontext = pre ++ v :: post ->
  Forall hasEquals pre -> cut equals v = None ->
  build_exporter clicontext st =
    (st, Err (Wrap (Errorf "invalid value %s" [v]) "invalid exporter-opt")).
Proof.
  intros Hflag Hpre Hv. unfold build_exporter, mbind, M_bind, wrapped, pure.
  rewrite Hflag. unfold attrMap.
  now rewrite (attrMap_loop_first_bad _ _ _ _ Hpre Hv).
Qed.

(** With a string without ['='] among the exporter options, [build]
    never reaches its goroutines.  When the client, the trace file, the
    session, the entitlements and the cache options are accepted, [build]
    returns the error of [attrMap] on that string, wrapped as
    ["invalid exporter-opt"]: the system is the one the session step left,
    with the trace file closed if one was opened, so
    [resolveExporterOutput] has not run; the log holds the notice of the
    trace file and the warnings of the cache options. *)
Theorem build_bad_exporter_option (clicontext : CliContext)
    (pre post : list string) (v : string) :
  flag_exporter_opt clicontext = pre ++ v :: post ->
  Forall hasEquals pre -> cut equals v = None ->
  (forall st st' p, build_setup clicontext st <> (st', Ok p)) /\
  (forall st o1 c s2 traceFile s3 attachable allowed cacheExports cacheImports,
     resolveClient clicontext (os st) = (o1, inr c) ->
     openTraceFile clicontext {| os := o1; log := log st |} =
       (s2, Ok traceFile) ->
     build_session clicontext
       {| os := os s2;
          log := log s2 ++
                 match traceFile with
                 | Some f => [Infof "tracing logs to %s" [Name f]]
                 | None => []
                 end |} = (s3, Ok attachable) ->
     parseEntitlements (flag_allow clicontext) = Ok allowed ->
     (parseExportCache (flag_export_cache clicontext)
        (flag_export_cache_opt clicontext)).2 = Ok cacheExports ->
     (parseImportCache (flag_import_cache clicontext)).2 = Ok cacheImports ->
     build_setup clicontext st =
       ({| os := match traceFile with
                 | Some f => File_Close f (os s3)
                 | None => os s3
                 end;
           log := log s3 ++
                  (parseExportCache (flag_export_cache clicontext)
                     (flag_export_cache_opt clicontext)).1 ++
                  (parseImportCache (flag_import_cache clicontext)).1 |},
        Err (Wrap (Errorf "invalid value %s" [v]) "invalid exporter-opt"))).
Proof.
  intros Hflag Hpre Hv. split.
  - intros st st' p Hp.
    apply build_setup_Ok in Hp as (c & traceFile & s1 & Hp).
    apply build_request_Ok in Hp as (s2 & s3 & s4 & fa & Hexp & _).
    rewrite (build_exporter_first_bad _ _ _ _ _ Hflag Hpre Hv) in Hexp.
    discriminate Hexp.
  - intros st o1 c s2 traceFile s3 attachable allowed cacheExports cacheImports
      Hc Hopen Hsess Hall Hex Him.
    assert (forall tf,
              build_request clicontext c tf
                {| os := os s2;
                   log := log s2 ++
                          match traceFile with
                          | Some f => [Infof "tracing logs to %s" [Name f]]
                          | None => []
                          end |} =
                ({| os := os s3;
                    log := log s3 ++
                           (parseExportCache (flag_export_cache clicontext)
                              (flag_export_cache_opt clicontext)).1 ++
                           (parseImportCache (flag_import_cache clicontext)).1 |},
                 Err (Wrap (Errorf "invalid value %s" [v]) "invalid exporter-opt")))
      as Hreq.
    { intros tf. unfold build_request. unfold mbind at 1, M_bind at 1.
      rewrite Hsess. unfold mbind at 1, M_bind at 1, pure at 1. rewrite Hall.
      unfold mbind at 1, M_bind at 1, logging at 1. rewrite Hex.
      unfold mbind at 1, M_bind at 1, logging at 1. rewrite Him.
      unfold mbind at 1, M_bind at 1.
      rewrite (build_exporter_first_bad _ _ _ _ _ Hflag Hpre Hv).
      cbn [os log]. now rewrite <- app_assoc. }
    unfold build_setup. unfold mbind at 1, M_bind at 1, sys at 1. rewrite Hc.
    cbn [ofError]. unfold mbind at 1, M_bind at 1. rewrite Hopen.
    destruct traceFile as [f|].
    + unfold deferClose, mbind, M_bind, logrus, logging. cbn [fst snd].
      now rewrite Hreq.
    + rewrite <- (Hreq None). destruct s2 as [o2 l2]. cbn [os log].
      now rewrite app_nil_r.
Qed.

Lemma logging_Ok {A} (r : logged A) st st' a :
  logging r st = (st', Ok a) ->
  r.2 = Ok a /\ st' = {| os := os st; log := log st ++ r.1 |}.
Proof. unfold logging. now intros [= <- ->]. Qed.

(** The request that [build] hands to [Solve] holds what the parsers made
    of the flags: the exporter and the frontend as given, the local
    directories of [--local], the cache entries of [parseExportCache] and
    [parseImportCache], the entitlements of [--allow], and the frontend
    attributes of [--frontend-opt], with the key ["no-cache"] added only
    when there is a frontend and [--no-cache]. *)
Theorem build_setup_request (clicontext : CliContext) (st st' : State)
    (p : Prepared) :
  build_setup clicontext st = (st', Ok p) ->
  Exporter (p_solveOpt p) = flag_exporter clicontext /\
  Frontend (p_solveOpt p) = flag_frontend clicontext /\
  attrMap (flag_local clicontext) = Ok (LocalDirs (p_solveOpt p)) /\
  (parseExportCache (flag_export_cache clicontext)
     (flag_export_cache_opt clicontext)).2 = Ok (CacheExports (p_solveOpt p)) /\
  (parseImportCache (flag_import_cache clicontext)).2 =
    Ok (CacheImports (p_solveOpt p)) /\
  parseEntitlements (flag_allow clicontext) =
    Ok (AllowedEntitlements (p_solveOpt p)) /\
  (exists frontendAttrs,
     attrMap (flag_frontend_opt clicontext) = Ok frontendAttrs /\
     FrontendAttrs (p_solveOpt p) =
       if negb (isEmpty (flag_frontend clicontext)) && flag_no_cache clicontext
       then <["no-cache" := EmptyString]> frontendAttrs else frontendAttrs) /\
  (p_traceFile p = None <-> flag_trace clicontext = EmptyString).
Proof.
  unfold build_setup. intros H.
  apply bind_Ok in H as (c & s1 & _ & H).
  apply bind_Ok in H as (traceFile & s2 & Htrace & H).
  assert (build_request clicontext c traceFile
            (match traceFile with
             | Some f => {| os := os s2;
                            log := log s2 ++ [Infof "tracing logs to %s" [Name f]] |}
             | None => s2
             end) = (st', Ok p)) as Hreq.
  { destruct traceFile as [f|]; [|assumption].
    apply deferClose_Ok, bind_Ok in H as (u & s3 & Hlog & H).
    apply logging_Ok in Hlog as [_ ->]. exact H. }
  assert (traceFile = None <-> flag_trace clicontext = EmptyString) as Htr.
  { unfold openTraceFile in Htrace.
    destruct (isEmpty (flag_trace clicontext)) eqn:He; simpl in Htrace.
    - apply mret_Ok in Htrace as [-> _]. apply isEmpty_true in He. tauto.
    - apply bind_Ok in Htrace as (f & s3 & _ & Htrace).
      apply mret_Ok in Htrace as [-> _]. apply isEmpty_false in He.
      split; [discriminate|congruence]. }
  clear H Htrace. unfold build_request in Hreq.
  apply bind_Ok in Hreq as (attachable & t1 & _ & Hreq).
  apply bind_Ok in Hreq as (allowed & t2 & Hallow & Hreq).
  apply pure_Ok in Hallow as [Hallow _].
  apply bind_Ok in Hreq as (cacheExports & t3 & Hexp & Hreq).
  apply logging_Ok in Hexp as [Hexp _].
  apply bind_Ok in Hreq as (cacheImports & t4 & Himp & Hreq).
  apply logging_Ok in Himp as [Himp _].
  apply bind_Ok in Hreq as ([[attrs w] dir] & t5 & _ & Hreq).
  apply bind_Ok in Hreq as (frontendAttrs & t6 & Hfa & Hreq).
  apply wrapped_Ok, pure_Ok in Hfa as [Hfa _].
  apply bind_Ok in Hreq as (localDirs & t7 & Hlocal & Hreq).
  apply wrapped_Ok, pure_Ok in Hlocal as [Hlocal _].
  apply bind_Ok in Hreq as ([def fa] & t8 & Hdef & Hreq).
  apply mret_Ok in Hreq as [-> _]. simpl.
  repeat (split; [assumption || reflexivity|]). split; [|exact Htr].
  exists frontendAttrs. split; [assumption|].
  unfold build_definition in Hdef.
  destruct (isEmpty (flag_frontend clicontext)); simpl.
  - apply bind_Ok in Hdef as (fi & u1 & _ & Hdef).
    destruct (ModeCharDevice fi); [discriminate|].
    apply bind_Ok in Hdef as (d & u2 & _ & Hdef).
    destruct (length (Def d) =? 0)%nat; [discriminate|].
    now apply mret_Ok in Hdef as [[= _ ->] _].
  - destruct (flag_no_cache clicontext);
      now apply mret_Ok in Hdef as [[= _ ->] _].
Qed.

Lemma silent_pure {A} (r : result A) : silent (pure r).
Proof. intros st st' r' [= <- _]. reflexivity. Qed.

Lemma silent_mret {A} (a : A) : silent (mret a : M A).
Proof. intros st st' r' [= <- _]. reflexivity. Qed.

Lemma silent_sys {A} (f : OS -> OS * (error + A)) : silent (sys f).
Proof.
  intros st st' r'. unfold sys. destruct (f (os st)) as [o' r].
  now intros [= <- _].
Qed.

Lemma silent_bind {A B} (m : M A) (k : A -> M B) :
  silent m -> (forall a, silent (k a)) -> silent (m ≫= k).
Proof.
  intros Hm Hk st st' r. unfold mbind, M_bind.
  destruct (m st) as [st1 [a|e|p]] eqn:Hrun.
  - intros H. apply Hk in H. apply Hm in Hrun. congruence.
  - intros [= <- _]. now apply Hm in Hrun.
  - intros [= <- _]. now apply Hm in Hrun.
Qed.

Lemma silent_wrapped {A} msg (m : M A) : silent m -> silent (wrapped msg m).
Proof.
  intros Hm st st' r. unfold wrapped.
  destruct (m st) as [st1 [a|e|p]] eqn:Hrun; intros [= <- _];
    now apply Hm in Hrun.
Qed.

Lemma silent_build_session clicontext : silent (build_session clicontext).
Proof.
  unfold build_session. apply silent_bind.
  - destruct (0 <? length (flag_ssh clicontext))%nat; [|apply silent_mret].
    apply silent_bind; [apply silent_pure|]. intros configs.
    apply silent_bind; [apply silent_sys|]. intros sp. apply silent_mret.
  - intros attachable.
    destruct (0 <? length (flag_secret clicontext))%nat; [|apply silent_mret].
    apply silent_bind; [|intros sp; apply silent_mret].
    unfold parseSecretSpecs. apply silent_bind; [apply silent_pure|].
    intros fs. apply silent_bind; [apply silent_sys|].
    intros store. apply silent_mret.
Qed.

Lemma silent_build_exporter clicontext : silent (build_exporter clicontext).
Proof.
  unfold build_exporter. apply silent_bind.
  { apply silent_wrapped, silent_pure. }
  intros attrs. apply silent_bind.
  - intros st st' r.
    destruct (resolveExporterOutput (flag_exporter clicontext)
                (default EmptyString (attrs !! "output")) (os st)) as [o' out].
    now intros [= <- _].
  - intros out. destruct (out_err out); [apply silent_pure|].
    destruct (negb (isNil (out_w out)) || negb (isEmpty (out_dir out)));
      apply silent_mret.
Qed.

Lemma silent_read r clicontext : silent (read r clicontext).
Proof.
  unfold read. apply silent_bind.
  { apply silent_wrapped, silent_sys. }
  intros def. destruct (flag_no_cache clicontext); [|apply silent_mret].
  apply silent_bind; [apply silent_pure|]. intros md. apply silent_mret.
Qed.

Lemma silent_build_definition clicontext frontendAttrs :
  silent (build_definition clicontext frontendAttrs).
Proof.
  unfold build_definition.
  destruct (isEmpty (flag_frontend clicontext)).
  - apply silent_bind.
    { intros st st' r [= <- _]. reflexivity. }
    intros fi. destruct (ModeCharDevice fi); [apply silent_pure|].
    apply silent_bind; [apply silent_read|]. intros def.
    destruct (length (Def def) =? 0)%nat; [apply silent_pure|apply silent_mret].
  - destruct (flag_no_cache clicontext); apply silent_mret.
Qed.

(** Before its goroutines start, [build] logs nothing but the notice of
    the trace file and one deprecation warning for each legacy cache spec,
    those of [--export-cache] before those of [--import-cache]. *)
Theorem build_setup_log (clicontext : CliContext) (st st' : State)
    (p : Prepared) :
  build_setup clicontext st = (st', Ok p) ->
  log st' = log st ++ setupLog clicontext (p_traceFile p).
Proof.
  unfold build_setup. intros H.
  apply bind_Ok in H as (c & s1 & Hc & H). apply silent_sys in Hc.
  apply bind_Ok in H as (traceFile & s2 & Htrace & H).
  assert (log s2 = log s1) as Hs2.
  { revert Htrace. unfold openTraceFile.
    destruct (negb (isEmpty (flag_trace clicontext))); [|apply silent_mret].
    apply silent_bind; [apply silent_sys|]. intros f. apply silent_mret. }
  assert (exists s3,
            build_request clicontext c traceFile s3 = (st', Ok p) /\
            log s3 = log st ++ match traceFile with
                               | Some f => [Infof "tracing logs to %s" [Name f]]
                               | None => []
                               end) as (s3 & Hreq & Hs3).
  { destruct traceFile as [f|].
    - apply deferClose_Ok, bind_Ok in H as (u & s3 & Hlog & H).
      apply logging_Ok in Hlog as [_ ->]. eexists. split; [exact H|].
      simpl. congruence.
    - exists s2. split; [exact H|]. rewrite app_nil_r. congruence. }
  clear H. unfold build_request in Hreq.
  apply bind_Ok in Hreq as (attachable & t1 & H1 & Hreq).
  apply silent_build_session in H1.
  apply bind_Ok in Hreq as (allowed & t2 & H2 & Hreq).
  apply silent_pure in H2.
  apply bind_Ok in Hreq as (cacheExports & t3 & Hexp & Hreq).
  apply logging_Ok in Hexp as [Hexp ->].
  apply bind_Ok in Hreq as (cacheImports & t4 & Himp & Hreq).
  apply logging_Ok in Himp as [Himp ->].
  apply bind_Ok in Hreq as (exp & t5 & H5 & Hreq).
  apply silent_build_exporter in H5.
  apply bind_Ok in Hreq as (frontendAttrs & t6 & H6 & Hreq).
  apply (silent_wrapped _ _ (silent_pure _)) in H6.
  apply bind_Ok in Hreq as (localDirs & t7 & H7 & Hreq).
  apply (silent_wrapped _ _ (silent_pure _)) in H7.
  apply bind_Ok in Hreq as (d & t8 & H8 & Hreq).
  apply silent_build_definition in H8.
  apply mret_Ok in Hreq as [-> ->]. simpl in *.
  destruct (parseExportCache (flag_export_cache clicontext)
              (flag_export_cache_opt clicontext)) as [elog eres] eqn:He.
  destruct (parseImportCache (flag_import_cache clicontext)) as [ilog ires] eqn:Hi.
  simpl in *. subst eres ires.
  unfold parseExportCache in He.
  destruct ((0 <? length (flag_export_cache_opt clicontext))%nat
            && negb (length (flag_export_cache clicontext) =? 1)%nat);
    [discriminate He|].
  apply parseExportCache_loop_Ok in He as (_ & _ & _ & ->).
  apply parseImportCache_loop_Ok in Hi as (_ & _ & _ & ->).
  unfold setupLog. rewrite H8, H7, H6, H5, H2, H1, Hs3.
  now rewrite <- !app_assoc.
Qed.

End ExtraRun.

Lemma read_metadata_witness :
  exists metadata',
    @read simEnv os_Stdin (withFrontend EmptyString true) simState0 =
      (simState0, Ok (@Build_Definition_ simEnv ["op"] metadata')) /\
    metadata' !! "op" = Some true.
Proof.
  destruct (proj1 (proj2 (@read_metadata simEnv os_Stdin
                            (withFrontend EmptyString true) simState0
                            simOS0 ["op"] ∅ eq_refl)) eq_refl)
    as (metadata' & Hrun & Hin & _).
  - repeat constructor.
  - exists metadata'. split; [exact Hrun|].
    destruct (Hin "op") as [md Hmd]; [now left|]. exact Hmd.
Defined.


Lemma build_bad_exporter_option_witness :
  exists st',
    @build_setup noTables simEnv
      (withTrace "trace.json" "oci" ["output=/out/img.tar"; "name"]) simState0 =
      (st', Err (Wrap (Errorf "invalid value %s" ["name"]) "invalid exporter-opt")) /\
    sim_files (@os simEnv st') !! "trace.json" = Some false /\
    sim_files (@os simEnv st') !! "/out/img.tar" = None /\
    @log simEnv st' = [Infof "tracing logs to %s" ["trace.json"]].
Proof.
  assert (Forall hasEquals ["output=/out/img.tar"]) as Hpre.
  { repeat constructor. unfold hasEquals. vm_compute. discriminate. }
  pose (o2 := {| sim_files := <["trace.json" := false]> (sim_files simOS0);
                 sim_stdin_tty := false; sim_stdout_tty := true;
                 sim_stdin_def := ["op"]; sim_trace := [] |}).
  pose (f := {| Name := "trace.json"; Fd := 3 |}).
  pose (s3 := @Build_State simEnv o2 [Infof "tracing logs to %s" ["trace.json"]]).
  exists s3. split.
  - exact (proj2 (@build_bad_exporter_option noTables simEnv
                    (withTrace "trace.json" "oci" ["output=/out/img.tar"; "name"])
                    ["output=/out/img.tar"] [] "name" eq_refl Hpre eq_refl)
             simState0 simOS0 tt (@Build_State simEnv o2 []) (Some f) s3
             ["auth"] [] [] [] eq_refl eq_refl eq_refl eq_refl eq_refl eq_refl).
  - repeat split; reflexivity.
Defined.

Lemma build_setup_request_witness :
  exists p,
    @build_setup noTables simEnv (withSession EmptyString ["default"] ["id=a,src=/p"])
      simState0 = (@Build_State simEnv simOS0
                     [Warnf exportCacheDeprecated; Warnf importCacheDeprecated],
                   Ok p) /\
    @Exporter simEnv (@p_solveOpt simEnv p) = "image" /\
    @CacheImports simEnv (@p_solveOpt simEnv p) = [legacyImport "example.com/cache"] /\
    @p_traceFile simEnv p = None.
Proof.
  assert (exists p,
            @build_setup noTables simEnv (withSession EmptyString ["default"] ["id=a,src=/p"])
              simState0 = (@Build_State simEnv simOS0
                             [Warnf exportCacheDeprecated; Warnf importCacheDeprecated],
                           Ok p)) as [p Hrun]
    by (eexists; reflexivity).
  destruct (@build_setup_request noTables simEnv _ _ _ _ Hrun)
    as (He & _ & _ & _ & Hi & _ & _ & Ht).
  exists p. split; [exact Hrun|]. split; [exact He|]. split.
  - simpl in Hi. now injection Hi as <-.
  - apply Ht. reflexivity.
Defined.

Lemma build_setup_log_witness :
  exists st' p,
    @build_setup noTables simEnv (withSession "trace.json" [] []) simState0 = (st', Ok p) /\
    @log simEnv st' =
      [Infof "tracing logs to %s" ["trace.json"];
       Warnf exportCacheDeprecated; Warnf importCacheDeprecated].
Proof.
  assert (exists st' p,
            @build_setup noTables simEnv (withSession "trace.json" [] []) simState0 =
              (st', Ok p) /\
            @p_traceFile simEnv p = Some {| Name := "trace.json"; Fd := 3 |})
    as (st' & p & Hrun & Hf) by (eexists _, _; split; reflexivity).
  exists st', p. split; [exact Hrun|].
  rewrite (@build_setup_log noTables simEnv _ _ _ _ Hrun), Hf. reflexivity.
Defined.
